(** * TOR-Unveil: flow fingerprinting and guard-node correlation

    A shallow embedding of [backend/pcap_ingestion.py] (the flow
    fingerprint) and [backend/correlation_engine.py] (the three component
    scores, their combination, the per-flow correlation and the batch pass)
    over the tables of [backend/database.py].

    Python [float] is IEEE 754 binary64; it is embedded as Rocq's primitive
    [float], whose operations are the same binary64 operations.  Python
    [int] is [Z].  A Python exception is the [None] of an [option] result. *)

From Stdlib Require Import ZArith List String Ascii Bool Lia.
From Stdlib Require Import DecimalString Floats.
From Stdlib Require DecimalPos DecimalZ.
From Stdlib Require Import Permutation Sorted.
From Stdlib Require Import Reals Lra Psatz.
Import ListNotations.

Set Warnings "-inexact-float".

(* ===================================================================== *)
(** * Python numbers *)
(* ===================================================================== *)

Module Py.

Local Open Scope float_scope.

(** [max(a, b)] and [min(a, b)] on two arguments: the first argument is kept
    unless the second compares strictly greater (smaller). *)
Definition max (a b : float) : float := if a <? b then b else a.
Definition min (a b : float) : float := if b <? a then b else a.

(** An integer seen as an unrounded binary number [z * 2^0]. *)
Definition SF_of_Z (z : Z) : spec_float :=
  match z with
  | Z0 => S754_zero false
  | Zpos p => S754_finite false p 0
  | Zneg p => S754_finite true p 0
  end.

(** [float(n)] for an [int]: the nearest binary64 number, ties to even;
    [OverflowError] when it is out of range. *)
Definition float_of_int (z : Z) : option float :=
  match binary_normalize prec emax z 0 false with
  | S754_infinity _ => None
  | r => Some (SF2Prim r)
  end.

(** [a / b] on two [int]s (true division): the correctly rounded quotient;
    [ZeroDivisionError] for [b = 0], [OverflowError] out of range. *)
Definition truediv (a b : Z) : option float :=
  match b with
  | Z0 => None
  | _ =>
    match SF64div (SF_of_Z a) (SF_of_Z b) with
    | S754_infinity _ => None
    | r => Some (SF2Prim r)
    end
  end.

(** [float(d)] for the decimal number [n / 10^k] (a [Decimal] with [k]
    fractional digits): the nearest binary64 number; an out-of-range
    decimal converts to an infinity. *)
Definition float_of_decimal (n : Z) (k : nat) : float :=
  SF2Prim (SF64div (SF_of_Z n) (SF_of_Z (10 ^ Z.of_nat k))).

(** [int(x)] for a [float]: truncation toward zero; [ValueError] on a NaN
    and [OverflowError] on an infinity. *)
Definition int_of_SF (x : spec_float) : option Z :=
  match x with
  | S754_zero _ => Some 0%Z
  | S754_finite s m e =>
    let a := match e with
             | Zneg p => Z.shiftr (Zpos m) (Zpos p)
             | _ => Z.shiftl (Zpos m) e
             end in
    Some (if s then Z.opp a else a)
  | S754_infinity _ | S754_nan => None
  end.

Definition int_of_float (x : float) : option Z := int_of_SF (Prim2SF x).

(** The integer nearest to [m * 2^e], ties to even, for [m >= 0]. *)
Definition round_half_even_scaled (m e : Z) : Z :=
  match e with
  | Zneg p =>
    let d := Z.pow_pos 2 p in
    let q := Z.div m d in
    let r := Z.modulo m d in
    match Z.compare (2 * r) d with
    | Lt => q
    | Gt => (q + 1)%Z
    | Eq => if Z.even q then q else (q + 1)%Z
    end
  | _ => Z.shiftl m e
  end.

(** [round(x, ndigits)] for a [float] and [0 <= ndigits]: the decimal with
    [ndigits] fractional digits nearest to the exact value of [x] (ties to
    even), converted back to the nearest [float]; the sign of [x] is kept,
    and a NaN or an infinity rounds to itself. *)
Definition round (x : float) (ndigits : nat) : float :=
  match Prim2SF x with
  | S754_finite s m e =>
    let p := (10 ^ Z.of_nat ndigits)%Z in
    let n := round_half_even_scaled (Zpos m * p) e in
    let q := SF64div (SF_of_Z n) (SF_of_Z p) in
    SF2Prim (if s then SFopp q else q)
  | _ => x
  end.

(** [str(n)] for an [int]. *)
Definition str_of_int (z : Z) : string := NilZero.string_of_int (Z.to_int z).

(** [sep.join(parts)]. *)
Fixpoint join (sep : string) (parts : list string) : string :=
  match parts with
  | [] => EmptyString
  | [s] => s
  | s :: rest => (s ++ sep ++ join sep rest)%string
  end.

(** [s[:n]]. *)
Fixpoint str_take (n : nat) (s : string) : string :=
  match n, s with
  | S n', String c s' => String c (str_take n' s')
  | _, _ => EmptyString
  end.

(** [s.encode()] for a string of ASCII characters: one byte a character. *)
Fixpoint encode (s : string) : list Z :=
  match s with
  | EmptyString => []
  | String c s' => Z.of_N (N_of_ascii c) :: encode s'
  end.

End Py.

(* ===================================================================== *)
(** * SHA-256 ([hashlib.sha256], FIPS 180-4) *)
(* ===================================================================== *)

Module Sha256.

Local Open Scope Z_scope.

Definition mask32 : Z := 4294967295.
Definition add32 (a b : Z) : Z := Z.land (a + b) mask32.
Definition rotr (n x : Z) : Z :=
  Z.lor (Z.shiftr x n) (Z.land (Z.shiftl x (32 - n)) mask32).
Definition ch (x y z : Z) : Z :=
  Z.lxor (Z.land x y) (Z.land (Z.lxor x mask32) z).
Definition maj (x y z : Z) : Z :=
  Z.lxor (Z.lxor (Z.land x y) (Z.land x z)) (Z.land y z).
Definition bsig0 (x : Z) : Z := Z.lxor (Z.lxor (rotr 2 x) (rotr 13 x)) (rotr 22 x).
Definition bsig1 (x : Z) : Z := Z.lxor (Z.lxor (rotr 6 x) (rotr 11 x)) (rotr 25 x).
Definition ssig0 (x : Z) : Z := Z.lxor (Z.lxor (rotr 7 x) (rotr 18 x)) (Z.shiftr x 3).
Definition ssig1 (x : Z) : Z := Z.lxor (Z.lxor (rotr 17 x) (rotr 19 x)) (Z.shiftr x 10).

Definition K : list Z :=
  [ 1116352408; 1899447441; 3049323471; 3921009573;
    961987163; 1508970993; 2453635748; 2870763221;
    3624381080; 310598401; 607225278; 1426881987;
    1925078388; 2162078206; 2614888103; 3248222580;
    3835390401; 4022224774; 264347078; 604807628;
    770255983; 1249150122; 1555081692; 1996064986;
    2554220882; 2821834349; 2952996808; 3210313671;
    3336571891; 3584528711; 113926993; 338241895;
    666307205; 773529912; 1294757372; 1396182291;
    1695183700; 1986661051; 2177026350; 2456956037;
    2730485921; 2820302411; 3259730800; 3345764771;
    3516065817; 3600352804; 4094571909; 275423344;
    430227734; 506948616; 659060556; 883997877;
    958139571; 1322822218; 1537002063; 1747873779;
    1955562222; 2024104815; 2227730452; 2361852424;
    2428436474; 2756734187; 3204031479; 3329325298 ].

Definition H0 : list Z :=
  [ 1779033703; 3144134277; 1013904242; 2773480762;
    1359893119; 2600822924; 528734635; 1541459225 ].

(** Big-endian bytes of [x], [n] of them. *)
Fixpoint be_bytes (n : nat) (x : Z) : list Z :=
  match n with
  | O => []
  | S n' => Z.land (Z.shiftr x (8 * Z.of_nat n')) 255 :: be_bytes n' x
  end.

(** Padding: the bit [1], zeros up to 56 modulo 64 bytes, the bit length. *)
Definition pad (msg : list Z) : list Z :=
  let len := Z.of_nat (List.length msg) in
  (msg ++ [128] ++ repeat 0 (Z.to_nat ((55 - len) mod 64)) ++ be_bytes 8 (8 * len))%list.

Fixpoint words_of_bytes (bs : list Z) : list Z :=
  match bs with
  | b0 :: b1 :: b2 :: b3 :: rest =>
    (Z.shiftl b0 24 + Z.shiftl b1 16 + Z.shiftl b2 8 + b3) :: words_of_bytes rest
  | _ => []
  end.

(** The message schedule, extended by [n] words. *)
Fixpoint schedule (n : nat) (w : list Z) : list Z :=
  match n with
  | O => w
  | S n' =>
    let i := List.length w in
    let at_ k := nth (i - k) w 0 in
    schedule n' (w ++ [add32 (add32 (add32 (ssig1 (at_ 2%nat)) (at_ 7%nat))
                                    (ssig0 (at_ 15%nat))) (at_ 16%nat)])%list
  end.

Definition state : Type := (Z * Z * Z * Z * Z * Z * Z * Z)%type.

Definition round (s : state) (kw : Z * Z) : state :=
  let '(a, b, c, d, e, f, g, h) := s in
  let t1 := add32 (add32 (add32 (add32 h (bsig1 e)) (ch e f g)) (fst kw)) (snd kw) in
  let t2 := add32 (bsig0 a) (maj a b c) in
  (add32 t1 t2, a, b, c, add32 d t1, e, f, g).

Definition compress (s : state) (block : list Z) : state :=
  let w := schedule 48 (words_of_bytes block) in
  let '(a, b, c, d, e, f, g, h) := fold_left round (combine K w) s in
  let '(a0, b0, c0, d0, e0, f0, g0, h0) := s in
  (add32 a0 a, add32 b0 b, add32 c0 c, add32 d0 d,
   add32 e0 e, add32 f0 f, add32 g0 g, add32 h0 h).

Fixpoint blocks (n : nat) (bs : list Z) : list (list Z) :=
  match n, bs with
  | S n', _ :: _ => firstn 64 bs :: blocks n' (skipn 64 bs)
  | _, _ => []
  end.

Definition init : state :=
  (1779033703, 3144134277, 1013904242, 2773480762,
   1359893119, 2600822924, 528734635, 1541459225).

Definition digest (msg : list Z) : list Z :=
  let p := pad msg in
  let '(a, b, c, d, e, f, g, h) := fold_left compress (blocks (List.length p) p) init in
  flat_map (be_bytes 4) [a; b; c; d; e; f; g; h].

Definition hex_digit (d : Z) : ascii :=
  ascii_of_N (Z.to_N (if d <? 10 then 48 + d else 87 + d)).

Fixpoint hex (bs : list Z) : string :=
  match bs with
  | [] => EmptyString
  | b :: rest => String (hex_digit (Z.shiftr b 4)) (String (hex_digit (Z.land b 15)) (hex rest))
  end.

(** [hashlib.sha256(data).hexdigest()]. *)
Definition hexdigest (data : list Z) : string := hex (digest data).

End Sha256.

(* ===================================================================== *)
(** * Flow fingerprint ([pcap_ingestion.py]) *)
(* ===================================================================== *)

Module Ingestion.

Local Open Scope float_scope.

(** A captured packet, as far as the fingerprint reads it: [len(pkt)], the
    wire length, and [pkt.time], the capture timestamp, which the capture
    reader gives as a decimal number of seconds with six fractional digits;
    [pkt_time] is that decimal in microseconds. *)
Record Packet := { pkt_len : nat; pkt_time : Z }.

(** [delta = float(packets[i].time - packets[i-1].time) * 1000]: the
    inter-arrival time in milliseconds, a [float].  The subtraction is on
    decimals and exact. *)
Definition delta_ms (prev cur : Packet) : float :=
  Py.float_of_decimal (pkt_time cur - pkt_time prev) 6 * 1000.

(** [int(delta)]. *)
Definition interarrival (prev cur : Packet) : option Z :=
  Py.int_of_float (delta_ms prev cur).

(** The body of [for i in range(1, min(len(packets), 20))], over the list
    of the indices still to visit; an index out of range is an
    [IndexError]. *)
Fixpoint times_loop (packets : list Packet) (idxs : list nat) : option (list Z) :=
  match idxs with
  | [] => Some []
  | i :: rest =>
    match nth_error packets i, nth_error packets (i - 1) with
    | Some cur, Some prev =>
      match interarrival prev cur with
      | Some d =>
        match times_loop packets rest with
        | Some ds => Some (d :: ds)
        | None => None
        end
      | None => None
      end
    | _, _ => None
    end
  end.

(** [f"sizes:{','.join(map(str, sizes))};times:{','.join(map(str, times))}"] *)
Definition fingerprint_str (sizes times : list Z) : string :=
  ("sizes:" ++ Py.join "," (map Py.str_of_int sizes) ++
   ";times:" ++ Py.join "," (map Py.str_of_int times))%string.

(** [hashlib.sha256(fingerprint_str.encode()).hexdigest()[:32]] *)
Definition hash32 (s : string) : string :=
  Py.str_take 32 (Sha256.hexdigest (Py.encode s)).

(** [PCAPIngestion.calculate_flow_fingerprint]; [None] is an exception
    raised by [int(delta)]. *)
Definition calculate_flow_fingerprint (packets : list Packet) : option string :=
  match packets with
  | [] => Some EmptyString
  | _ =>
    let sizes := map (fun pkt => Z.of_nat (pkt_len pkt)) (firstn 20 packets) in
    match
      (if Nat.ltb 1 (List.length packets)
       then times_loop packets (seq 1 (Nat.min (List.length packets) 20 - 1))
       else Some [])
    with
    | Some times => Some (hash32 (fingerprint_str sizes times))
    | None => None
    end
  end.

(** ** The fingerprint as the specification words it *)

(** The first 20 packets of the group, in capture order. *)
Definition window (packets : list Packet) : list Packet := firstn 20 packets.

(** The wire lengths of the window. *)
Definition window_sizes (packets : list Packet) : list Z :=
  map (fun pkt => Z.of_nat (pkt_len pkt)) (window packets).

(** [f] on each pair of successive elements. *)
Fixpoint successive {A B : Type} (f : A -> A -> B) (l : list A) : list B :=
  match l with
  | a :: (b :: _) as tl => f a b :: successive f tl
  | _ => []
  end.

(** All the results, or [None] when one is missing. *)
Fixpoint all_some {A : Type} (l : list (option A)) : option (list A) :=
  match l with
  | [] => Some []
  | Some a :: rest =>
    match all_some rest with Some r => Some (a :: r) | None => None end
  | None :: _ => None
  end.

(** The successive inter-arrival times over the window, truncated. *)
Definition window_times (packets : list Packet) : option (list Z) :=
  all_some (successive interarrival (window packets)).


End Ingestion.

(* ===================================================================== *)
(** * The tables ([database.py]) *)
(* ===================================================================== *)

Module Db.

(** A row of [network_flows], columns in schema order (the engine reads a
    row by position: 2 [timestamp], 4 [dst_ip], 9 [byte_count],
    12 [flow_fingerprint]).  A timestamp is in microseconds; a nullable
    column the engine computes with is an [option]. *)
Record Flow := {
  flow_id : Z;
  pcap_filename : string;
  timestamp : option Z;
  src_ip : string;
  dst_ip : string;
  src_port : Z;
  dst_port : Z;
  protocol : string;
  packet_count : Z;
  byte_count : option Z;
  duration_ms : Z;
  tcp_flags : string;
  flow_fingerprint : string
}.

(** A row of [tor_nodes] (the columns the engine reads). *)
Record TorNode := {
  fingerprint : string;
  nickname : string;
  ip_address : string;
  bandwidth_kb : option Z;
  country_code : string;
  last_seen : option Z;
  is_guard : bool;
  is_exit : bool;
  is_running : bool
}.

(** The [evidence] document of a correlation. *)
Record Evidence := {
  node_nickname : string;
  node_ip : string;
  node_country : string;
  exit_node_used : string;
  time_window_seconds : Z
}.

(** A row of [correlation_results] ([correlation_data] in the engine). *)
Record Correlation := {
  corr_flow_id : Z;
  candidate_node_fingerprint : string;
  confidence_score : float;
  temporal_score : float;
  bandwidth_score : float;
  pattern_score : float;
  evidence : Evidence
}.

Record Store := {
  network_flows : list Flow;
  tor_nodes : list TorNode;
  correlation_results : list Correlation
}.

(** The datastore and what is still to go wrong with it: the next
    statement fails exactly when the head of [faults] is [true]. *)
Record World := { store : Store; faults : list bool }.

(** A computation that may raise: [None] is a raised exception. *)
Definition M (A : Type) : Type := World -> option A * World.

Definition ret {A : Type} (a : A) : M A := fun w => (Some a, w).
Definition raise {A : Type} : M A := fun w => (None, w).
Definition bind {A B : Type} (m : M A) (k : A -> M B) : M B :=
  fun w => match m w with
           | (Some a, w') => k a w'
           | (None, w') => (None, w')
           end.
(** [try: m  except Exception: return a] *)
Definition try_except {A : Type} (m : M A) (a : A) : M A :=
  fun w => match m w with
           | (Some r, w') => (Some r, w')
           | (None, w') => (Some a, w')
           end.

(** One statement in its own connection ([with self.db.get_connection()]):
    run and committed, or failed, rolled back and re-raised. *)
Definition transaction {A : Type} (f : Store -> A * Store) : M A :=
  fun w =>
    match faults w with
    | true :: rest => (None, {| store := store w; faults := rest |})
    | false :: rest =>
      let (a, s') := f (store w) in (Some a, {| store := s'; faults := rest |})
    | [] =>
      let (a, s') := f (store w) in (Some a, {| store := s'; faults := [] |})
    end.

Definition query {A : Type} (q : Store -> A) : M A :=
  transaction (fun s => (q s, s)).

(** [SELECT * FROM network_flows WHERE flow_id = %s], [fetchone()] *)
Definition select_flow (id : Z) (s : Store) : option Flow :=
  find (fun f => Z.eqb (flow_id f) id) (network_flows s).

(** [SELECT ... FROM tor_nodes WHERE ip_address = %s AND is_exit = TRUE],
    [fetchone()] *)
Definition select_exit (addr : string) (s : Store) : option TorNode :=
  find (fun n => String.eqb (ip_address n) addr && is_exit n) (tor_nodes s).

(** [Database.get_guard_nodes(limit)]: [LIMIT] is added when [limit] is
    neither [None] nor [0]. *)
Definition select_guards (limit : option nat) (s : Store) : list TorNode :=
  let rows := filter (fun n => is_guard n && is_running n) (tor_nodes s) in
  match limit with
  | None | Some O => rows
  | Some n => firstn n rows
  end.

Definition get_guard_nodes (limit : option nat) : M (list TorNode) :=
  query (select_guards limit).

(** [Database.insert_correlation] *)
Definition insert_row (c : Correlation) (s : Store) : Store :=
  {| network_flows := network_flows s;
     tor_nodes := tor_nodes s;
     correlation_results := correlation_results s ++ [c] |}.

Definition insert_correlation (c : Correlation) : M unit :=
  transaction (fun s => (tt, insert_row c s)).

(** The store with [rows] appended to [correlation_results]. *)
Definition add_rows (rows : list Correlation) (s : Store) : Store :=
  {| network_flows := network_flows s;
     tor_nodes := tor_nodes s;
     correlation_results := correlation_results s ++ rows |}.

(** [SELECT flow_id FROM network_flows WHERE flow_id NOT IN
    (SELECT DISTINCT flow_id FROM correlation_results)] *)
Definition has_correlation (s : Store) (id : Z) : bool :=
  existsb (fun c => Z.eqb (corr_flow_id c) id) (correlation_results s).

Definition select_uncorrelated (s : Store) : list Z :=
  map flow_id (filter (fun f => negb (has_correlation s (flow_id f))) (network_flows s)).

End Db.

(* ===================================================================== *)
(** * The correlation engine ([correlation_engine.py]) *)
(* ===================================================================== *)

Module Engine.

Import Db.
Local Open Scope float_scope.

Notation "x <- m ;; k" := (bind m (fun x => k))
  (at level 61, m at next level, right associativity).

(** [config.py], the correlation settings. *)
Record Config := {
  TIME_WINDOW_SECONDS : Z;
  MIN_CONFIDENCE_THRESHOLD : float;
  MAX_CANDIDATE_NODES : nat
}.

Definition default_config : Config :=
  {| TIME_WINDOW_SECONDS := 300;
     MIN_CONFIDENCE_THRESHOLD := 0.3;
     MAX_CANDIDATE_NODES := 10 |}.

(** [abs((flow_timestamp - node_last_seen).total_seconds())]: the
    difference of two timestamps is a whole number of microseconds, and
    [total_seconds()] divides it by [10**6]. *)
Definition total_seconds (microseconds : Z) : option float :=
  Py.truediv microseconds 1000000.

(** The three branches of [calculate_temporal_score] on [time_diff]. *)
Definition temporal_decay (time_diff : float) : float :=
  if time_diff <=? 300 then 1
  else if time_diff <=? 3600 then 1 - (time_diff - 300) / 3300
  else Py.max 0.1 (1 - time_diff / 86400).

(** [CorrelationEngine.calculate_temporal_score]; a missing timestamp is a
    [TypeError], and any exception gives [0.0]. *)
Definition calculate_temporal_score (flow_timestamp node_last_seen : option Z) : float :=
  match flow_timestamp, node_last_seen with
  | Some t, Some l =>
    match total_seconds (t - l) with
    | Some d => temporal_decay (abs d)
    | None => 0
    end
  | _, _ => 0
  end.

(** The branches of [calculate_bandwidth_score] on [utilization]. *)
Definition bandwidth_of_utilization (utilization : float) : float :=
  if (0.1 <=? utilization) && (utilization <=? 0.8) then 1
  else if utilization <? 0.1 then utilization / 0.1
  else Py.max 0.2 (1 - (utilization - 0.8) / 0.2).

(** [CorrelationEngine.calculate_bandwidth_score]; a missing operand is a
    [TypeError], and any exception gives [0.0]. *)
Definition calculate_bandwidth_score (flow_byte_count node_bandwidth_kb : option Z) : float :=
  match node_bandwidth_kb with
  | None => 0
  | Some kb =>
    let node_bandwidth_bytes := (kb * 1024)%Z in
    if Z.eqb node_bandwidth_bytes 0 then 0.5
    else
      match flow_byte_count with
      | None => 0
      | Some bytes =>
        match Py.truediv bytes node_bandwidth_bytes with
        | Some utilization => bandwidth_of_utilization utilization
        | None => 0
        end
      end
  end.

(** [sum(1 for fp in historical_fingerprints if fp == flow_fingerprint)] *)
Definition count_matches (flow_fingerprint : string) (historical_fingerprints : list string) : nat :=
  List.length (filter (fun fp => String.eqb fp flow_fingerprint) historical_fingerprints).

(** [CorrelationEngine.calculate_pattern_score]; any exception gives [0.0]. *)
Definition calculate_pattern_score (flow_fingerprint : string)
    (historical_fingerprints : list string) : float :=
  match flow_fingerprint, historical_fingerprints with
  | EmptyString, _ | _, [] => 0.5
  | _, _ =>
    let matches := count_matches flow_fingerprint historical_fingerprints in
    if Nat.ltb 0 matches then
      match Py.float_of_int (Z.of_nat matches) with
      | Some m => Py.min 1 (0.5 + m * 0.1)
      | None => 0
      end
    else 0.3
  end.

(** The weighted confidence score, before rounding. *)
Definition weighted_confidence (temporal bandwidth pattern : float) : float :=
  temporal * 0.5 + bandwidth * 0.3 + pattern * 0.2.

(** The scores of one candidate node, in the order temporal, bandwidth,
    pattern; the engine passes [[]] as the historical fingerprints. *)
Definition scores (flow_timestamp byte_count : option Z) (flow_fingerprint : string)
    (node : TorNode) : float * float * float :=
  (calculate_temporal_score flow_timestamp (last_seen node),
   calculate_bandwidth_score byte_count (bandwidth_kb node),
   calculate_pattern_score flow_fingerprint []).

Definition correlation_data (cfg : Config) (id : Z) (flow_dst_ip : string)
    (node : TorNode) (sc : float * float * float) : Correlation :=
  let '(t, b, p) := sc in
  {| corr_flow_id := id;
     candidate_node_fingerprint := fingerprint node;
     confidence_score := Py.round (weighted_confidence t b p) 4;
     temporal_score := Py.round t 4;
     bandwidth_score := Py.round b 4;
     pattern_score := Py.round p 4;
     evidence := {| node_nickname := nickname node;
                    node_ip := ip_address node;
                    node_country := country_code node;
                    exit_node_used := flow_dst_ip;
                    time_window_seconds := TIME_WINDOW_SECONDS cfg |} |}.

(** [confidence_score >= self.config.MIN_CONFIDENCE_THRESHOLD] *)
Definition above_threshold (cfg : Config) (sc : float * float * float) : bool :=
  let '(t, b, p) := sc in
  MIN_CONFIDENCE_THRESHOLD cfg <=? weighted_confidence t b p.

(** The [for node in guard_nodes] loop: each candidate above the threshold
    is inserted, then appended to [correlations]. *)
Fixpoint guard_loop (cfg : Config) (id : Z) (flow_timestamp byte_count : option Z)
    (flow_fingerprint flow_dst_ip : string) (guard_nodes : list TorNode)
    (correlations : list Correlation) : M (list Correlation) :=
  match guard_nodes with
  | [] => ret correlations
  | node :: rest =>
    let sc := scores flow_timestamp byte_count flow_fingerprint node in
    if above_threshold cfg sc then
      let c := correlation_data cfg id flow_dst_ip node sc in
      _ <- insert_correlation c ;;
      guard_loop cfg id flow_timestamp byte_count flow_fingerprint flow_dst_ip rest
                 (correlations ++ [c])
    else
      guard_loop cfg id flow_timestamp byte_count flow_fingerprint flow_dst_ip rest
                 correlations
  end.

(** [correlations.sort(key=lambda x: x['confidence_score'], reverse=True)]:
    a stable sort, so rows of equal confidence keep their order. *)
Fixpoint insert_desc (c : Correlation) (sorted : list Correlation) : list Correlation :=
  match sorted with
  | [] => [c]
  | d :: rest =>
    if confidence_score c <? confidence_score d
    then d :: insert_desc c rest
    else c :: d :: rest
  end.

Definition sort_desc (l : list Correlation) : list Correlation :=
  fold_right insert_desc [] l.

(** The [try] block of [correlate_flow_to_guards]. *)
Definition correlate_body (cfg : Config) (id : Z) : M (list Correlation) :=
  flow <- query (select_flow id) ;;
  match flow with
  | None => ret []
  | Some flow =>
    let flow_timestamp := timestamp flow in
    let flow_dst_ip := dst_ip flow in
    let flow_byte_count := byte_count flow in
    let flow_fingerprint := flow_fingerprint flow in
    exit_node <- query (select_exit flow_dst_ip) ;;
    match exit_node with
    | None => ret []
    | Some _ =>
      (* flow_timestamp - timedelta(...): a TypeError on a missing timestamp *)
      _ <- (match flow_timestamp with Some _ => ret tt | None => raise end) ;;
      guard_nodes <- get_guard_nodes (Some 100%nat) ;;
      correlations <- guard_loop cfg id flow_timestamp flow_byte_count
                        flow_fingerprint flow_dst_ip guard_nodes [] ;;
      ret (firstn (MAX_CANDIDATE_NODES cfg) (sort_desc correlations))
    end
  end.

(** [CorrelationEngine.correlate_flow_to_guards]: any exception is logged
    and [[]] is returned. *)
Definition correlate_flow_to_guards (cfg : Config) (id : Z) : M (list Correlation) :=
  try_except (correlate_body cfg id) [].

(** The result of the batch pass: the two totals, or [{'error': ...}]. *)
Inductive BatchResult :=
| Totals (flows_processed total_correlations : nat)
| BatchError.

(** The [for flow_id in flow_ids] loop. *)
Fixpoint batch_loop (cfg : Config) (flow_ids : list Z) (total_correlations : nat) : M nat :=
  match flow_ids with
  | [] => ret total_correlations
  | id :: rest =>
    correlations <- correlate_flow_to_guards cfg id ;;
    batch_loop cfg rest (total_correlations + List.length correlations)
  end.

(** [CorrelationEngine.correlate_all_flows] *)
Definition correlate_all_flows (cfg : Config) : M BatchResult :=
  try_except
    (flow_ids <- query select_uncorrelated ;;
     total_correlations <- batch_loop cfg flow_ids 0 ;;
     ret (Totals (List.length flow_ids) total_correlations))
    BatchError.

(** ** The passes read off the tables

    What a pass over a datastore that never fails inserts, as a function of
    the tables: the statements below compare the engine with it. *)

(** The rows of the candidates above the threshold, in candidate order. *)
Definition kept_rows (cfg : Config) (id : Z) (flow : Flow)
    (guard_nodes : list TorNode) : list Correlation :=
  map (fun node =>
         correlation_data cfg id (dst_ip flow) node
           (scores (timestamp flow) (byte_count flow) (flow_fingerprint flow) node))
      (filter (fun node =>
                 above_threshold cfg
                   (scores (timestamp flow) (byte_count flow) (flow_fingerprint flow) node))
              guard_nodes).

(** The rows one flow gets: none unless the flow exists, its destination is
    a known exit and it has a timestamp. *)
Definition flow_rows (cfg : Config) (s : Store) (id : Z) : list Correlation :=
  match select_flow id s with
  | None => []
  | Some flow =>
    match select_exit (dst_ip flow) s, timestamp flow with
    | Some _, Some _ => kept_rows cfg id flow (select_guards (Some 100%nat) s)
    | _, _ => []
    end
  end.


(** What the caller of [correlate_flow_to_guards] gets. *)
Definition returned (cfg : Config) (id : Z) (w : World) : list Correlation :=
  match fst (correlate_flow_to_guards cfg id w) with
  | Some r => r
  | None => []
  end.

(** The rows of [correlation_results] that were not there before. *)
Definition new_rows (before after : Store) : list Correlation :=
  skipn (List.length (correlation_results before)) (correlation_results after).

(** What [correlate_flow_to_guards] leaves in [correlation_results]. *)
Definition persisted (cfg : Config) (id : Z) (w : World) : list Correlation :=
  new_rows (store w) (store (snd (correlate_flow_to_guards cfg id w))).

(** A datastore that never fails. *)
Definition reliable (s : Store) : World := {| store := s; faults := [] |}.

End Engine.

(* ===================================================================== *)
(** * The values and the order of binary64 numbers *)
(* ===================================================================== *)

(** What the proofs about [float] arithmetic are stated with: the real
    value of a number, the order it induces, and what it means for a number
    to be a rounding of a real. *)
Module Binary64.

(** A shift record is inexact when a non-zero bit was shifted out. *)
Definition inexact (mrs : shr_record) : bool := shr_r mrs || shr_s mrs.

(** [mrs'] is [mrs] shifted right by [n] bits. *)
Definition shifted (n : Z) (mrs mrs' : shr_record) : Prop :=
  (shr_m mrs' = shr_m mrs / 2 ^ n)%Z /\
  inexact mrs' = inexact mrs || negb (shr_m mrs mod 2 ^ n =? 0)%Z.

Definition bpow (e : Z) : R := powerRZ 2 e.

(** The value of a finite number; [0] otherwise. *)
Definition F2R (f : spec_float) : R :=
  match f with
  | S754_finite s m e => (IZR (cond_Zopp s (Z.pos m)) * bpow e)%R
  | _ => 0%R
  end.

Definition is_finite_SF (f : spec_float) : bool :=
  match f with
  | S754_finite _ _ _ | S754_zero _ => true
  | _ => false
  end.

Definition loc_inexact (l : location) : bool :=
  match l with loc_Exact => false | _ => true end.

(** [x] lies in [[m * 2^e, (m + 1) * 2^e)], and on its left end exactly
    when [inex] is [false]. *)
Definition located (x : R) (m e : Z) (inex : bool) : Prop :=
  (IZR m * bpow e <= x < IZR (m + 1) * bpow e)%R /\
  (inex = false -> x = (IZR m * bpow e)%R) /\
  (inex = true -> (IZR m * bpow e < x)%R).

Definition cmp_holds (c : comparison) (x y : R) : Prop :=
  match c with Lt => (x < y)%R | Eq => x = y | Gt => (x > y)%R end.

(** [r] is a rounding of the real [x]: no representable number lies
    strictly between them. *)
Definition Rnd (x : R) (r : spec_float) : Prop :=
  valid_binary r = true /\
  forall c, valid_binary c = true -> is_finite_SF c = true ->
    ((x <= F2R c)%R -> SFleb r c = true) /\ ((F2R c <= x)%R -> SFleb c r = true).

(** The position of a number on the real line, the infinities placed
    beyond every finite number. *)
Definition ord (f : spec_float) : R :=
  match f with
  | S754_infinity false => bpow 1024
  | S754_infinity true => (- bpow 1024)%R
  | _ => F2R f
  end.

Definition not_nan (f : spec_float) : bool :=
  match f with S754_nan => false | _ => true end.

(** The same on primitive floats. *)
Definition B2R (f : float) : R := ord (Prim2SF f).
Definition finite (f : float) : bool := is_finite_SF (Prim2SF f).
Definition number (f : float) : bool := not_nan (Prim2SF f).

(** The value of a finite number as a fraction. *)
Definition numerator (s : bool) (m : positive) (e : Z) : Z :=
  (cond_Zopp s (Z.pos m) * 2 ^ Z.max e 0)%Z.
Definition denominator (e : Z) : Z := (2 ^ Z.max (- e) 0)%Z.

End Binary64.


(* ===================================================================== *)
(** * A small datastore to run the engine on *)
(* ===================================================================== *)

Module Examples.

Import Db Engine.
Local Open Scope string_scope.
Local Open Scope Z_scope.

Definition seconds (n : Z) : Z := n * 1000000.

Definition capture_time : Z := seconds 1700000000.

Definition flow (id : Z) (dst : string) : Flow :=
  {| flow_id := id;
     pcap_filename := "capture.pcap";
     timestamp := Some capture_time;
     src_ip := "192.0.2.10";
     dst_ip := dst;
     src_port := 50000;
     dst_port := 443;
     protocol := "TCP";
     packet_count := 12;
     byte_count := Some 9216;
     duration_ms := 40;
     tcp_flags := "SA";
     flow_fingerprint := "c717d076834801cbd716494544f59522" |}.

Definition exit_node : TorNode :=
  {| fingerprint := "EXIT";
     nickname := "exit";
     ip_address := "198.51.100.7";
     bandwidth_kb := Some 4096;
     country_code := "NL";
     last_seen := Some capture_time;
     is_guard := false;
     is_exit := true;
     is_running := true |}.

(** A running guard of 18 KB/s last seen [300 + 300 * k] seconds before
    the capture. *)
Definition guard (k : Z) (name : string) : TorNode :=
  {| fingerprint := name;
     nickname := name;
     ip_address := "203.0.113.1";
     bandwidth_kb := Some 18;
     country_code := "DE";
     last_seen := Some (capture_time - seconds (300 + 300 * k));
     is_guard := true;
     is_exit := false;
     is_running := true |}.

(** Eleven guards, the stalest first. *)
Definition guards : list TorNode :=
  [ guard 10 "G10"; guard 9 "G09"; guard 8 "G08"; guard 7 "G07";
    guard 6 "G06"; guard 5 "G05"; guard 4 "G04"; guard 3 "G03";
    guard 2 "G02"; guard 1 "G01"; guard 0 "G00" ].

(** Flow 1 goes to the exit node, flow 2 does not. *)
Definition example_store : Store :=
  {| network_flows := [ flow 1 "198.51.100.7"; flow 2 "192.0.2.99" ];
     tor_nodes := exit_node :: guards;
     correlation_results := [] |}.

(** The per-flow pass on flow 1 runs three queries and then an insert for
    each guard: here the second insert fails. *)
Definition failing_second_insert : World :=
  {| store := example_store;
     faults := [false; false; false; false; true] |}.

(** The same failure during the batch pass, which starts with a query of
    its own. *)
Definition failing_batch : World :=
  {| store := example_store;
     faults := [false; false; false; false; false; true] |}.

End Examples.

(* ===================================================================== *)
(** * More rows to run the engine on *)
(* ===================================================================== *)

Module Cases.

Import Db Engine.
Local Open Scope string_scope.
Local Open Scope Z_scope.

(** A flow to the exit node of the example datastore whose [timestamp]
    column is NULL. *)
Definition undated_flow : Flow :=
  {| flow_id := 3;
     pcap_filename := "capture.pcap";
     timestamp := None;
     src_ip := "192.0.2.10";
     dst_ip := "198.51.100.7";
     src_port := 50001;
     dst_port := 443;
     protocol := "TCP";
     packet_count := 3;
     byte_count := Some 9216;
     duration_ms := 5;
     tcp_flags := "S";
     flow_fingerprint := "" |}.

Definition undated_store : Store :=
  {| network_flows := [ undated_flow ];
     tor_nodes := Examples.exit_node :: Examples.guards;
     correlation_results := [] |}.

End Cases.

(* ===================================================================== *)
(** * The node directory ([Database.insert_tor_node]) *)
(* ===================================================================== *)

Module Directory.

Local Open Scope string_scope.
Local Open Scope Z_scope.

(** A row of [tor_nodes] with all its columns, which are also the keys of
    the [node_data] given to [insert_tor_node].  [fingerprint] is the
    primary key; a column that may be NULL is an [option]; a timestamp is
    in microseconds. *)
Record NodeRow := {
  fingerprint : string;
  nickname : option string;
  ip_address : option string;
  or_port : option Z;
  dir_port : option Z;
  flags : list string;
  bandwidth_kb : option Z;
  consensus_weight : option Z;
  country_code : option string;
  first_seen : option Z;
  last_seen : option Z;
  is_guard : bool;
  is_exit : bool;
  is_running : bool
}.

(** [ON CONFLICT (fingerprint) DO UPDATE SET nickname = EXCLUDED.nickname,
    last_seen = EXCLUDED.last_seen, flags = EXCLUDED.flags,
    bandwidth_kb = EXCLUDED.bandwidth_kb, is_running = EXCLUDED.is_running]:
    the row in conflict takes these five columns from the proposed row and
    keeps the others. *)
Definition do_update (existing excluded : NodeRow) : NodeRow :=
  {| fingerprint := fingerprint existing;
     nickname := nickname excluded;
     ip_address := ip_address existing;
     or_port := or_port existing;
     dir_port := dir_port existing;
     flags := flags excluded;
     bandwidth_kb := bandwidth_kb excluded;
     consensus_weight := consensus_weight existing;
     country_code := country_code existing;
     first_seen := first_seen existing;
     last_seen := last_seen excluded;
     is_guard := is_guard existing;
     is_exit := is_exit existing;
     is_running := is_running excluded |}.

(** [Database.insert_tor_node], as the statement changes the table when it
    commits: the row is inserted, or on a row with the same fingerprint
    the update above is done. *)
Fixpoint insert_tor_node (node_data : NodeRow) (tor_nodes : list NodeRow) : list NodeRow :=
  match tor_nodes with
  | [] => [node_data]
  | row :: rest =>
    if String.eqb (fingerprint row) (fingerprint node_data)
    then do_update row node_data :: rest
    else row :: insert_tor_node node_data rest
  end.

(** [SELECT * FROM tor_nodes WHERE fingerprint = fp]. *)
Definition lookup (fp : string) (tor_nodes : list NodeRow) : option NodeRow :=
  find (fun row => String.eqb (fingerprint row) fp) tor_nodes.

(** A relay as the consensus lists it, with the Guard flag... *)
Definition seen_first : NodeRow :=
  {| fingerprint := "9695DFC35FFEB861329B9F1AB04C46397020CE31";
     nickname := Some "moria1";
     ip_address := Some "128.31.0.39";
     or_port := Some 9101;
     dir_port := Some 9131;
     flags := ["Running"; "Valid"];
     bandwidth_kb := Some 512;
     consensus_weight := Some 0;
     country_code := None;
     first_seen := Some 1700000000000000;
     last_seen := Some 1700000000000000;
     is_guard := false;
     is_exit := false;
     is_running := true |}.

(** ... and the same relay an hour later, now a guard, with its country
    and its consensus weight. *)
Definition seen_again : NodeRow :=
  {| fingerprint := "9695DFC35FFEB861329B9F1AB04C46397020CE31";
     nickname := Some "moria1";
     ip_address := Some "128.31.0.39";
     or_port := Some 9101;
     dir_port := Some 9131;
     flags := ["Guard"; "Running"; "Valid"];
     bandwidth_kb := Some 640;
     consensus_weight := Some 20;
     country_code := Some "us";
     first_seen := Some 1600000000000000;
     last_seen := Some 1700003600000000;
     is_guard := true;
     is_exit := false;
     is_running := true |}.

End Directory.

(* ===================================================================== *)
(** * Flow extraction ([PCAPIngestion.extract_flows]) *)
(* ===================================================================== *)

Module Capture.

Local Open Scope string_scope.
Local Open Scope Z_scope.

(** What [extract_flows] reads of the transport layer of a packet: the TCP
    layer if there is one ([haslayer(TCP)]), else the UDP layer if there is
    one, with the ports, and for TCP [str(tcp_layer.flags)]. *)
Inductive Transport :=
| TCP (sport dport : Z) (flags : string)
| UDP (sport dport : Z)
| NoTransport.

(** A packet of the capture: its length and time as the fingerprint reads
    them, the source and destination of its IP layer ([None] when
    [haslayer(IP)] is false) and its transport layer. *)
Record Frame := {
  packet : Ingestion.Packet;
  ip : option (string * string);
  transport : Transport
}.

(** [flow_key = (src_ip, dst_ip, src_port, dst_port, protocol)] *)
Definition FlowKey : Type := (string * string * Z * Z * string)%type.

Definition key_eqb (a b : FlowKey) : bool :=
  let '(src1, dst1, sport1, dport1, proto1) := a in
  let '(src2, dst2, sport2, dport2, proto2) := b in
  String.eqb src1 src2 && String.eqb dst1 dst2 &&
  Z.eqb sport1 sport2 && Z.eqb dport1 dport2 && String.eqb proto1 proto2.

(** The value of [flows[flow_key]]. *)
Record FlowData := {
  packets : list Frame;
  start_time : float;
  end_time : float;
  byte_count : Z;
  tcp_flags : string
}.

(** The dictionary [flows], in insertion order (the order [items()]
    gives). *)
Definition Flows : Type := list (FlowKey * FlowData).

(** [flow_key in flows] *)
Definition contains (k : FlowKey) (flows : Flows) : bool :=
  existsb (fun e => key_eqb (fst e) k) flows.

(** [flows[flow_key]] *)
Definition get (k : FlowKey) (flows : Flows) : option FlowData :=
  option_map snd (find (fun e => key_eqb (fst e) k) flows).

(** An update in place of [flows[flow_key]], which is there. *)
Fixpoint modify (k : FlowKey) (f : FlowData -> FlowData) (flows : Flows) : Flows :=
  match flows with
  | [] => []
  | (k', d) :: rest =>
    if key_eqb k' k then (k', f d) :: rest else (k', d) :: modify k f rest
  end.

(** [float(pkt.time)] and [len(pkt)]. *)
Definition float_time (pkt : Frame) : float :=
  Py.float_of_decimal (Ingestion.pkt_time (packet pkt)) 6.
Definition len (pkt : Frame) : Z := Z.of_nat (Ingestion.pkt_len (packet pkt)).

(** The flow key of a packet and the [tcp_flags] a new flow takes from it;
    [None] for a packet without IP layer, which the loop skips. *)
Definition key_of (pkt : Frame) : option (FlowKey * string) :=
  match ip pkt with
  | None => None
  | Some (src_ip, dst_ip) =>
    match transport pkt with
    | TCP sport dport flags => Some ((src_ip, dst_ip, sport, dport, "TCP"), flags)
    | UDP sport dport => Some ((src_ip, dst_ip, sport, dport, "UDP"), "--")
    | NoTransport => Some ((src_ip, dst_ip, 0, 0, "OTHER"), "")
    end
  end.

(** The body of [for pkt in packets]. *)
Definition add_packet (flows : Flows) (pkt : Frame) : Flows :=
  match key_of pkt with
  | None => flows
  | Some (flow_key, flags) =>
    let flows :=
      if contains flow_key flows then flows
      else (flows ++ [(flow_key,
                       {| packets := [];
                          start_time := float_time pkt;
                          end_time := float_time pkt;
                          byte_count := 0;
                          tcp_flags := flags |})])%list in
    let flows :=
      modify flow_key
        (fun d => {| packets := (packets d ++ [pkt])%list;
                     start_time := start_time d;
                     end_time := end_time d;
                     byte_count := byte_count d;
                     tcp_flags := tcp_flags d |}) flows in
    let flows :=
      modify flow_key
        (fun d => {| packets := packets d;
                     start_time := start_time d;
                     end_time := float_time pkt;
                     byte_count := byte_count d;
                     tcp_flags := tcp_flags d |}) flows in
    modify flow_key
      (fun d => {| packets := packets d;
                   start_time := start_time d;
                   end_time := end_time d;
                   byte_count := byte_count d + len pkt;
                   tcp_flags := tcp_flags d |}) flows
  end.

(** The first loop of [extract_flows]. *)
Definition group_flows (capture : list Frame) : Flows :=
  fold_left add_packet capture [].




(** ** The flows read off the capture *)

(** [pkt.haslayer(IP)] *)
Definition has_ip (pkt : Frame) : bool :=
  match ip pkt with Some _ => true | None => false end.

(** Whether a packet has the flow key [k]. *)
Definition in_flow (k : FlowKey) (pkt : Frame) : bool :=
  match key_of pkt with
  | Some (k', _) => key_eqb k' k
  | None => false
  end.

(** The flow keys of the packets with an IP layer, in capture order. *)
Definition keys (capture : list Frame) : list FlowKey :=
  flat_map (fun pkt => match key_of pkt with Some (k, _) => [k] | None => [] end) capture.

(** The distinct keys, in the order of their first occurrence. *)
Definition first_occurrences (ks : list FlowKey) : list FlowKey :=
  fold_left (fun acc k => if existsb (fun k' => key_eqb k' k) acc then acc
                          else (acc ++ [k])%list) ks [].

(** The flow of key [k]: its packets in capture order, the times of the
    first and of the last of them, their lengths summed, and the flags of
    the first. *)
Definition flow_of (k : FlowKey) (capture : list Frame) : FlowData :=
  let mine := filter (in_flow k) capture in
  {| packets := mine;
     start_time := match mine with pkt :: _ => float_time pkt | [] => 0%float end;
     end_time := match rev mine with pkt :: _ => float_time pkt | [] => 0%float end;
     byte_count := fold_right (fun pkt n => len pkt + n) 0 mine;
     tcp_flags := match mine with
                  | pkt :: _ => match key_of pkt with Some (_, flags) => flags | None => "" end
                  | [] => ""
                  end |}.

(** A TCP exchange of four packets, a DNS query, and an ARP frame. *)
Definition frame (size : nat) (time : Z) (src dst : string) (l4 : Transport) : Frame :=
  {| packet := {| Ingestion.pkt_len := size; Ingestion.pkt_time := time |};
     ip := Some (src, dst);
     transport := l4 |}.

Definition example_capture : list Frame :=
  [ frame 74 1700000000000000 "10.0.0.5" "198.51.100.7" (TCP 50000 443 "S");
    frame 74 1700000000020000 "198.51.100.7" "10.0.0.5" (TCP 443 50000 "SA");
    {| packet := {| Ingestion.pkt_len := 42; Ingestion.pkt_time := 1700000000025000 |};
       ip := None; transport := NoTransport |};
    frame 66 1700000000040000 "10.0.0.5" "198.51.100.7" (TCP 50000 443 "A");
    frame 80 1700000000050000 "10.0.0.5" "10.0.0.1" (UDP 53001 53);
    frame 583 1700000000061001 "10.0.0.5" "198.51.100.7" (TCP 50000 443 "PA") ].

End Capture.

(* ===================================================================== *)
(** * The queries of the reports ([database.py]) *)
(* ===================================================================== *)

Module Report.

Import Db Engine.
Local Open Scope float_scope.

(** A row of [correlation_results cr JOIN network_flows nf ON cr.flow_id =
    nf.flow_id JOIN tor_nodes tn ON cr.candidate_node_fingerprint =
    tn.fingerprint]: the three rows it is made of. *)
Definition Joined : Type := (Correlation * Flow * TorNode)%type.

Definition correlation_of (row : Joined) : Correlation := fst (fst row).
Definition flow_of (row : Joined) : Flow := snd (fst row).
Definition node_of (row : Joined) : TorNode := snd row.

Definition join (s : Store) : list Joined :=
  flat_map
    (fun cr =>
       flat_map
         (fun nf =>
            if Z.eqb (corr_flow_id cr) (flow_id nf) then
              flat_map
                (fun tn =>
                   if String.eqb (candidate_node_fingerprint cr) (fingerprint tn)
                   then [(cr, nf, tn)] else [])
                (tor_nodes s)
            else [])
         (network_flows s))
    (correlation_results s).

(** [ORDER BY cr.confidence_score DESC]; rows of equal confidence come in
    an order the database chooses, here the order of the join. *)
Fixpoint insert_joined (row : Joined) (sorted : list Joined) : list Joined :=
  match sorted with
  | [] => [row]
  | d :: rest =>
    if confidence_score (correlation_of row) <? confidence_score (correlation_of d)
    then d :: insert_joined row rest
    else row :: d :: rest
  end.

Definition order_by_confidence (rows : list Joined) : list Joined :=
  fold_right insert_joined [] rows.

(** The query of [get_top_correlations], with [LIMIT limit]. *)
Definition top_correlations (limit : nat) (s : Store) : list Joined :=
  firstn limit (order_by_confidence (join s)).



(** [ORDER BY timestamp] on flows that have one. *)
Fixpoint insert_flow_by_time (f : Flow) (sorted : list Flow) : list Flow :=
  match sorted with
  | [] => [f]
  | g :: rest =>
    match timestamp f, timestamp g with
    | Some t, Some u => if Z.ltb u t then g :: insert_flow_by_time f rest
                        else f :: g :: rest
    | _, _ => f :: g :: rest
    end
  end.

(** The query of [get_flows_by_timerange]: [WHERE timestamp BETWEEN
    start_time AND end_time ORDER BY timestamp]; a NULL timestamp is not
    between anything. *)
Definition flows_by_timerange (start_time end_time : Z) (s : Store) : list Flow :=
  fold_right insert_flow_by_time []
    (filter (fun f => match timestamp f with
                      | Some t => Z.leb start_time t && Z.leb t end_time
                      | None => false
                      end)
            (network_flows s)).

(** [Database.get_flows_by_timerange] *)
Definition get_flows_by_timerange (start_time end_time : Z) : M (list Flow) :=
  query (flows_by_timerange start_time end_time).

End Report.

(** * The text that is hashed

    Vocabulary for reading back the text that
    [calculate_flow_fingerprint] builds before hashing it. *)

Module Text.


(** [c] is a character of [s]. *)
Fixpoint occurs (c : ascii) (s : string) : Prop :=
  match s with
  | EmptyString => False
  | String a s' => a = c \/ occurs c s'
  end.

(** A string that holds neither of the two separators of the fingerprint
    text. *)
Definition plain (s : string) : Prop :=
  ~ occurs ","%char s /\ ~ occurs ";"%char s.

(** A string that is empty or starts with one of the two separators. *)
Definition at_separator (s : string) : Prop :=
  match s with
  | EmptyString => True
  | String a _ => a = ","%char \/ a = ";"%char
  end.

(** What [join] puts after the first part. *)
Fixpoint join_rest (sep : string) (parts : list string) : string :=
  match parts with
  | [] => EmptyString
  | s :: rest => (sep ++ s ++ join_rest sep rest)%string
  end.

End Text.
(* ===================================================================== *)
(** * Rounding: every binary64 operation stays between the representable
      bounds of its exact result *)
(* ===================================================================== *)

Module Rounding.

Import Binary64.

Local Open Scope Z_scope.

(** ** Binary digits *)

Lemma digits2_bounds (p : positive) :
  2 ^ (Z.pos (digits2_pos p) - 1) <= Z.pos p < 2 ^ Z.pos (digits2_pos p).
Proof.
  induction p as [p IH|p IH|]; cbn [digits2_pos].
  - rewrite Pos2Z.inj_succ.
    replace (Z.succ (Z.pos (digits2_pos p)) - 1) with (Z.succ (Z.pos (digits2_pos p) - 1)) by lia.
    rewrite !Z.pow_succ_r by lia. lia.
  - rewrite Pos2Z.inj_succ.
    replace (Z.succ (Z.pos (digits2_pos p)) - 1) with (Z.succ (Z.pos (digits2_pos p) - 1)) by lia.
    rewrite !Z.pow_succ_r by lia. lia.
  - cbn. lia.
Qed.

Lemma Zdigits2_nonneg (m : Z) : 0 <= Zdigits2 m.
Proof. destruct m; cbn; lia. Qed.

Lemma Zdigits2_bounds (m : Z) :
  0 < m -> 2 ^ (Zdigits2 m - 1) <= m < 2 ^ Zdigits2 m.
Proof. destruct m as [|p|p]; try lia. intros _. apply digits2_bounds. Qed.

(** [m < 2^k] bounds the digits of [m], and [2^k <= m] is a lower bound. *)
Lemma Zdigits2_le (m k : Z) : 0 <= m -> 0 <= k -> m < 2 ^ k -> Zdigits2 m <= k.
Proof.
  intros Hm Hk H. destruct (Z.eq_dec m 0) as [->|Hn]; [cbn; lia|].
  destruct (Zdigits2_bounds m ltac:(lia)) as [Hlo _].
  destruct (Z_le_gt_dec (Zdigits2 m) k) as [|Hgt]; [assumption|exfalso].
  assert (2 ^ k <= 2 ^ (Zdigits2 m - 1)) by (apply Z.pow_le_mono_r; lia).
  lia.
Qed.

Lemma Zdigits2_ge (m k : Z) : 0 <= k -> 2 ^ k <= m -> k + 1 <= Zdigits2 m.
Proof.
  intros Hk H.
  assert (0 < 2 ^ k) by (apply Z.pow_pos_nonneg; lia).
  destruct (Zdigits2_bounds m ltac:(lia)) as [_ Hhi].
  destruct (Z_le_gt_dec (k + 1) (Zdigits2 m)) as [|Hgt]; [assumption|exfalso].
  assert (2 ^ Zdigits2 m <= 2 ^ k) by (apply Z.pow_le_mono_r; lia).
  lia.
Qed.

(** ** Right shifts with round and sticky bits *)

Lemma shr_1_shifted (mrs : shr_record) :
  0 <= shr_m mrs -> shifted 1 mrs (shr_1 mrs).
Proof.
  destruct mrs as [m r s]. cbn [shr_m]. intros Hm. unfold shifted, inexact.
  change (2 ^ 1) with 2.
  destruct m as [|[p|p|]|p]; cbn [shr_1 shr_m shr_r shr_s]; try lia.
  - split; [reflexivity|]. cbn. now rewrite orb_false_r, orb_comm.
  - split.
    + rewrite Pos2Z.inj_xI. apply Z.div_unique with 1; lia.
    + replace (Z.pos p~1 mod 2) with 1.
      * cbn. now rewrite orb_true_r.
      * rewrite Pos2Z.inj_xI. apply Z.mod_unique with (Z.pos p); lia.
  - split.
    + rewrite Pos2Z.inj_xO. apply Z.div_unique with 0; lia.
    + replace (Z.pos p~0 mod 2) with 0.
      * cbn. now rewrite orb_false_r, orb_comm.
      * rewrite Pos2Z.inj_xO. apply Z.mod_unique with (Z.pos p); lia.
  - split; [reflexivity|]. cbn. now rewrite orb_true_r.
Qed.

Lemma shifted_nonneg (n : Z) (mrs mrs' : shr_record) :
  0 <= n -> 0 <= shr_m mrs -> shifted n mrs mrs' -> 0 <= shr_m mrs'.
Proof.
  intros Hn Hm [H _]. rewrite H. apply Z.div_pos; [assumption|].
  apply Z.pow_pos_nonneg; lia.
Qed.

Lemma shifted_trans (a b : Z) (x y z : shr_record) :
  0 <= a -> 0 <= b -> 0 <= shr_m x ->
  shifted a x y -> shifted b y z -> shifted (a + b) x z.
Proof.
  intros Ha Hb Hx [Hm1 Hi1] [Hm2 Hi2].
  assert (Hpa : 0 < 2 ^ a) by (apply Z.pow_pos_nonneg; lia).
  assert (Hpb : 0 < 2 ^ b) by (apply Z.pow_pos_nonneg; lia).
  split.
  - rewrite Hm2, Hm1, Z.pow_add_r, Z.div_div by lia. reflexivity.
  - rewrite Hi2, Hi1, Hm1, Z.pow_add_r by lia.
    rewrite Z.rem_mul_r by lia.
    rewrite <- orb_assoc. f_equal.
    pose proof (Z.mod_pos_bound (shr_m x) (2 ^ a) Hpa).
    pose proof (Z.mod_pos_bound (shr_m x / 2 ^ a) (2 ^ b) Hpb).
    destruct (Z.eqb_spec (shr_m x mod 2 ^ a) 0) as [E1|E1];
    destruct (Z.eqb_spec ((shr_m x / 2 ^ a) mod 2 ^ b) 0) as [E2|E2];
    cbn [negb orb].
    + rewrite E1, E2. now rewrite Z.mul_0_r.
    + symmetry. apply negb_true_iff, Z.eqb_neq. nia.
    + symmetry. apply negb_true_iff, Z.eqb_neq. nia.
    + symmetry. apply negb_true_iff, Z.eqb_neq. nia.
Qed.

Lemma iter_shr_1_shifted (p : positive) :
  forall mrs, 0 <= shr_m mrs -> shifted (Z.pos p) mrs (SpecFloat.iter_pos shr_1 p mrs).
Proof.
  induction p as [p IH|p IH|]; intros mrs Hm; cbn [SpecFloat.iter_pos].
  - pose proof (shr_1_shifted mrs Hm) as H1.
    pose proof (shifted_nonneg 1 _ _ ltac:(lia) Hm H1) as Hm1.
    pose proof (IH _ Hm1) as H2.
    pose proof (shifted_nonneg (Z.pos p) _ _ ltac:(lia) Hm1 H2) as Hm2.
    pose proof (IH _ Hm2) as H3.
    pose proof (shifted_trans 1 (Z.pos p) _ _ _ ltac:(lia) ltac:(lia) Hm H1 H2) as H12.
    pose proof (shifted_trans (1 + Z.pos p) (Z.pos p) _ _ _ ltac:(lia) ltac:(lia) Hm H12 H3) as H123.
    replace (Z.pos p~1) with (1 + Z.pos p + Z.pos p) by lia. exact H123.
  - pose proof (IH _ Hm) as H2.
    pose proof (shifted_nonneg (Z.pos p) _ _ ltac:(lia) Hm H2) as Hm2.
    pose proof (IH _ Hm2) as H3.
    pose proof (shifted_trans (Z.pos p) (Z.pos p) _ _ _ ltac:(lia) ltac:(lia) Hm H2 H3) as H23.
    replace (Z.pos p~0) with (Z.pos p + Z.pos p) by lia. exact H23.
  - now apply shr_1_shifted.
Qed.


(** ** Real values *)

Local Open Scope R_scope.

Lemma bpow_gt_0 (e : Z) : 0 < bpow e.
Proof. apply powerRZ_lt. lra. Qed.

Lemma bpow_add (a b : Z) : bpow (a + b) = bpow a * bpow b.
Proof. apply powerRZ_add. lra. Qed.

Lemma bpow_IZR (k : Z) : (0 <= k)%Z -> bpow k = IZR (2 ^ k).
Proof.
  intros Hk. unfold bpow.
  rewrite <- (Z2Nat.id k Hk) at 1. rewrite <- pow_powerRZ.
  rewrite pow_IZR. now rewrite Z2Nat.id.
Qed.

Lemma bpow_ge_1 (k : Z) : (0 <= k)%Z -> 1 <= bpow k.
Proof.
  intros Hk. rewrite bpow_IZR by assumption. apply IZR_le.
  assert (0 < 2 ^ k)%Z by (apply Z.pow_pos_nonneg; lia). lia.
Qed.

Lemma bpow_le (a b : Z) : (a <= b)%Z -> bpow a <= bpow b.
Proof.
  intros H. replace b with (a + (b - a))%Z by lia. rewrite bpow_add.
  pose proof (bpow_gt_0 a). pose proof (bpow_ge_1 (b - a) ltac:(lia)). nra.
Qed.

Lemma bpow_lt (a b : Z) : (a < b)%Z -> bpow a < bpow b.
Proof.
  intros H. replace b with (a + (b - a))%Z by lia. rewrite bpow_add.
  pose proof (bpow_gt_0 a).
  assert (2 <= bpow (b - a)).
  { rewrite bpow_IZR by lia. apply IZR_le.
    replace (b - a)%Z with (Z.succ (b - a - 1)) by lia.
    rewrite Z.pow_succ_r by lia.
    assert (0 < 2 ^ (b - a - 1))%Z by (apply Z.pow_pos_nonneg; lia). lia. }
  nra.
Qed.

Lemma bpow_lt_inv (a b : Z) : bpow a < bpow b -> (a < b)%Z.
Proof.
  intros H. destruct (Z_lt_le_dec a b) as [|Hle]; [assumption|].
  apply bpow_le in Hle. lra.
Qed.

Lemma fexp_eq (k : Z) : fexp prec emax k = Z.max (k - 53) (-1074).
Proof. reflexivity. Qed.

Lemma mantissa_bounds (m : Z) (e : Z) :
  (0 < m)%Z ->
  bpow (Zdigits2 m + e - 1) <= IZR m * bpow e < bpow (Zdigits2 m + e).
Proof.
  intros Hm. destruct (Zdigits2_bounds m Hm) as [Hlo Hhi].
  pose proof (Zdigits2_nonneg m) as Hd.
  assert (Hd1 : (1 <= Zdigits2 m)%Z).
  { destruct m; cbn in *; lia. }
  pose proof (bpow_gt_0 e) as He.
  replace (Zdigits2 m + e - 1)%Z with ((Zdigits2 m - 1) + e)%Z by lia.
  rewrite !bpow_add.
  rewrite (bpow_IZR (Zdigits2 m - 1)), (bpow_IZR (Zdigits2 m)) by lia.
  apply IZR_le in Hlo. apply IZR_lt in Hhi. nra.
Qed.

Lemma shifted_located (x : R) (n e : Z) (mrs mrs' : shr_record) :
  (0 <= n)%Z -> (0 <= shr_m mrs)%Z ->
  located x (shr_m mrs) e (inexact mrs) ->
  shifted n mrs mrs' ->
  located x (shr_m mrs') (e + n) (inexact mrs').
Proof.
  intros Hn Hm [[Hlo Hhi] [Hex Hin]] [Hm' Hi'].
  assert (Hp : (0 < 2 ^ n)%Z) by (apply Z.pow_pos_nonneg; lia).
  pose proof (Z.div_mod (shr_m mrs) (2 ^ n) ltac:(lia)) as Hdm.
  pose proof (Z.mod_pos_bound (shr_m mrs) (2 ^ n) Hp) as Hr.
  rewrite <- Hm' in Hdm.
  set (m := shr_m mrs) in *. set (m' := shr_m mrs') in *.
  set (r := (m mod 2 ^ n)%Z) in *.
  pose proof (bpow_gt_0 e) as He.
  unfold located.
  rewrite (Z.add_comm e n), bpow_add, (bpow_IZR n) by lia.
  assert (Em : IZR m = IZR (2 ^ n) * IZR m' + IZR r).
  { rewrite <- mult_IZR, <- plus_IZR. now f_equal. }
  assert (Hr0 : 0 <= IZR r) by (apply IZR_le; lia).
  assert (Hr1 : IZR r + 1 <= IZR (2 ^ n)).
  { rewrite <- plus_IZR. apply IZR_le. lia. }
  rewrite plus_IZR in Hhi |- *.
  split; [split|split].
  - nra.
  - nra.
  - intros E. rewrite E in Hi'. symmetry in Hi'.
    apply orb_false_iff in Hi' as [Hi1 Hi2].
    apply negb_false_iff, Z.eqb_eq in Hi2. fold r in Hi2.
    rewrite (Hex Hi1), Em, Hi2. lra.
  - intros E. rewrite E in Hi'. symmetry in Hi'.
    apply orb_true_iff in Hi' as [Hi1|Hi2].
    + specialize (Hin Hi1). nra.
    + apply negb_true_iff, Z.eqb_neq in Hi2. fold r in Hi2.
      assert (1 <= IZR r) by (apply IZR_le; lia). nra.
Qed.


(** ** The order of valid numbers is the order of their values *)

Lemma bounded_canonical (m : positive) (e : Z) :
  SpecFloat.bounded prec emax m e = true ->
  fexp prec emax (Z.pos (digits2_pos m) + e) = e /\ (e <= 971)%Z.
Proof.
  unfold SpecFloat.bounded, canonical_mantissa. intros H.
  apply andb_true_iff in H as [H1 H2].
  apply Z.eqb_eq in H1. apply Z.leb_le in H2. split; [exact H1|exact H2].
Qed.

Lemma pos_value_gt_0 (m : positive) (e : Z) : 0 < IZR (Z.pos m) * bpow e.
Proof.
  pose proof (bpow_gt_0 e). assert (1 <= IZR (Z.pos m)) by (apply IZR_le; lia). nra.
Qed.

Lemma compare_canonical (m1 m2 : positive) (e1 e2 : Z) :
  SpecFloat.bounded prec emax m1 e1 = true -> SpecFloat.bounded prec emax m2 e2 = true ->
  cmp_holds
    (match (e1 ?= e2)%Z with
     | Lt => Lt | Gt => Gt | Eq => Pos.compare_cont Eq m1 m2 end)
    (IZR (Z.pos m1) * bpow e1) (IZR (Z.pos m2) * bpow e2).
Proof.
  intros B1 B2.
  apply bounded_canonical in B1 as [C1 _]. apply bounded_canonical in B2 as [C2 _].
  rewrite fexp_eq in C1, C2.
  pose proof (mantissa_bounds (Z.pos m1) e1 ltac:(lia)) as [L1 U1].
  pose proof (mantissa_bounds (Z.pos m2) e2 ltac:(lia)) as [L2 U2].
  cbn [Zdigits2] in *.
  set (d1 := Z.pos (digits2_pos m1)) in *. set (d2 := Z.pos (digits2_pos m2)) in *.
  destruct (Z.compare_spec e1 e2) as [E|E|E]; unfold cmp_holds.
  - subst e2. change (Pos.compare_cont Eq m1 m2) with (Pos.compare m1 m2).
    pose proof (bpow_gt_0 e1).
    destruct (Pos.compare_spec m1 m2) as [E|E|E].
    + now subst.
    + assert (IZR (Z.pos m1) < IZR (Z.pos m2)) by (apply IZR_lt; lia). nra.
    + assert (IZR (Z.pos m2) < IZR (Z.pos m1)) by (apply IZR_lt; lia). nra.
  - assert (Hd : (d1 + e1 <= d2 + e2 - 1)%Z) by lia.
    apply bpow_le in Hd. lra.
  - assert (Hd : (d2 + e2 <= d1 + e1 - 1)%Z) by lia.
    apply bpow_le in Hd. lra.
Qed.

Lemma SFcompare_F2R (a b : spec_float) :
  valid_binary a = true -> valid_binary b = true ->
  is_finite_SF a = true -> is_finite_SF b = true ->
  exists c, SFcompare a b = Some c /\ cmp_holds c (F2R a) (F2R b).
Proof.
  intros Va Vb Fa Fb.
  destruct a as [sa|sa| |sa ma ea], b as [sb|sb| |sb mb eb]; try discriminate;
    cbn [SFcompare F2R valid_binary] in *.
  - exists Eq. split; [reflexivity|reflexivity].
  - pose proof (pos_value_gt_0 mb eb).
    destruct sb; eexists; (split; [reflexivity|]); cbn [cmp_holds cond_Zopp].
    + rewrite opp_IZR. lra.
    + lra.
  - pose proof (pos_value_gt_0 ma ea).
    destruct sa; eexists; (split; [reflexivity|]); cbn [cmp_holds cond_Zopp].
    + rewrite opp_IZR. lra.
    + lra.
  - pose proof (pos_value_gt_0 ma ea). pose proof (pos_value_gt_0 mb eb).
    pose proof (compare_canonical ma mb ea eb Va Vb) as Hc.
    destruct sa, sb; eexists; (split; [reflexivity|]); cbn [cond_Zopp];
      rewrite ?opp_IZR.
    + destruct (ea ?= eb)%Z; [destruct (Pos.compare_cont Eq ma mb)| |];
        cbn [cmp_holds CompOpp] in *; lra.
    + cbn [cmp_holds]. lra.
    + cbn [cmp_holds]. lra.
    + exact Hc.
Qed.


Lemma SFleb_F2R (a b : spec_float) :
  valid_binary a = true -> valid_binary b = true ->
  is_finite_SF a = true -> is_finite_SF b = true ->
  (SFleb a b = true <-> F2R a <= F2R b).
Proof.
  intros Va Vb Fa Fb.
  destruct (SFcompare_F2R a b Va Vb Fa Fb) as [c [Hc Hh]].
  unfold SFleb. rewrite Hc. destruct c; cbn [cmp_holds] in Hh; split; intros H;
    try reflexivity; try discriminate; lra.
Qed.

Lemma SFltb_F2R (a b : spec_float) :
  valid_binary a = true -> valid_binary b = true ->
  is_finite_SF a = true -> is_finite_SF b = true ->
  (SFltb a b = true <-> F2R a < F2R b).
Proof.
  intros Va Vb Fa Fb.
  destruct (SFcompare_F2R a b Va Vb Fa Fb) as [c [Hc Hh]].
  unfold SFltb. rewrite Hc. destruct c; cbn [cmp_holds] in Hh; split; intros H;
    try reflexivity; try discriminate; lra.
Qed.

(** ** Rounding *)

Local Open Scope Z_scope.

Lemma Zdigits2_mono (a b : Z) : 0 <= a <= b -> Zdigits2 a <= Zdigits2 b.
Proof.
  intros [Ha Hab]. destruct (Z.eq_dec a 0) as [->|Hn].
  - apply Zdigits2_nonneg.
  - destruct (Zdigits2_bounds a ltac:(lia)) as [Hlo _].
    pose proof (Zdigits2_nonneg a).
    assert (1 <= Zdigits2 a) by (destruct a; cbn in *; lia).
    pose proof (Zdigits2_ge b (Zdigits2 a - 1) ltac:(lia) ltac:(lia)). lia.
Qed.

Lemma Zdigits2_succ (a : Z) : 0 <= a -> Zdigits2 (a + 1) <= Zdigits2 a + 1.
Proof.
  intros Ha. destruct (Z.eq_dec a 0) as [->|Hn]; [cbn; lia|].
  destruct (Zdigits2_bounds a ltac:(lia)) as [_ Hhi].
  pose proof (Zdigits2_nonneg a).
  apply Zdigits2_le; try lia.
  rewrite Z.pow_add_r, Z.pow_1_r by lia. lia.
Qed.

Lemma Zdigits2_div (m n : Z) :
  0 <= n -> 0 < m / 2 ^ n -> Zdigits2 (m / 2 ^ n) = Zdigits2 m - n.
Proof.
  intros Hn Hq.
  assert (Hp : 0 < 2 ^ n) by (apply Z.pow_pos_nonneg; lia).
  assert (Hm : 0 < m).
  { destruct (Z_lt_le_dec 0 m); [assumption|].
    assert (m / 2 ^ n <= 0) by (apply Z.div_le_upper_bound; lia). lia. }
  destruct (Zdigits2_bounds m Hm) as [Hlo Hhi].
  pose proof (Zdigits2_nonneg m) as Hd.
  assert (Hnd : n < Zdigits2 m).
  { destruct (Z_lt_le_dec n (Zdigits2 m)); [assumption|].
    assert (2 ^ Zdigits2 m <= 2 ^ n) by (apply Z.pow_le_mono_r; lia).
    rewrite Z.div_small in Hq by lia. lia. }
  apply Z.le_antisymm.
  - apply Zdigits2_le; try lia.
    apply Z.div_lt_upper_bound; [lia|].
    rewrite <- Z.pow_add_r by lia. now replace (n + (Zdigits2 m - n)) with (Zdigits2 m) by lia.
  - pose proof (Zdigits2_ge (m / 2 ^ n) (Zdigits2 m - n - 1) ltac:(lia)) as H.
    assert (2 ^ (Zdigits2 m - n - 1) <= m / 2 ^ n); [|lia].
    apply Z.div_le_lower_bound; [lia|].
    rewrite <- Z.pow_add_r by lia.
    now replace (n + (Zdigits2 m - n - 1)) with (Zdigits2 m - 1) by lia.
Qed.

Lemma inexact_of_loc (m : Z) (l : location) :
  inexact (shr_record_of_loc m l) = loc_inexact l /\ shr_m (shr_record_of_loc m l) = m.
Proof. destruct l as [|[]]; split; reflexivity. Qed.

(** The first shift of [binary_round_aux] brings the exponent to
    [fexp (digits m + e)] and keeps the location. *)
Lemma shr_fexp_spec (x : R) (m e : Z) (l : location) :
  0 <= m -> located x m e (loc_inexact l) ->
  e <= fexp prec emax (Zdigits2 m + e) ->
  exists mrs' e',
    shr_fexp prec emax m e l = (mrs', e') /\
    0 <= shr_m mrs' /\
    located x (shr_m mrs') e' (inexact mrs') /\
    e' = fexp prec emax (Zdigits2 (shr_m mrs') + e').
Proof.
  intros Hm Hloc He. unfold shr_fexp, shr.
  destruct (inexact_of_loc m l) as [Hi Hmm].
  destruct (fexp prec emax (Zdigits2 m + e) - e) as [|p|p] eqn:En; [| |lia].
  - exists (shr_record_of_loc m l), e. rewrite Hi, Hmm.
    split; [reflexivity|]. split; [exact Hm|]. split; [exact Hloc|]. lia.
  - pose proof (iter_shr_1_shifted p (shr_record_of_loc m l)) as Hs.
    rewrite Hmm in Hs. specialize (Hs Hm).
    eexists _, _. split; [reflexivity|].
    assert (Hm' : 0 <= shr_m (SpecFloat.iter_pos shr_1 p (shr_record_of_loc m l))).
    { apply (shifted_nonneg (Z.pos p) (shr_record_of_loc m l)); [lia|now rewrite Hmm|exact Hs]. }
    split; [exact Hm'|]. split.
    + apply (shifted_located x (Z.pos p) e (shr_record_of_loc m l)); try lia.
      * now rewrite Hmm, Hi.
      * exact Hs.
    + destruct Hs as [Hq _]. rewrite Hmm in Hq. rewrite Hq in Hm' |- *.
      rewrite fexp_eq in *.
      destruct (Z.eq_dec (m / 2 ^ Z.pos p) 0) as [E0|E0].
      * rewrite E0. cbn [Zdigits2].
        assert (Hp : 0 < 2 ^ Z.pos p) by (apply Z.pow_pos_nonneg; lia).
        destruct (Z.eq_dec m 0) as [->|Hmn]; [cbn [Zdigits2] in *; lia|].
        destruct (Zdigits2_bounds m ltac:(lia)) as [Hlo _].
        assert (m < 2 ^ Z.pos p).
        { destruct (Z_lt_le_dec m (2 ^ Z.pos p)); [assumption|].
          assert (1 <= m / 2 ^ Z.pos p) by (apply Z.div_le_lower_bound; lia). lia. }
        pose proof (Zdigits2_le m (Z.pos p) ltac:(lia) ltac:(lia) ltac:(lia)). lia.
      * rewrite Zdigits2_div by lia. lia.
Qed.

Lemma rne_spec (mrs : shr_record) :
  shr_m mrs <= round_nearest_even (shr_m mrs) (loc_of_shr_record mrs) <= shr_m mrs + 1 /\
  (inexact mrs = false ->
   round_nearest_even (shr_m mrs) (loc_of_shr_record mrs) = shr_m mrs).
Proof.
  destruct mrs as [m [|] [|]]; cbn; try destruct (Z.even m); split; try lia;
    intros; try discriminate; reflexivity.
Qed.

(** The second shift of [binary_round_aux] renormalises a mantissa that
    rounding carried to [2^53]. *)
Lemma final_shift (m' m1 e' : Z) :
  0 <= m' -> m' <= m1 <= m' + 1 ->
  e' = fexp prec emax (Zdigits2 m' + e') ->
  exists mrs'' e'',
    shr_fexp prec emax m1 e' loc_Exact = (mrs'', e'') /\
    0 <= shr_m mrs'' /\
    (IZR (shr_m mrs'') * bpow e'' = IZR m1 * bpow e')%R /\
    e'' = fexp prec emax (Zdigits2 (shr_m mrs'') + e'').
Proof.
  intros Hm' Hm1 Hc. rewrite fexp_eq in Hc.
  pose proof (Zdigits2_nonneg m') as Hd'.
  assert (Hlt : m' < 2 ^ 53).
  { destruct (Z.eq_dec m' 0) as [->|Hn]; [reflexivity|].
    destruct (Zdigits2_bounds m' ltac:(lia)) as [_ Hhi].
    assert (2 ^ Zdigits2 m' <= 2 ^ 53) by (apply Z.pow_le_mono_r; lia). lia. }
  pose proof (Zdigits2_mono m' m1 ltac:(lia)) as Hmono.
  assert (Hsucc : Zdigits2 m1 <= Zdigits2 m' + 1).
  { pose proof (Zdigits2_succ m' Hm').
    pose proof (Zdigits2_mono m1 (m' + 1) ltac:(lia)). lia. }
  unfold shr_fexp, shr. cbn [shr_record_of_loc].
  destruct (Z.eq_dec m1 (2 ^ 53)) as [E|E].
  - subst m1. rewrite fexp_eq.
    change (Zdigits2 (2 ^ 53)) with 54.
    assert (Hd53 : Zdigits2 m' = 53).
    { assert (m' = 2 ^ 53 - 1) by lia. subst m'. reflexivity. }
    replace (Z.max (54 + e' - 53) (-1074) - e') with 1 by lia.
    eexists _, _. split; [reflexivity|]. cbn [SpecFloat.iter_pos].
    change (shr_m (shr_1 {| shr_m := 2 ^ 53; shr_r := false; shr_s := false |}))
      with (2 ^ 52).
    split; [lia|]. split.
    + rewrite (Z.add_comm e' 1), bpow_add.
      rewrite (bpow_IZR 1) by lia. change (2 ^ 1) with 2.
      change (2 ^ 53) with (2 * 2 ^ 52). rewrite mult_IZR. ring.
    + rewrite fexp_eq. change (Zdigits2 (2 ^ 52)) with 53. lia.
  - assert (Hd1 : Zdigits2 m1 <= 53).
    { apply Zdigits2_le; lia. }
    rewrite fexp_eq.
    assert (Hn : Z.max (Zdigits2 m1 + e' - 53) (-1074) - e' = 0) by lia.
    rewrite Hn.
    eexists _, _. split; [reflexivity|]. cbn [shr_m].
    split; [lia|]. split; [reflexivity|].
    rewrite fexp_eq. lia.
Qed.


(** A representable number above [m' * 2^e'] is a multiple of [2^e'] when
    [(m', e')] is in canonical form. *)
Lemma grid (m' e' : Z) (c : spec_float) :
  0 <= m' -> e' = fexp prec emax (Zdigits2 m' + e') ->
  valid_binary c = true -> is_finite_SF c = true ->
  (IZR m' * bpow e' < F2R c)%R ->
  exists C : Z, F2R c = (IZR C * bpow e')%R.
Proof.
  intros Hm' Hc Vc Fc Hlt. rewrite fexp_eq in Hc.
  pose proof (bpow_gt_0 e') as He'.
  assert (H0 : (0 <= IZR m' * bpow e')%R).
  { apply Rmult_le_pos; [apply IZR_le; lia|lra]. }
  destruct c as [sc|sc| |sc mc ec]; try discriminate; cbn [F2R] in *; [lra|].
  destruct sc; cbn [cond_Zopp] in *.
  { pose proof (pos_value_gt_0 mc ec). rewrite opp_IZR in Hlt. lra. }
  cbn [valid_binary] in Vc. apply bounded_canonical in Vc as [Cc _].
  rewrite fexp_eq in Cc.
  pose proof (mantissa_bounds (Z.pos mc) ec ltac:(lia)) as [_ Uc].
  cbn [Zdigits2] in Uc.
  assert (Hec : e' <= ec).
  { destruct (Z.eq_dec m' 0) as [->|Hn]; [cbn [Zdigits2] in Hc; lia|].
    pose proof (mantissa_bounds m' e' ltac:(lia)) as [L' _].
    assert (Hb : (bpow (Zdigits2 m' + e' - 1) < bpow (Z.pos (digits2_pos mc) + ec))%R) by lra.
    apply bpow_lt_inv in Hb. lia. }
  exists (Z.pos mc * 2 ^ (ec - e')).
  rewrite mult_IZR, <- (bpow_IZR (ec - e')) by lia.
  rewrite Rmult_assoc, <- bpow_add. now replace (ec - e' + e') with ec by lia.
Qed.

Lemma round_aux_Rnd (x : R) (m e : Z) (l : location) :
  0 <= m -> located x m e (loc_inexact l) ->
  e <= fexp prec emax (Zdigits2 m + e) ->
  Rnd x (binary_round_aux prec emax false m e l).
Proof.
  intros Hm Hloc He.
  destruct (shr_fexp_spec x m e l Hm Hloc He) as (mrs' & e' & E1 & Hm' & Hloc' & Hc').
  unfold binary_round_aux. rewrite E1.
  destruct (rne_spec mrs') as [Hr1 Hr2].
  set (m1 := round_nearest_even (shr_m mrs') (loc_of_shr_record mrs')) in *.
  destruct (final_shift (shr_m mrs') m1 e' Hm' Hr1 Hc') as (mrs'' & e'' & E2 & Hm'' & Hval & Hc'').
  rewrite E2.
  destruct Hloc' as [[Hlo Hhi] [Hex Hin]].
  pose proof (bpow_gt_0 e') as He'.
  assert (Hm1 : (IZR (shr_m mrs') <= IZR m1 <= IZR (shr_m mrs') + 1)%R).
  { split; [apply IZR_le; lia|]. rewrite <- plus_IZR. apply IZR_le; lia. }
  rewrite plus_IZR in Hhi.
  (* the rounded value stays on the side of every representable bound *)
  assert (HU : forall c, valid_binary c = true -> is_finite_SF c = true ->
                 (x <= F2R c -> IZR m1 * bpow e' <= F2R c)%R).
  { intros c Vc Fc Hx.
    destruct (inexact mrs') eqn:Ei.
    - specialize (Hin eq_refl).
      destruct (grid (shr_m mrs') e' c Hm' Hc' Vc Fc ltac:(lra)) as [C HC].
      rewrite HC in *.
      assert (IZR (shr_m mrs') < IZR C)%R by nra.
      apply lt_IZR in H.
      assert (IZR m1 <= IZR C)%R by (apply IZR_le; lia). nra.
    - rewrite (Hr2 eq_refl). specialize (Hex eq_refl). lra. }
  assert (HL : forall c, valid_binary c = true -> is_finite_SF c = true ->
                 (F2R c <= x -> F2R c <= IZR m1 * bpow e')%R).
  { intros c Vc Fc Hx.
    destruct (Rle_lt_dec (F2R c) (IZR (shr_m mrs') * bpow e')) as [Hle|Hgt]; [nra|].
    destruct (grid (shr_m mrs') e' c Hm' Hc' Vc Fc Hgt) as [C HC].
    rewrite HC in *.
    assert (IZR (shr_m mrs') < IZR C)%R by nra.
    assert (IZR C < IZR (shr_m mrs') + 1)%R by nra.
    apply lt_IZR in H. rewrite <- plus_IZR in H0. apply lt_IZR in H0. lia. }
  rewrite <- Hval in HU, HL.
  destruct (shr_m mrs'') as [|p|p] eqn:Ep; [| |lia].
  - split; [reflexivity|]. intros c Vc Fc.
    assert (F0 : F2R (S754_zero false) = (IZR 0 * bpow e'')%R) by (cbn; lra).
    split; intros H.
    + apply SFleb_F2R; try reflexivity; try assumption. rewrite F0. now apply HU.
    + apply SFleb_F2R; try reflexivity; try assumption. rewrite F0. now apply HL.
  - destruct (e'' <=? emax - prec) eqn:Ee.
    + assert (Vr : valid_binary (S754_finite false p e'') = true).
      { cbn [valid_binary]. unfold SpecFloat.bounded, canonical_mantissa.
        rewrite Ee, andb_true_r. apply Z.eqb_eq. cbn [Zdigits2] in Hc''. now symmetry. }
      split; [exact Vr|]. intros c Vc Fc.
      split; intros H.
      * apply SFleb_F2R; try reflexivity; try assumption. now apply HU.
      * apply SFleb_F2R; try reflexivity; try assumption. now apply HL.
    + split; [reflexivity|]. intros c Vc Fc. split; intros H.
      * exfalso. specialize (HU c Vc Fc H).
        apply Z.leb_gt in Ee. change (emax - prec) with 971 in Ee.
        rewrite fexp_eq in Hc''. cbn [Zdigits2] in Hc''.
        pose proof (mantissa_bounds (Z.pos p) e'' ltac:(lia)) as [Lp _].
        cbn [Zdigits2] in Lp.
        assert (Hb : (bpow 1024 <= bpow (Z.pos (digits2_pos p) + e'' - 1))%R)
          by (apply bpow_le; lia).
        destruct c as [sc|sc| |sc mc ec]; try discriminate; cbn [F2R] in HU.
        { pose proof (bpow_gt_0 1024). lra. }
        destruct sc; cbn [cond_Zopp] in HU.
        { pose proof (pos_value_gt_0 mc ec). pose proof (bpow_gt_0 1024).
          rewrite opp_IZR in HU. lra. }
        cbn [valid_binary] in Vc. apply bounded_canonical in Vc as [Cc Cb].
        rewrite fexp_eq in Cc.
        pose proof (mantissa_bounds (Z.pos mc) ec ltac:(lia)) as [_ Uc].
        cbn [Zdigits2] in Uc.
        assert (Hb' : (bpow (Z.pos (digits2_pos mc) + ec) <= bpow 1024)%R)
          by (apply bpow_le; lia).
        lra.
      * destruct c as [sc|sc| |sc mc ec]; try discriminate; reflexivity.
Qed.


(** ** Signs *)

Lemma round_aux_opp (m e : Z) (l : location) :
  binary_round_aux prec emax true m e l =
  SFopp (binary_round_aux prec emax false m e l).
Proof.
  unfold binary_round_aux.
  destruct (shr_fexp prec emax m e l) as [mrs' e'].
  destruct (shr_fexp prec emax _ e' loc_Exact) as [mrs'' e''].
  destruct (shr_m mrs''); try reflexivity.
  now destruct (e'' <=? emax - prec).
Qed.

Lemma SFcompare_opp (a b : spec_float) :
  SFcompare (SFopp a) (SFopp b) = SFcompare b a.
Proof.
  destruct a as [[]|[]| |[] ma ea], b as [[]|[]| |[] mb eb]; try reflexivity;
    cbn [SFopp SFcompare negb]; f_equal;
    rewrite (Z.compare_antisym ea eb); destruct (ea ?= eb); cbn [CompOpp];
    try reflexivity;
    change (Pos.compare_cont Eq ?x ?y) with (Pos.compare x y);
    rewrite (Pos.compare_antisym ma mb); try reflexivity.
  now destruct (ma ?= mb)%positive.
Qed.

Lemma SFopp_involutive (a : spec_float) : SFopp (SFopp a) = a.
Proof. destruct a as [[]|[]| |[] m e]; reflexivity. Qed.

Lemma SFleb_opp (a b : spec_float) : SFleb (SFopp a) b = SFleb (SFopp b) a.
Proof.
  unfold SFleb. rewrite <- (SFopp_involutive b) at 1.
  now rewrite SFcompare_opp.
Qed.

Lemma F2R_opp (a : spec_float) : F2R (SFopp a) = (- F2R a)%R.
Proof.
  destruct a as [[]|[]| |[] m e]; cbn [SFopp F2R negb cond_Zopp];
    rewrite ?opp_IZR; try change (Z.neg m) with (- Z.pos m); rewrite ?opp_IZR; lra.
Qed.

Lemma valid_opp (a : spec_float) : valid_binary (SFopp a) = valid_binary a.
Proof. destruct a as [[]|[]| |[] m e]; reflexivity. Qed.

Lemma finite_opp (a : spec_float) : is_finite_SF (SFopp a) = is_finite_SF a.
Proof. destruct a as [[]|[]| |[] m e]; reflexivity. Qed.

Lemma Rnd_opp (x : R) (r : spec_float) : Rnd x r -> Rnd (- x) (SFopp r).
Proof.
  intros [Vr H]. split; [now rewrite valid_opp|].
  intros c Vc Fc.
  destruct (H (SFopp c)) as [H1 H2];
    [now rewrite valid_opp|now rewrite finite_opp|].
  rewrite F2R_opp in H1, H2. split; intros Hx.
  - rewrite SFleb_opp. apply H2. lra.
  - rewrite <- (SFopp_involutive c), SFleb_opp, SFopp_involutive. apply H1. lra.
Qed.

Lemma Rnd_ext (x y : R) (r : spec_float) : x = y -> Rnd x r -> Rnd y r.
Proof. now intros ->. Qed.

(** A valid finite number is a rounding of its own value. *)
Lemma Rnd_refl (r : spec_float) :
  valid_binary r = true -> is_finite_SF r = true -> Rnd (F2R r) r.
Proof.
  intros Vr Fr. split; [exact Vr|]. intros c Vc Fc.
  split; intros H; now apply SFleb_F2R.
Qed.

Lemma Rnd_zero (s : bool) : Rnd 0 (S754_zero s).
Proof. apply (Rnd_refl (S754_zero s)); reflexivity. Qed.

(** Rounding with either sign. *)
Lemma round_aux_signed (x : R) (s : bool) (m e : Z) (l : location) :
  0 <= m -> located x m e (loc_inexact l) ->
  e <= fexp prec emax (Zdigits2 m + e) ->
  Rnd (if s then - x else x)%R (binary_round_aux prec emax s m e l).
Proof.
  intros Hm Hloc He. destruct s.
  - rewrite round_aux_opp. apply Rnd_opp. now apply round_aux_Rnd.
  - now apply round_aux_Rnd.
Qed.

(** ** Rounding an unrounded mantissa *)

Lemma iter_xO (m d : positive) :
  Z.pos (Pos.iter xO m d) = Z.pos m * 2 ^ Z.pos d /\
  digits2_pos (Pos.iter xO m d) = (digits2_pos m + d)%positive.
Proof.
  induction d as [|d IH] using Pos.peano_ind.
  - cbn [Pos.iter]. split; [lia|]. cbn [digits2_pos]. lia.
  - rewrite Pos.iter_succ. destruct IH as [IH1 IH2].
    rewrite Pos2Z.inj_xO, IH1. cbn [digits2_pos]. rewrite IH2.
    rewrite Pos2Z.inj_succ, Z.pow_succ_r by lia. split; lia.
Qed.

Lemma located_exact (m e : Z) : located (IZR m * bpow e) m e false.
Proof.
  pose proof (bpow_gt_0 e). unfold located. rewrite plus_IZR.
  split; [split; nra|]. split; [reflexivity|discriminate].
Qed.

Lemma binary_round_Rnd (s : bool) (m : positive) (e : Z) :
  Rnd (F2R (S754_finite s m e)) (binary_round prec emax s m e).
Proof.
  unfold binary_round, shl_align.
  set (D := Z.pos (digits2_pos m) + e).
  assert (Hx : F2R (S754_finite s m e)
               = (if s then - (IZR (Z.pos m) * bpow e) else IZR (Z.pos m) * bpow e)%R).
  { cbn [F2R]. destruct s; cbn [cond_Zopp]; rewrite ?opp_IZR; lra. }
  rewrite Hx.
  destruct (fexp prec emax D - e) as [|d|d] eqn:Ed.
  - apply (round_aux_signed _ s (Z.pos m) e loc_Exact); [lia|apply located_exact|].
    cbn [Zdigits2]. fold D. lia.
  - apply (round_aux_signed _ s (Z.pos m) e loc_Exact); [lia|apply located_exact|].
    cbn [Zdigits2]. fold D. lia.
  - destruct (iter_xO m d) as [Hv Hd].
    replace (IZR (Z.pos m) * bpow e)%R
      with (IZR (Z.pos (Pos.iter xO m d)) * bpow (fexp prec emax D))%R.
    + apply (round_aux_signed _ s _ _ loc_Exact); [lia|apply located_exact|].
      cbn [Zdigits2]. rewrite Hd, Pos2Z.inj_add.
      replace (Z.pos (digits2_pos m) + Z.pos d + fexp prec emax D) with D; [lia|].
      unfold D in *. lia.
    + rewrite Hv, mult_IZR, <- (bpow_IZR (Z.pos d)) by lia.
      rewrite Rmult_assoc, <- bpow_add. f_equal. f_equal. lia.
Qed.

Lemma binary_normalize_Rnd (z e : Z) (sz : bool) :
  Rnd (IZR z * bpow e) (binary_normalize prec emax z e sz).
Proof.
  destruct z as [|p|p]; cbn [binary_normalize].
  - apply (Rnd_ext 0); [lra|apply Rnd_zero].
  - apply (binary_round_Rnd false p e).
  - apply (Rnd_ext (F2R (S754_finite true p e))); [reflexivity|].
    apply binary_round_Rnd.
Qed.

(** ** Addition and subtraction *)

Lemma shl_align_value (m : positive) (e e' : Z) :
  e' <= e ->
  (IZR (Z.pos (fst (shl_align m e e'))) * bpow e' = IZR (Z.pos m) * bpow e)%R.
Proof.
  intros H. unfold shl_align.
  destruct (e' - e) as [|d|d] eqn:Ed; cbn [fst].
  - now replace e' with e by lia.
  - lia.
  - destruct (iter_xO m d) as [Hv _].
    rewrite Hv, mult_IZR, <- (bpow_IZR (Z.pos d)) by lia.
    rewrite Rmult_assoc, <- bpow_add. f_equal. f_equal. lia.
Qed.

Lemma aligned_value (s : bool) (m : positive) (e e' : Z) :
  e' <= e ->
  (IZR (cond_Zopp s (Z.pos (fst (shl_align m e e')))) * bpow e'
   = F2R (S754_finite s m e))%R.
Proof.
  intros H. pose proof (shl_align_value m e e' H) as Hv. cbn [F2R].
  destruct s; cbn [cond_Zopp]; rewrite ?opp_IZR; lra.
Qed.

Lemma SFadd_Rnd (a b : spec_float) :
  valid_binary a = true -> valid_binary b = true ->
  is_finite_SF a = true -> is_finite_SF b = true ->
  Rnd (F2R a + F2R b) (SFadd prec emax a b).
Proof.
  intros Va Vb Fa Fb.
  destruct a as [sa|sa| |sa ma ea], b as [sb|sb| |sb mb eb]; try discriminate.
  - apply (Rnd_ext 0); [cbn; lra|]. destruct sa, sb; apply Rnd_zero.
  - apply (Rnd_ext (F2R (S754_finite sb mb eb))); [cbn [F2R]; lra|].
    now apply Rnd_refl.
  - apply (Rnd_ext (F2R (S754_finite sa ma ea))); [cbn [F2R]; lra|].
    now apply Rnd_refl.
  - cbn [SFadd].
    rewrite <- (aligned_value sa ma ea (Z.min ea eb)) by lia.
    rewrite <- (aligned_value sb mb eb (Z.min ea eb)) by lia.
    rewrite <- Rmult_plus_distr_r, <- plus_IZR.
    apply binary_normalize_Rnd.
Qed.

Lemma SFsub_Rnd (a b : spec_float) :
  valid_binary a = true -> valid_binary b = true ->
  is_finite_SF a = true -> is_finite_SF b = true ->
  Rnd (F2R a - F2R b) (SFsub prec emax a b).
Proof.
  intros Va Vb Fa Fb.
  destruct a as [sa|sa| |sa ma ea], b as [sb|sb| |sb mb eb]; try discriminate.
  - apply (Rnd_ext 0); [cbn; lra|]. destruct sa, sb; apply Rnd_zero.
  - apply (Rnd_ext (F2R (S754_finite (negb sb) mb eb))).
    + change (S754_finite (negb sb) mb eb) with (SFopp (S754_finite sb mb eb)).
      rewrite F2R_opp. cbn [F2R]. lra.
    + apply Rnd_refl; [exact Vb|reflexivity].
  - apply (Rnd_ext (F2R (S754_finite sa ma ea))); [cbn [F2R]; lra|].
    now apply Rnd_refl.
  - cbn [SFsub].
    rewrite <- (aligned_value sa ma ea (Z.min ea eb)) by lia.
    rewrite <- (aligned_value sb mb eb (Z.min ea eb)) by lia.
    rewrite <- Rmult_minus_distr_r, <- minus_IZR.
    apply binary_normalize_Rnd.
Qed.


(** ** Multiplication *)

Lemma Zdigits2_mul (a b : Z) :
  0 < a -> 0 < b -> Zdigits2 a + Zdigits2 b - 1 <= Zdigits2 (a * b).
Proof.
  intros Ha Hb.
  destruct (Zdigits2_bounds a Ha) as [La _]. destruct (Zdigits2_bounds b Hb) as [Lb _].
  assert (1 <= Zdigits2 a) by (destruct a; cbn in *; lia).
  assert (1 <= Zdigits2 b) by (destruct b; cbn in *; lia).
  assert (0 < 2 ^ (Zdigits2 a - 1)) by (apply Z.pow_pos_nonneg; lia).
  assert (0 < 2 ^ (Zdigits2 b - 1)) by (apply Z.pow_pos_nonneg; lia).
  pose proof (Zdigits2_ge (a * b) (Zdigits2 a - 1 + (Zdigits2 b - 1)) ltac:(lia)) as H3.
  rewrite Z.pow_add_r in H3 by lia.
  assert (2 ^ (Zdigits2 a - 1) * 2 ^ (Zdigits2 b - 1) <= a * b) by nia.
  lia.
Qed.

Lemma SFmul_Rnd (a b : spec_float) :
  valid_binary a = true -> valid_binary b = true ->
  is_finite_SF a = true -> is_finite_SF b = true ->
  Rnd (F2R a * F2R b) (SFmul prec emax a b).
Proof.
  intros Va Vb Fa Fb.
  destruct a as [sa|sa| |sa ma ea], b as [sb|sb| |sb mb eb]; try discriminate;
    try (apply (Rnd_ext 0); [cbn [F2R]; lra|apply Rnd_zero]).
  cbn [SFmul].
  cbn [valid_binary] in Va, Vb.
  apply bounded_canonical in Va as [Ca _]. apply bounded_canonical in Vb as [Cb _].
  rewrite fexp_eq in Ca, Cb.
  apply (Rnd_ext (if xorb sa sb
                  then - (IZR (Z.pos (ma * mb)) * bpow (ea + eb))
                  else IZR (Z.pos (ma * mb)) * bpow (ea + eb))%R).
  { cbn [F2R]. rewrite Pos2Z.inj_mul, mult_IZR, bpow_add.
    destruct sa, sb; cbn [xorb cond_Zopp]; rewrite ?opp_IZR; ring. }
  apply (round_aux_signed _ _ _ _ loc_Exact); [lia|apply located_exact|].
  rewrite fexp_eq, Pos2Z.inj_mul.
  pose proof (Zdigits2_mul (Z.pos ma) (Z.pos mb) ltac:(lia) ltac:(lia)) as Hd.
  cbn [Zdigits2] in Hd |- *.
  assert (0 < Z.pos (digits2_pos ma)) by lia.
  assert (0 < Z.pos (digits2_pos mb)) by lia.
  lia.
Qed.

(** ** Division *)

Lemma new_location_inexact (n k : Z) :
  loc_inexact (new_location n k) = negb (k =? 0).
Proof.
  unfold new_location, new_location_even, new_location_odd.
  destruct (Z.even n), (k =? 0); reflexivity.
Qed.

Lemma div_core_spec (mx my : positive) (ex ey : Z) :
  exists q e' l,
    SFdiv_core_binary prec emax (Z.pos mx) ex (Z.pos my) ey = (q, e', l) /\
    0 <= q /\
    located (IZR (Z.pos mx) * bpow ex / (IZR (Z.pos my) * bpow ey)) q e' (loc_inexact l) /\
    e' <= fexp prec emax (Zdigits2 q + e').
Proof.
  unfold SFdiv_core_binary.
  set (d1 := Zdigits2 (Z.pos mx)). set (d2 := Zdigits2 (Z.pos my)).
  set (e' := Z.min (fexp prec emax (d1 + ex - (d2 + ey))) (ex - ey)).
  set (s := ex - ey - e').
  assert (Hs : 0 <= s) by (unfold s, e'; lia).
  set (m' := match s with Z.pos _ => Z.shiftl (Z.pos mx) s | 0 => Z.pos mx | Z.neg _ => 0 end).
  assert (Hm' : m' = Z.pos mx * 2 ^ s).
  { unfold m'. destruct s as [|p|p] eqn:Es; [cbn; lia| |lia].
    now rewrite Z.shiftl_mul_pow2 by lia. }
  assert (Hps : 0 < 2 ^ s) by (apply Z.pow_pos_nonneg; lia).
  pose proof (Z_div_mod m' (Z.pos my) ltac:(lia)) as Hdm.
  destruct (Z.div_eucl m' (Z.pos my)) as [q r] eqn:Eqr.
  destruct Hdm as [Hdm Hr].
  assert (Hq : 0 <= q) by nia.
  exists q, e', (new_location (Z.pos my) r).
  split; [reflexivity|]. split; [exact Hq|].
  pose proof (bpow_gt_0 e') as He'. pose proof (bpow_gt_0 ey) as Hey.
  assert (HY : (0 < IZR (Z.pos my))%R) by (apply IZR_lt; lia).
  assert (Hx : (IZR (Z.pos mx) * bpow ex / (IZR (Z.pos my) * bpow ey)
               = (IZR q + IZR r / IZR (Z.pos my)) * bpow e')%R).
  { replace ex with (s + e' + ey) by (unfold s; lia).
    rewrite !bpow_add, (bpow_IZR s) by lia.
    assert (E : (IZR (Z.pos mx) * IZR (2 ^ s) = IZR (Z.pos my) * IZR q + IZR r)%R).
    { rewrite <- !mult_IZR, <- plus_IZR. f_equal. lia. }
    field_simplify; try lra.
    replace (IZR (Z.pos mx) * IZR (2 ^ s) * bpow e')%R
      with ((IZR (Z.pos my) * IZR q + IZR r) * bpow e')%R by (rewrite <- E; ring).
    field. lra. }
  rewrite Hx.
  set (t := (IZR r / IZR (Z.pos my))%R).
  assert (Ht : (t * IZR (Z.pos my) = IZR r)%R) by (unfold t; field; lra).
  assert (Hr0 : (0 <= IZR r)%R) by (apply IZR_le; lia).
  assert (Hr1 : (IZR r < IZR (Z.pos my))%R) by (apply IZR_lt; lia).
  assert (Ht01 : (0 <= t < 1)%R) by (split; nra).
  split.
  - unfold located. rewrite new_location_inexact, plus_IZR.
    split; [split; nra|]. split; intros E.
    + apply negb_false_iff, Z.eqb_eq in E. subst r.
      assert (t = 0)%R by nra. nra.
    + apply negb_true_iff, Z.eqb_neq in E.
      assert (1 <= IZR r)%R by (apply IZR_le; lia).
      assert (0 < t)%R by nra. nra.
  - rewrite fexp_eq.
    destruct (Z_le_gt_dec e' (-1074)) as [|Hgt]; [lia|].
    assert (He : e' <= d1 + ex - (d2 + ey) - 53).
    { unfold e' in Hgt |- *. rewrite fexp_eq in *. lia. }
    set (k := d1 - 1 + s - d2).
    assert (Hk : 52 <= k) by (unfold k, s; lia).
    destruct (Zdigits2_bounds (Z.pos mx) ltac:(lia)) as [L1 _].
    destruct (Zdigits2_bounds (Z.pos my) ltac:(lia)) as [_ U2].
    fold d1 in L1. fold d2 in U2.
    assert (1 <= d1) by (unfold d1; cbn; lia).
    assert (1 <= d2) by (unfold d2; cbn; lia).
    assert (Hqk : 2 ^ k <= q).
    { assert (Hlow : 2 ^ k * 2 ^ d2 <= m').
      { rewrite Hm', <- Z.pow_add_r by lia.
        replace (k + d2) with (d1 - 1 + s) by (unfold k; lia).
        rewrite Z.pow_add_r by lia. nia. }
      assert (0 < 2 ^ k) by (apply Z.pow_pos_nonneg; lia).
      assert (Hlt : 2 ^ k * Z.pos my < Z.pos my * (q + 1)) by nia.
      nia. }
    pose proof (Zdigits2_ge q k ltac:(lia) Hqk). lia.
Qed.

Lemma SFdiv_Rnd (a : spec_float) (sb : bool) (mb : positive) (eb : Z) :
  is_finite_SF a = true ->
  Rnd (F2R a / F2R (S754_finite sb mb eb)) (SFdiv prec emax a (S754_finite sb mb eb)).
Proof.
  intros Fa.
  pose proof (pos_value_gt_0 mb eb) as Hb.
  assert (Hbn : F2R (S754_finite sb mb eb) <> 0%R).
  { cbn [F2R]. destruct sb; cbn [cond_Zopp]; rewrite ?opp_IZR; lra. }
  destruct a as [sa|sa| |sa ma ea]; try discriminate.
  - apply (Rnd_ext 0); [cbn [F2R]; unfold Rdiv; ring|apply Rnd_zero].
  - cbn [SFdiv].
    destruct (div_core_spec ma mb ea eb) as (q & e' & l & E & Hq & Hloc & He).
    rewrite E.
    eapply Rnd_ext; [|apply (round_aux_signed _ (xorb sa sb) q e' l Hq Hloc He)].
    cbn [F2R] in *. pose proof (bpow_gt_0 eb).
    assert (IZR (Z.pos mb) <> 0)%R by (apply not_0_IZR; lia).
    destruct sa, sb; cbn [xorb cond_Zopp]; rewrite ?opp_IZR; field; split; lra.
Qed.


(** ** The order of all numbers but NaN *)

Local Open Scope R_scope.

Lemma ord_finite (f : spec_float) : is_finite_SF f = true -> ord f = F2R f.
Proof. destruct f as [s|s| |s m e]; try discriminate; reflexivity. Qed.

Lemma finite_range (f : spec_float) :
  valid_binary f = true -> is_finite_SF f = true ->
  - bpow 1024 < F2R f < bpow 1024.
Proof.
  intros Vf Ff. pose proof (bpow_gt_0 1024).
  destruct f as [s|s| |s m e]; try discriminate; cbn [F2R]; [lra|].
  cbn [valid_binary] in Vf. apply bounded_canonical in Vf as [Cf Bf].
  rewrite fexp_eq in Cf.
  pose proof (mantissa_bounds (Z.pos m) e ltac:(lia)) as [_ U].
  cbn [Zdigits2] in U.
  assert (bpow (Z.pos (digits2_pos m) + e) <= bpow 1024) by (apply bpow_le; lia).
  pose proof (pos_value_gt_0 m e).
  destruct s; cbn [cond_Zopp]; rewrite ?opp_IZR; lra.
Qed.

Lemma SFcompare_ord (a b : spec_float) :
  valid_binary a = true -> valid_binary b = true ->
  not_nan a = true -> not_nan b = true ->
  exists c, SFcompare a b = Some c /\ cmp_holds c (ord a) (ord b).
Proof.
  intros Va Vb Na Nb.
  destruct (is_finite_SF a) eqn:Fa, (is_finite_SF b) eqn:Fb.
  - rewrite !ord_finite by assumption. now apply SFcompare_F2R.
  - pose proof (finite_range a Va Fa). rewrite (ord_finite a Fa).
    destruct a as [sa|sa| |sa ma ea], b as [sb|[]| |sb mb eb]; try discriminate;
      eexists; (split; [reflexivity|]); cbn [cmp_holds ord]; lra.
  - pose proof (finite_range b Vb Fb). rewrite (ord_finite b Fb).
    destruct a as [sa|[]| |sa ma ea], b as [sb|sb| |sb mb eb]; try discriminate;
      eexists; (split; [reflexivity|]); cbn [cmp_holds ord]; lra.
  - pose proof (bpow_gt_0 1024).
    destruct a as [sa|[]| |sa ma ea], b as [sb|[]| |sb mb eb]; try discriminate;
      eexists; (split; [reflexivity|]); cbn [cmp_holds ord]; lra.
Qed.

Lemma SFleb_ord (a b : spec_float) :
  valid_binary a = true -> valid_binary b = true ->
  (SFleb a b = true <-> not_nan a = true /\ not_nan b = true /\ ord a <= ord b).
Proof.
  intros Va Vb. split.
  - intros H.
    assert (Na : not_nan a = true) by (destruct a; try reflexivity; discriminate).
    assert (Nb : not_nan b = true).
    { destruct b; try reflexivity. destruct a; discriminate. }
    split; [exact Na|]. split; [exact Nb|].
    destruct (SFcompare_ord a b Va Vb Na Nb) as [c [Hc Hh]].
    unfold SFleb in H. rewrite Hc in H.
    destruct c; cbn [cmp_holds] in Hh; try discriminate; lra.
  - intros (Na & Nb & H).
    destruct (SFcompare_ord a b Va Vb Na Nb) as [c [Hc Hh]].
    unfold SFleb. rewrite Hc. destruct c; cbn [cmp_holds] in Hh; try reflexivity; lra.
Qed.

Lemma SFltb_ord (a b : spec_float) :
  valid_binary a = true -> valid_binary b = true ->
  (SFltb a b = true <-> not_nan a = true /\ not_nan b = true /\ ord a < ord b).
Proof.
  intros Va Vb. split.
  - intros H.
    assert (Na : not_nan a = true) by (destruct a; try reflexivity; discriminate).
    assert (Nb : not_nan b = true).
    { destruct b; try reflexivity. destruct a; discriminate. }
    split; [exact Na|]. split; [exact Nb|].
    destruct (SFcompare_ord a b Va Vb Na Nb) as [c [Hc Hh]].
    unfold SFltb in H. rewrite Hc in H.
    destruct c; cbn [cmp_holds] in Hh; try discriminate; lra.
  - intros (Na & Nb & H).
    destruct (SFcompare_ord a b Va Vb Na Nb) as [c [Hc Hh]].
    unfold SFltb. rewrite Hc. destruct c; cbn [cmp_holds] in Hh; try reflexivity; lra.
Qed.

(** A rounding of a real between two finite numbers is finite and between
    them. *)
Lemma Rnd_between (x : R) (r lo hi : spec_float) :
  Rnd x r ->
  valid_binary lo = true -> is_finite_SF lo = true ->
  valid_binary hi = true -> is_finite_SF hi = true ->
  F2R lo <= x <= F2R hi ->
  is_finite_SF r = true /\ F2R lo <= F2R r <= F2R hi.
Proof.
  intros [Vr H] Vlo Flo Vhi Fhi [Hl Hh].
  destruct (H lo Vlo Flo) as [_ H1]. destruct (H hi Vhi Fhi) as [H2 _].
  specialize (H1 Hl). specialize (H2 Hh).
  apply SFleb_ord in H1 as (_ & Nr & H1); try assumption.
  apply SFleb_ord in H2 as (_ & _ & H2); try assumption.
  rewrite (ord_finite lo Flo) in H1. rewrite (ord_finite hi Fhi) in H2.
  pose proof (finite_range lo Vlo Flo). pose proof (finite_range hi Vhi Fhi).
  destruct r as [s|[]| |s m e]; try discriminate; cbn [ord] in *;
    try (split; [reflexivity|]; cbn [F2R] in *; lra); lra.
Qed.


(** ** Primitive floats *)

Lemma finite_number (f : float) : finite f = true -> number f = true.
Proof. unfold finite, number. now destruct (Prim2SF f). Qed.

Lemma B2R_finite (f : float) : finite f = true -> B2R f = F2R (Prim2SF f).
Proof. apply ord_finite. Qed.

Lemma leb_B2R (a b : float) :
  (a <=? b)%float = true <-> number a = true /\ number b = true /\ B2R a <= B2R b.
Proof. rewrite leb_spec. apply SFleb_ord; apply Prim2SF_valid. Qed.

Lemma ltb_B2R (a b : float) :
  (a <? b)%float = true <-> number a = true /\ number b = true /\ B2R a < B2R b.
Proof. rewrite ltb_spec. apply SFltb_ord; apply Prim2SF_valid. Qed.

Lemma leb_false_B2R (a b : float) :
  number a = true -> number b = true -> (a <=? b)%float = false -> B2R b < B2R a.
Proof.
  intros Na Nb H. destruct (Rlt_le_dec (B2R b) (B2R a)) as [|Hle]; [assumption|].
  assert ((a <=? b)%float = true) by (apply leb_B2R; auto). congruence.
Qed.

Lemma ltb_false_B2R (a b : float) :
  number a = true -> number b = true -> (a <? b)%float = false -> B2R b <= B2R a.
Proof.
  intros Na Nb H. destruct (Rle_lt_dec (B2R b) (B2R a)) as [|Hlt]; [assumption|].
  assert ((a <? b)%float = true) by (apply ltb_B2R; auto). congruence.
Qed.

Lemma add_Rnd (a b : float) :
  finite a = true -> finite b = true -> Rnd (B2R a + B2R b) (Prim2SF (a + b)).
Proof.
  intros Fa Fb. rewrite add_spec, !B2R_finite by assumption.
  apply SFadd_Rnd; try assumption; apply Prim2SF_valid.
Qed.

Lemma sub_Rnd (a b : float) :
  finite a = true -> finite b = true -> Rnd (B2R a - B2R b) (Prim2SF (a - b)).
Proof.
  intros Fa Fb. rewrite sub_spec, !B2R_finite by assumption.
  apply SFsub_Rnd; try assumption; apply Prim2SF_valid.
Qed.

Lemma mul_Rnd (a b : float) :
  finite a = true -> finite b = true -> Rnd (B2R a * B2R b) (Prim2SF (a * b)).
Proof.
  intros Fa Fb. rewrite mul_spec, !B2R_finite by assumption.
  apply SFmul_Rnd; try assumption; apply Prim2SF_valid.
Qed.

Lemma div_Rnd (a b : float) :
  finite a = true -> finite b = true -> B2R b <> 0 ->
  Rnd (B2R a / B2R b) (Prim2SF (a / b)).
Proof.
  intros Fa Fb Hb. rewrite div_spec, !B2R_finite by assumption.
  rewrite (B2R_finite b Fb) in Hb. unfold finite in Fb.
  destruct (Prim2SF b) as [sb|sb| |sb mb eb]; try discriminate.
  - now cbn [F2R] in Hb.
  - now apply SFdiv_Rnd.
Qed.

Lemma Rnd_leb (x : R) (r c : float) :
  Rnd x (Prim2SF r) -> finite c = true -> x <= B2R c -> (r <=? c)%float = true.
Proof.
  intros [_ H] Fc Hx. rewrite leb_spec.
  apply (H (Prim2SF c) (Prim2SF_valid c) Fc). now rewrite <- B2R_finite.
Qed.

Lemma Rnd_geb (x : R) (r c : float) :
  Rnd x (Prim2SF r) -> finite c = true -> B2R c <= x -> (c <=? r)%float = true.
Proof.
  intros [_ H] Fc Hx. rewrite leb_spec.
  apply (H (Prim2SF c) (Prim2SF_valid c) Fc). now rewrite <- B2R_finite.
Qed.

Lemma Rnd_finite (x : R) (r lo hi : float) :
  Rnd x (Prim2SF r) -> finite lo = true -> finite hi = true ->
  B2R lo <= x <= B2R hi ->
  finite r = true /\ B2R lo <= B2R r <= B2R hi.
Proof.
  intros HR Flo Fhi Hx. rewrite (B2R_finite lo Flo), (B2R_finite hi Fhi) in *.
  destruct (Rnd_between x _ _ _ HR (Prim2SF_valid lo) Flo (Prim2SF_valid hi) Fhi Hx)
    as [Fr Hr].
  split; [exact Fr|]. now rewrite (B2R_finite r Fr).
Qed.

Lemma B2R_fraction (f : float) (s : bool) (m : positive) (e : Z) (n d : Z) :
  Prim2SF f = S754_finite s m e ->
  numerator s m e = n -> denominator e = d ->
  finite f = true /\ B2R f = IZR n / IZR d.
Proof.
  intros H <- <-. unfold finite, B2R, numerator, denominator. rewrite H.
  split; [reflexivity|]. cbn [ord F2R].
  assert (Hn : (0 < 2 ^ Z.max e 0)%Z) by (apply Z.pow_pos_nonneg; lia).
  assert (Hd : (0 < 2 ^ Z.max (- e) 0)%Z) by (apply Z.pow_pos_nonneg; lia).
  assert (IZR (2 ^ Z.max (- e) 0) <> 0) by (apply not_0_IZR; lia).
  rewrite mult_IZR, <- !bpow_IZR by lia.
  replace e with (Z.max e 0 + - Z.max (- e) 0)%Z at 1 by lia.
  rewrite bpow_add. unfold bpow at 2. rewrite powerRZ_neg'. fold (bpow (Z.max (- e) 0)).
  pose proof (bpow_gt_0 (Z.max (- e) 0)). field. lra.
Qed.

Lemma B2R_zero (f : float) (s : bool) :
  Prim2SF f = S754_zero s -> finite f = true /\ B2R f = 0.
Proof. intros H. unfold finite, B2R. rewrite H. split; reflexivity. Qed.

(** [float_const c] adds the finiteness and the value of the constant [c]. *)
Ltac float_const c :=
  let sf := eval vm_compute in (Prim2SF c) in
  lazymatch sf with
  | S754_finite ?s ?m ?e =>
    let n := eval vm_compute in (numerator s m e) in
    let d := eval vm_compute in (denominator e) in
    let H := fresh "Hc" in
    assert (H : finite c = true /\ B2R c = IZR n / IZR d)
      by (apply (B2R_fraction c s m e); vm_compute; reflexivity);
    destruct H
  | S754_zero ?s =>
    let H := fresh "Hc" in
    assert (H : finite c = true /\ B2R c = 0)
      by (apply (B2R_zero c s); vm_compute; reflexivity);
    destruct H
  end.

(** [lra] after the values of the constants are put in. *)
Ltac flra :=
  repeat match goal with
         | H : B2R ?c = _ |- _ => progress (try rewrite H in *)
         end;
  lra.

End Rounding.

(* ===================================================================== *)
(** * Properties of the flow fingerprint *)
(* ===================================================================== *)

Section Fingerprint.

Import Ingestion.

Lemma all_some_cons {A : Type} (o : option A) (l : list (option A)) :
  all_some (o :: l) =
  match o with
  | Some a => match all_some l with Some r => Some (a :: r) | None => None end
  | None => None
  end.
Proof. destruct o; reflexivity. Qed.

(** The index loop visits the successive pairs of the slice it ranges over. *)
Lemma times_loop_successive (packets : list Packet) :
  forall k i, (i + k < List.length packets)%nat ->
  times_loop packets (seq (S i) k) =
  all_some (successive interarrival (firstn (S k) (skipn i packets))).
Proof.
  induction k as [|k IH]; intros i Hlen.
  - simpl seq. simpl times_loop.
    destruct (skipn i packets) as [|a [|b tl]]; reflexivity.
  - assert (Hi : (i < List.length packets)%nat) by lia.
    assert (Hsi : (S i < List.length packets)%nat) by lia.
    destruct (nth_error packets i) as [a|] eqn:Ea;
      [|apply nth_error_None in Ea; lia].
    destruct (nth_error packets (S i)) as [b|] eqn:Eb;
      [|apply nth_error_None in Eb; lia].
    pose proof (IH (S i) ltac:(lia)) as IHs.
    assert (Hsk : skipn i packets = a :: skipn (S i) packets).
    { clear - Ea. revert i Ea. induction packets as [|p ps IHp]; intros [|i] E;
        simpl in *; try discriminate.
      - now inversion E.
      - apply IHp in E. exact E. }
    assert (Hsk' : exists tl, skipn (S i) packets = b :: tl).
    { clear - Eb. revert i Eb. induction packets as [|p ps IHp]; intros i E.
      - destruct i; discriminate.
      - destruct i as [|i]; simpl in *.
        + destruct ps; [discriminate|]. inversion E; subst. now eexists.
        + apply IHp in E. exact E. }
    destruct Hsk' as [tl Htl].
    change (seq (S i) (S k)) with (S i :: seq (S (S i)) k).
    cbn [times_loop]. rewrite Eb.
    replace (S i - 1)%nat with i by lia. rewrite Ea.
    rewrite IHs, Hsk, Htl.
    change (firstn (S (S k)) (a :: b :: tl)) with (a :: firstn (S k) (b :: tl)).
    change (firstn (S k) (b :: tl)) with (b :: firstn k tl).
    cbn [successive]. rewrite all_some_cons.
    reflexivity.
Qed.




Lemma hex_length (bs : list Z) :
  String.length (Sha256.hex bs) = (2 * List.length bs)%nat.
Proof.
  induction bs as [|b bs IH]; [reflexivity|].
  cbn [Sha256.hex String.length List.length]. rewrite IH. lia.
Qed.

Lemma hexdigest_length (data : list Z) :
  String.length (Sha256.hexdigest data) = 64%nat.
Proof.
  unfold Sha256.hexdigest, Sha256.digest. rewrite hex_length.
  destruct (fold_left _ _ _) as [[[[[[[a b] c] d] e] f] g] h].
  reflexivity.
Qed.

Lemma str_take_length (n : nat) (s : string) :
  (n <= String.length s)%nat -> String.length (Py.str_take n s) = n.
Proof.
  revert s. induction n as [|n IH]; intros s H; [reflexivity|].
  destruct s as [|c s]; simpl in *; [lia|]. rewrite IH; lia.
Qed.

Lemma hash32_length (s : string) : String.length (hash32 s) = 32%nat.
Proof.
  unfold hash32. apply str_take_length. rewrite hexdigest_length. lia.
Qed.

(** The source function computes the fingerprint the specification words. *)
Lemma fingerprint_refines (packets : list Packet) :
  packets <> [] ->
  calculate_flow_fingerprint packets =
  match window_times packets with
  | Some times => Some (hash32 (fingerprint_str (window_sizes packets) times))
  | None => None
  end.
Proof.
  intros Hne. unfold calculate_flow_fingerprint, window_times, window_sizes, window.
  destruct packets as [|p0 ps]; [contradiction|].
  set (packets := p0 :: ps).
  assert (Hloop :
    (if Nat.ltb 1 (List.length packets)
     then times_loop packets (seq 1 (Nat.min (List.length packets) 20 - 1))
     else Some []) =
    all_some (successive interarrival (firstn 20 packets))).
  { destruct (Nat.ltb 1 (List.length packets)) eqn:E.
    - apply Nat.ltb_lt in E.
      rewrite (times_loop_successive packets _ 0) by lia.
      cbn [skipn].
      destruct (Nat.le_gt_cases (List.length packets) 20) as [Hle|Hgt].
      + replace (S (Nat.min (List.length packets) 20 - 1)) with (List.length packets) by lia.
        rewrite firstn_all. now rewrite (firstn_all2 packets Hle).
      + now replace (S (Nat.min (List.length packets) 20 - 1)) with 20%nat by lia.
    - apply Nat.ltb_ge in E. subst packets. cbn [List.length] in E.
      destruct ps; [reflexivity|cbn [List.length] in E; lia]. }
  rewrite Hloop. reflexivity.
Qed.

End Fingerprint.
(* ===================================================================== *)
(** * Properties of the component scores *)
(* ===================================================================== *)

Module Scores.

Import Binary64 Rounding Db Engine.
Local Open Scope float_scope.

Lemma infinity_eq (f : float) : Prim2SF f = S754_infinity false -> f = infinity.
Proof. intros H. apply Prim2SF_inj. rewrite H. reflexivity. Qed.

Lemma neg_infinity_eq (f : float) : Prim2SF f = S754_infinity true -> f = neg_infinity.
Proof. intros H. apply Prim2SF_inj. rewrite H. reflexivity. Qed.



Lemma leb_trans (a b c : float) :
  (a <=? b) = true -> (b <=? c) = true -> (a <=? c) = true.
Proof.
  intros H1 H2. apply leb_B2R in H1 as (Na & Nb & H1).
  apply leb_B2R in H2 as (_ & Nc & H2). apply leb_B2R.
  repeat split; try assumption. lra.
Qed.

Lemma ltb_leb (a b : float) : (a <? b) = true -> (a <=? b) = true.
Proof.
  intros H. apply ltb_B2R in H as (Na & Nb & H). apply leb_B2R.
  repeat split; try assumption. lra.
Qed.

Lemma ltb_not_leb (a b : float) : (a <? b) = true -> (b <=? a) = false.
Proof.
  intros H. apply ltb_B2R in H as (Na & Nb & H).
  destruct (b <=? a) eqn:E; [|reflexivity].
  apply leb_B2R in E as (_ & _ & E). lra.
Qed.


(** A float that is a number is finite or an infinity. *)
Lemma number_cases (f : float) :
  number f = true -> finite f = true \/ f = infinity \/ f = neg_infinity.
Proof.
  unfold number, finite. intros H.
  destruct (Prim2SF f) as [s|[]| |s m e] eqn:E; try discriminate; auto.
  - right. right. now apply neg_infinity_eq.
  - right. left. now apply infinity_eq.
Qed.

(** ** The temporal score *)

Lemma temporal_decay_range (d : float) :
  (0 <=? d) = true ->
  (0 <=? temporal_decay d) = true /\ (temporal_decay d <=? 1) = true.
Proof.
  intros H0. apply leb_B2R in H0 as (_ & Nd & H0).
  float_const 0. float_const 1. float_const 300. float_const 3300.
  float_const 3600. float_const 86400. float_const 0.1.
  destruct (finite d) eqn:Fd.
  2:{ unfold finite, number, B2R in *. pose proof (bpow_gt_0 1024).
      destruct (Prim2SF d) as [s|[]| |s m e] eqn:Ed; try discriminate.
      - cbn [ord] in H0. flra.
      - apply infinity_eq in Ed. subst d. split; reflexivity. }
  unfold temporal_decay.
  destruct (d <=? 300) eqn:E1; [split; reflexivity|].
  apply leb_false_B2R in E1; [|assumption|now apply finite_number].
  destruct (d <=? 3600) eqn:E2.
  - apply leb_B2R in E2 as (_ & _ & E2).
    destruct (Rnd_finite _ _ 0 3300 (sub_Rnd d 300 Fd ltac:(assumption)))
      as [Fa Ha]; try assumption; [flra|].
    destruct (Rnd_finite _ _ 0 1 (div_Rnd (d - 300) 3300 Fa ltac:(assumption) ltac:(flra)))
      as [Fy Hy]; try assumption; [flra|].
    pose proof (sub_Rnd 1 ((d - 300) / 3300) ltac:(assumption) Fy) as Hr.
    split.
    + apply (Rnd_geb _ _ 0 Hr); [assumption|flra].
    + apply (Rnd_leb _ _ 1 Hr); [assumption|flra].
  - apply leb_false_B2R in E2; [|assumption|now apply finite_number].
    destruct (Rnd_finite _ _ 0 d (div_Rnd d 86400 Fd ltac:(assumption) ltac:(flra)))
      as [Fy Hy]; try assumption; [flra|].
    pose proof (sub_Rnd 1 (d / 86400) ltac:(assumption) Fy) as Hr.
    assert (Hle : (1 - d / 86400 <=? 1) = true).
    { apply (Rnd_leb _ _ 1 Hr); [assumption|flra]. }
    unfold Py.max. destruct (0.1 <? 1 - d / 86400) eqn:E3.
    + split; [|exact Hle].
      apply ltb_B2R in E3 as (_ & Nz & E3).
      apply leb_B2R. split; [now apply finite_number|]. split; [exact Nz|]. flra.
    + split; reflexivity.
Qed.

(** Beyond one hour the score stays at or above the floor. *)
Lemma temporal_decay_floor (d : float) :
  (3600 <? d) = true -> (0.1 <=? temporal_decay d) = true.
Proof.
  intros H. unfold temporal_decay.
  float_const 300. float_const 3600.
  pose proof (ltb_not_leb _ _ H) as E2.
  apply ltb_B2R in H as (_ & Nd & H).
  assert (E1 : (d <=? 300) = false).
  { destruct (d <=? 300) eqn:E; [|reflexivity].
    apply leb_B2R in E as (_ & _ & E). flra. }
  rewrite E1, E2. unfold Py.max.
  destruct (0.1 <? 1 - d / 86400) eqn:E3; [now apply ltb_leb|reflexivity].
Qed.


(** ** Conversions *)

Lemma Rnd_not_nan (x : R) (r : spec_float) : Rnd x r -> not_nan r = true.
Proof.
  intros [_ H]. destruct (H (S754_zero false) eq_refl eq_refl) as [H1 H2].
  destruct r; try reflexivity. cbn [F2R] in *.
  destruct (Rle_lt_dec x 0) as [Hx|Hx].
  - specialize (H1 Hx). discriminate.
  - specialize (H2 (Rlt_le _ _ Hx)). discriminate.
Qed.

Lemma F2R_of_Z (z : Z) : F2R (Py.SF_of_Z z) = IZR z.
Proof.
  destruct z; cbn [Py.SF_of_Z F2R cond_Zopp]; unfold bpow; cbn [powerRZ];
    rewrite ?Rmult_1_r; reflexivity.
Qed.

(** The spec-level quotient of two integers, as a primitive float. *)
Lemma quotient_Rnd (a b : Z) :
  b <> 0%Z ->
  Rnd (IZR a / IZR b) (SF64div (Py.SF_of_Z a) (Py.SF_of_Z b)) /\
  Prim2SF (SF2Prim (SF64div (Py.SF_of_Z a) (Py.SF_of_Z b)))
    = SF64div (Py.SF_of_Z a) (Py.SF_of_Z b).
Proof.
  intros Hb.
  assert (HR : Rnd (IZR a / IZR b) (SF64div (Py.SF_of_Z a) (Py.SF_of_Z b))).
  { rewrite <- (F2R_of_Z a), <- (F2R_of_Z b). unfold SF64div.
    destruct b as [|p|p]; [contradiction| |]; cbn [Py.SF_of_Z];
      apply SFdiv_Rnd; destruct a; reflexivity. }
  split; [exact HR|]. apply Prim2SF_SF2Prim. apply HR.
Qed.

Lemma truediv_spec (a b : Z) (u : float) :
  Py.truediv a b = Some u ->
  b <> 0%Z /\ finite u = true /\ Rnd (IZR a / IZR b) (Prim2SF u).
Proof.
  unfold Py.truediv. intros H.
  assert (Hb : b <> 0%Z) by (destruct b; [discriminate|lia|lia]).
  split; [exact Hb|].
  destruct (quotient_Rnd a b Hb) as [HR HP].
  pose proof (Rnd_not_nan _ _ HR) as Hn.
  assert (E : match SF64div (Py.SF_of_Z a) (Py.SF_of_Z b) with
              | S754_infinity _ => None
              | r => Some (SF2Prim r)
              end = Some u) by (destruct b; [contradiction|exact H|exact H]).
  unfold finite.
  remember (SF64div (Py.SF_of_Z a) (Py.SF_of_Z b)) as r eqn:Er.
  assert (Hu : Some (SF2Prim r) = Some u /\ is_finite_SF r = true).
  { destruct r as [s|s| |s m e]; try discriminate; split; try reflexivity; exact E. }
  destruct Hu as [Hu Fr]. injection Hu as <-. rewrite HP. split; [exact Fr|exact HR].
Qed.

Lemma abs_nonneg (d : float) : number d = true -> (0 <=? abs d) = true.
Proof.
  unfold number. intros H. rewrite leb_spec, abs_spec.
  change (Prim2SF 0) with (S754_zero false).
  destruct (Prim2SF d) as [s|s| |s m e]; try discriminate; reflexivity.
Qed.

Lemma calculate_temporal_score_range (flow_timestamp node_last_seen : option Z) :
  (0 <=? calculate_temporal_score flow_timestamp node_last_seen) = true /\
  (calculate_temporal_score flow_timestamp node_last_seen <=? 1) = true.
Proof.
  unfold calculate_temporal_score.
  destruct flow_timestamp as [t|], node_last_seen as [l|]; try (split; reflexivity).
  unfold total_seconds.
  destruct (Py.truediv (t - l) 1000000) as [d|] eqn:E; [|split; reflexivity].
  apply truediv_spec in E as (_ & Fd & _).
  apply temporal_decay_range, abs_nonneg. now apply finite_number.
Qed.

(** ** Upper bounds through the operations *)

Lemma bpow_1024_gt (x : R) : (x <= bpow 1023)%R -> (x < bpow 1024)%R.
Proof. intros H. pose proof (bpow_lt 1023 1024 ltac:(lia)). lra. Qed.

(** A number at most a finite one is finite or the negative infinity. *)
Lemma below_cases (a c : float) :
  (a <=? c) = true -> finite c = true ->
  (finite a = true /\ (B2R a <= B2R c)%R) \/ a = neg_infinity.
Proof.
  intros H Fc. apply leb_B2R in H as (Na & _ & H).
  destruct (number_cases a Na) as [Fa|[->| ->]]; auto.
  exfalso. unfold B2R at 1 in H. change (Prim2SF infinity) with (S754_infinity false) in H.
  cbn [ord] in H. rewrite (B2R_finite c Fc) in H.
  pose proof (finite_range _ (Prim2SF_valid c) Fc). lra.
Qed.

Lemma neg_infinity_le (c : float) : number c = true -> (neg_infinity <=? c) = true.
Proof.
  unfold number. intros H. rewrite leb_spec.
  change (Prim2SF neg_infinity) with (S754_infinity true).
  destruct (Prim2SF c) as [s|[]| |s m e]; try discriminate; reflexivity.
Qed.

Lemma add_neg_infinity_l (b : float) :
  number b = true -> b <> infinity -> neg_infinity + b = neg_infinity.
Proof.
  unfold number. intros Nb Hb. apply Prim2SF_inj. rewrite add_spec.
  change (Prim2SF neg_infinity) with (S754_infinity true).
  destruct (Prim2SF b) as [s|[]| |s m e] eqn:E; try discriminate; try reflexivity.
  exfalso. apply Hb. now apply infinity_eq.
Qed.

Lemma add_neg_infinity_r (a : float) :
  number a = true -> a <> infinity -> a + neg_infinity = neg_infinity.
Proof.
  unfold number. intros Na Ha. apply Prim2SF_inj. rewrite add_spec.
  change (Prim2SF neg_infinity) with (S754_infinity true).
  destruct (Prim2SF a) as [s|[]| |s m e] eqn:E; try discriminate; try reflexivity.
  exfalso. apply Ha. now apply infinity_eq.
Qed.

Lemma finite_not_infinity (a : float) : finite a = true -> a <> infinity.
Proof. intros H ->. discriminate. Qed.

Lemma add_le (a b ca cb c : float) :
  (a <=? ca) = true -> (b <=? cb) = true ->
  finite ca = true -> finite cb = true -> finite c = true ->
  (B2R ca + B2R cb <= B2R c)%R ->
  (a + b <=? c) = true.
Proof.
  intros Ha Hb Fca Fcb Fc H.
  destruct (below_cases a ca Ha Fca) as [[Fa La]| ->];
  destruct (below_cases b cb Hb Fcb) as [[Fb Lb]| ->].
  - apply (Rnd_leb _ _ c (add_Rnd a b Fa Fb) Fc). lra.
  - rewrite add_neg_infinity_r;
      [apply neg_infinity_le; now apply finite_number
      |now apply finite_number|now apply finite_not_infinity].
  - rewrite add_neg_infinity_l;
      [apply neg_infinity_le; now apply finite_number
      |now apply finite_number|now apply finite_not_infinity].
  - rewrite add_neg_infinity_l;
      [apply neg_infinity_le; now apply finite_number|reflexivity|discriminate].
Qed.

Lemma mul_neg_infinity (k : float) :
  finite k = true -> (0 < B2R k)%R -> neg_infinity * k = neg_infinity.
Proof.
  intros Fk Hk. apply Prim2SF_inj. rewrite mul_spec.
  rewrite (B2R_finite k Fk) in Hk. unfold finite in Fk.
  change (Prim2SF neg_infinity) with (S754_infinity true).
  destruct (Prim2SF k) as [s|s| |s m e]; try discriminate; cbn [F2R] in Hk; [lra|].
  destruct s; [|reflexivity].
  exfalso. cbn [cond_Zopp] in Hk. pose proof (pos_value_gt_0 m e).
  change (Z.neg m) with (- Z.pos m)%Z in Hk. rewrite opp_IZR in Hk. lra.
Qed.

Lemma mul_le (a ca k c : float) :
  (a <=? ca) = true -> finite ca = true -> finite k = true -> (0 < B2R k)%R ->
  finite c = true -> (B2R ca * B2R k <= B2R c)%R ->
  (a * k <=? c) = true.
Proof.
  intros Ha Fca Fk Hk Fc H.
  destruct (below_cases a ca Ha Fca) as [[Fa La]| ->].
  - apply (Rnd_leb _ _ c (mul_Rnd a k Fa Fk) Fc). nra.
  - rewrite mul_neg_infinity by assumption.
    apply neg_infinity_le. now apply finite_number.
Qed.

(** [1 - y] is at most [1] for a [y] that is not negative. *)
Lemma one_minus_le (y : float) : (0 <=? y) = true -> (1 - y <=? 1) = true.
Proof.
  intros H. apply leb_B2R in H as (_ & Ny & H).
  float_const 0. float_const 1.
  destruct (number_cases y Ny) as [Fy|[->| ->]].
  - apply (Rnd_leb _ _ 1 (sub_Rnd 1 y ltac:(assumption) Fy)); [assumption|flra].
  - reflexivity.
  - exfalso. unfold B2R at 2 in H.
    change (Prim2SF neg_infinity) with (S754_infinity true) in H. cbn [ord] in H.
    pose proof (bpow_gt_0 1024). flra.
Qed.

(** ** The bandwidth score *)

Lemma bandwidth_of_utilization_le (u : float) :
  finite u = true -> (bandwidth_of_utilization u <=? 1) = true.
Proof.
  intros Fu. unfold bandwidth_of_utilization.
  pose proof (finite_number u Fu) as Nu.
  float_const 0. float_const 1. float_const 0.1. float_const 0.8. float_const 0.2.
  destruct ((0.1 <=? u) && (u <=? 0.8)) eqn:E1; [reflexivity|].
  destruct (u <? 0.1) eqn:E2.
  - apply ltb_B2R in E2 as (_ & _ & E2).
    apply (Rnd_leb _ _ 1 (div_Rnd u 0.1 Fu ltac:(assumption) ltac:(flra)));
      [assumption|flra].
  - apply ltb_false_B2R in E2; [|assumption|now apply finite_number].
    assert (E3 : (u <=? 0.8) = false).
    { destruct (0.1 <=? u) eqn:E; [exact E1|].
      apply leb_false_B2R in E; [flra|now apply finite_number|assumption]. }
    apply leb_false_B2R in E3; [|assumption|now apply finite_number].
    destruct (Rnd_finite _ _ 0 u (sub_Rnd u 0.8 Fu ltac:(assumption)))
      as [Fa Ha]; try assumption; [flra|].
    assert (Hy : (0 <=? (u - 0.8) / 0.2) = true).
    { apply (Rnd_geb _ _ 0 (div_Rnd (u - 0.8) 0.2 Fa ltac:(assumption) ltac:(flra)));
        [assumption|flra]. }
    apply one_minus_le in Hy.
    unfold Py.max. destruct (0.2 <? 1 - (u - 0.8) / 0.2); [exact Hy|reflexivity].
Qed.

Lemma calculate_bandwidth_score_le (flow_byte_count node_bandwidth_kb : option Z) :
  (calculate_bandwidth_score flow_byte_count node_bandwidth_kb <=? 1) = true.
Proof.
  unfold calculate_bandwidth_score.
  destruct node_bandwidth_kb as [kb|]; [|reflexivity].
  destruct (kb * 1024 =? 0)%Z; [reflexivity|].
  destruct flow_byte_count as [bytes|]; [|reflexivity].
  destruct (Py.truediv bytes (kb * 1024)) as [u|] eqn:E; [|reflexivity].
  apply truediv_spec in E as (_ & Fu & _).
  now apply bandwidth_of_utilization_le.
Qed.


(** ** Rounding to decimals *)

Lemma half_even_scaled_bounds (M e N : Z) :
  (0 <= M)%Z ->
  (0 <= Py.round_half_even_scaled M e)%Z /\
  ((IZR M * bpow e < IZR N + / 2)%R -> (Py.round_half_even_scaled M e <= N)%Z).
Proof.
  intros HM. unfold Py.round_half_even_scaled.
  assert (Hint : forall k : Z, (IZR k < IZR N + / 2)%R -> (k <= N)%Z).
  { intros k Hk. assert (IZR k < IZR (N + 1))%R by (rewrite plus_IZR; lra).
    apply lt_IZR in H. lia. }
  destruct e as [|p|p].
  - rewrite Z.shiftl_0_r. split; [exact HM|].
    unfold bpow. cbn [powerRZ]. rewrite Rmult_1_r. apply Hint.
  - rewrite Z.shiftl_mul_pow2 by lia.
    assert (0 < 2 ^ Z.pos p)%Z by (apply Z.pow_pos_nonneg; lia).
    split; [nia|]. rewrite (bpow_IZR (Z.pos p)), <- mult_IZR by lia. apply Hint.
  - change (Z.pow_pos 2 p) with (2 ^ Z.pos p)%Z.
    assert (Hd : (0 < 2 ^ Z.pos p)%Z) by (apply Z.pow_pos_nonneg; lia).
    set (d := (2 ^ Z.pos p)%Z) in *.
    pose proof (Z.div_mod M d ltac:(lia)) as Hdm.
    pose proof (Z.mod_pos_bound M d Hd) as Hr.
    assert (Hq : (0 <= M / d)%Z) by (apply Z.div_pos; lia).
    set (q := (M / d)%Z) in *. set (r := (M mod d)%Z) in *.
    assert (Hb : bpow (Z.neg p) = (/ IZR d)%R).
    { replace (Z.neg p) with (- Z.pos p)%Z by lia. unfold bpow.
      rewrite powerRZ_neg'. fold (bpow (Z.pos p)). now rewrite bpow_IZR by lia. }
    rewrite Hb.
    assert (HD : (0 < IZR d)%R) by (apply IZR_lt; lia).
    assert (HM' : (IZR M = IZR d * IZR q + IZR r)%R).
    { rewrite <- mult_IZR, <- plus_IZR. now f_equal. }
    assert (Hv : (IZR M * / IZR d = IZR q + IZR r * / IZR d)%R).
    { rewrite HM'. field. lra. }
    rewrite Hv.
    assert (Hr0 : (0 <= IZR r * / IZR d)%R).
    { apply Rmult_le_pos; [apply IZR_le; lia|]. apply Rlt_le, Rinv_0_lt_compat, HD. }
    assert (Hup : (IZR q + / 2 <= IZR q + IZR r * / IZR d)%R ->
                  (IZR q + IZR r * / IZR d < IZR N + / 2)%R -> (q + 1 <= N)%Z).
    { intros H1 H2. assert (IZR q < IZR N)%R by lra. apply lt_IZR in H. lia. }
    assert (Hhalf : (d <= 2 * r)%Z -> (/ 2 <= IZR r * / IZR d)%R).
    { intros H. apply IZR_le in H. rewrite mult_IZR in H.
      apply (Rmult_le_reg_r (IZR d)); [exact HD|].
      rewrite Rmult_assoc, Rinv_l by lra. lra. }
    destruct (Z.compare_spec (2 * r) d) as [E|E|E].
    + destruct (Z.even q).
      * split; [exact Hq|]. intros H. apply Hint. lra.
      * split; [lia|]. intros H. apply Hup; [|exact H].
        specialize (Hhalf ltac:(lia)). lra.
    + split; [exact Hq|]. intros H. apply Hint. lra.
    + split; [lia|]. intros H. apply Hup; [|exact H].
      specialize (Hhalf ltac:(lia)). lra.
Qed.

Lemma pow10_pos (nd : nat) : (0 < 10 ^ Z.of_nat nd)%Z.
Proof. apply Z.pow_pos_nonneg; lia. Qed.

(** The rounded decimal, as a spec-level number: its value and validity. *)
Lemma round_finite_spec (s : bool) (m : positive) (e : Z) (nd : nat) :
  let p := (10 ^ Z.of_nat nd)%Z in
  let n := Py.round_half_even_scaled (Z.pos m * p) e in
  let q := SF64div (Py.SF_of_Z n) (Py.SF_of_Z p) in
  Rnd (if s then - (IZR n / IZR p) else IZR n / IZR p)%R (if s then SFopp q else q) /\
  Prim2SF (SF2Prim (if s then SFopp q else q)) = (if s then SFopp q else q).
Proof.
  intros p n q. pose proof (pow10_pos nd) as Hp. fold p in Hp.
  destruct (quotient_Rnd n p ltac:(lia)) as [HR _]. fold q in HR.
  assert (HR' : Rnd (if s then - (IZR n / IZR p) else IZR n / IZR p)%R
                    (if s then SFopp q else q)).
  { destruct s; [now apply Rnd_opp|exact HR]. }
  split; [exact HR'|]. apply Prim2SF_SF2Prim. apply HR'.
Qed.


(** A float at most [c] rounds to at most [N / 10^nd] when [c * 10^nd] is
    below [N + 1/2]. *)
Lemma round_le (x c hi : float) (nd : nat) (N : Z) :
  (x <=? c) = true -> finite c = true -> finite hi = true ->
  (B2R c * IZR (10 ^ Z.of_nat nd) < IZR N + / 2)%R ->
  (IZR N / IZR (10 ^ Z.of_nat nd) <= B2R hi)%R ->
  (0 <= B2R hi)%R ->
  (Py.round x nd <=? hi) = true.
Proof.
  intros Hx Fc Fhi Hc HN H0.
  pose proof (pow10_pos nd) as Hp. apply IZR_lt in Hp.
  destruct (below_cases x c Hx Fc) as [[Fx Lx]| ->];
    [|apply neg_infinity_le; now apply finite_number].
  rewrite (B2R_finite x Fx) in Lx. unfold finite in Fx.
  unfold Py.round. rewrite leb_spec.
  destruct (Prim2SF x) as [s|s| |s m e] eqn:E; try discriminate.
  - rewrite E. apply SFleb_F2R; try reflexivity; try apply Prim2SF_valid; try exact Fhi.
    rewrite <- (B2R_finite hi Fhi). cbn [F2R]. exact H0.
  - destruct (round_finite_spec s m e nd) as [HR HP]. cbv zeta in HR, HP.
    rewrite HP. destruct HR as [_ HR].
    apply (HR (Prim2SF hi) (Prim2SF_valid hi) Fhi).
    rewrite <- (B2R_finite hi Fhi).
    destruct (half_even_scaled_bounds (Z.pos m * 10 ^ Z.of_nat nd) e N ltac:(lia))
      as [Hn0 HnN].
    set (n := Py.round_half_even_scaled (Z.pos m * 10 ^ Z.of_nat nd) e) in *.
    set (p := IZR (10 ^ Z.of_nat nd)) in *.
    assert (Hq0 : (0 <= IZR n / p)%R).
    { apply Rmult_le_pos; [apply IZR_le; lia|]. apply Rlt_le, Rinv_0_lt_compat, Hp. }
    destruct s; [lra|].
    cbn [F2R cond_Zopp] in Lx.
    assert (Hn : (n <= N)%Z).
    { apply HnN. rewrite mult_IZR. fold p.
      pose proof (bpow_gt_0 e).
      replace (IZR (Z.pos m) * p * bpow e)%R with (IZR (Z.pos m) * bpow e * p)%R by ring.
      nra. }
    apply IZR_le in Hn.
    apply Rle_trans with (IZR N / p)%R; [|exact HN].
    unfold Rdiv. apply Rmult_le_compat_r; [|exact Hn].
    apply Rlt_le, Rinv_0_lt_compat, Hp.
Qed.

(** ** The weighted confidence *)

Lemma weighted_confidence_le (t b : float) :
  (t <=? 1) = true -> (b <=? 1) = true ->
  (weighted_confidence t b 0.5 <=? 0.9000000000000001) = true.
Proof.
  intros Ht Hb. unfold weighted_confidence.
  float_const 1. float_const 0.5. float_const 0.3. float_const 0.8.
  float_const 0.1. float_const 0.9000000000000001.
  assert (P1 : (t * 0.5 <=? 0.5) = true).
  { apply (mul_le t 1 0.5 0.5); try assumption; flra. }
  assert (P2 : (b * 0.3 <=? 0.3) = true).
  { apply (mul_le b 1 0.3 0.3); try assumption; flra. }
  assert (P3 : (t * 0.5 + b * 0.3 <=? 0.8) = true).
  { apply (add_le _ _ 0.5 0.3 0.8); try assumption. flra. }
  change (0.5 * 0.2) with 0.1.
  apply (add_le _ _ 0.8 0.1 0.9000000000000001); try assumption; try reflexivity.
  flra.
Qed.

(** The persisted confidence of a candidate scored against an empty
    history is at most [0.9]. *)
Lemma rounded_confidence_le (t b : float) :
  (t <=? 1) = true -> (b <=? 1) = true ->
  (Py.round (weighted_confidence t b 0.5) 4 <=? 0.9) = true.
Proof.
  intros Ht Hb.
  float_const 0.9. float_const 0.9000000000000001.
  apply (round_le _ 0.9000000000000001 0.9 4 9000 (weighted_confidence_le t b Ht Hb));
    try assumption; change (10 ^ Z.of_nat 4)%Z with 10000%Z; flra.
Qed.

(** ** The pattern score *)

Lemma calculate_pattern_score_no_history (flow_fingerprint : string) :
  calculate_pattern_score flow_fingerprint [] = 0.5.
Proof. now destruct flow_fingerprint. Qed.


(** True division by a non-zero integer overflows only on a huge dividend. *)
Lemma truediv_some (a b : Z) :
  b <> 0%Z -> (Z.abs a <= 2 ^ 1023)%Z -> exists u, Py.truediv a b = Some u.
Proof.
  intros Hb Ha.
  destruct (quotient_Rnd a b Hb) as [[Vr HR] _].
  assert (Hq : (- IZR (2 ^ 1023) <= IZR a / IZR b <= IZR (2 ^ 1023))%R).
  { assert (H1 : (1 <= Rabs (IZR b))%R) by (rewrite <- abs_IZR; apply IZR_le; lia).
    assert (H2 : (Rabs (IZR a) <= IZR (2 ^ 1023))%R)
      by (rewrite <- abs_IZR; apply IZR_le; lia).
    assert (H3 : (Rabs (IZR a / IZR b) <= Rabs (IZR a))%R).
    { unfold Rdiv. rewrite Rabs_mult, Rabs_inv.
      rewrite <- (Rmult_1_r (Rabs (IZR a))) at 2.
      apply Rmult_le_compat_l; [apply Rabs_pos|].
      rewrite <- Rinv_1. apply Rinv_le_contravar; [lra|exact H1]. }
    unfold Rabs in H3 at 1. destruct (Rcase_abs (IZR a / IZR b)); lra. }
  set (hi := S754_finite false 4503599627370496 971).
  set (lo := S754_finite true 4503599627370496 971).
  assert (Ehi : F2R hi = IZR (2 ^ 1023)).
  { unfold hi. cbn [F2R cond_Zopp]. rewrite (bpow_IZR 971), <- mult_IZR by lia.
    reflexivity. }
  assert (Elo : F2R lo = (- IZR (2 ^ 1023))%R).
  { unfold lo. cbn [F2R cond_Zopp]. rewrite (bpow_IZR 971), <- mult_IZR, <- opp_IZR by lia.
    reflexivity. }
  destruct (HR hi eq_refl eq_refl) as [Hup _].
  destruct (HR lo eq_refl eq_refl) as [_ Hlow].
  rewrite Ehi in Hup. rewrite Elo in Hlow.
  specialize (Hup (proj2 Hq)). specialize (Hlow (proj1 Hq)).
  unfold Py.truediv.
  assert (E : exists u, match SF64div (Py.SF_of_Z a) (Py.SF_of_Z b) with
                        | S754_infinity _ => None
                        | r => Some (SF2Prim r)
                        end = Some u).
  { destruct (SF64div (Py.SF_of_Z a) (Py.SF_of_Z b)) as [s|[]| |s m e];
      try (eexists; reflexivity); discriminate. }
  destruct b; [contradiction|exact E|exact E].
Qed.

End Scores.
(* ===================================================================== *)
(** * Properties of the correlation passes *)
(* ===================================================================== *)

Module Pass.

Import Binary64 Rounding Scores Db Engine.

(** ** The store *)

Lemma add_rows_nil (s : Store) : add_rows [] s = s.
Proof. destruct s. unfold add_rows. cbn. now rewrite app_nil_r. Qed.

Lemma add_rows_app (r1 r2 : list Correlation) (s : Store) :
  add_rows r2 (add_rows r1 s) = add_rows (r1 ++ r2) s.
Proof. unfold add_rows. cbn. now rewrite app_assoc. Qed.

Lemma flow_rows_add_rows (cfg : Config) (rows : list Correlation) (s : Store) (id : Z) :
  flow_rows cfg (add_rows rows s) id = flow_rows cfg s id.
Proof. reflexivity. Qed.

Lemma has_correlation_add_rows (rows : list Correlation) (s : Store) (id : Z) :
  has_correlation (add_rows rows s) id =
  has_correlation s id || existsb (fun c => Z.eqb (corr_flow_id c) id) rows.
Proof. unfold has_correlation, add_rows. cbn. apply existsb_app. Qed.

Lemma correlation_data_flow_id (cfg : Config) (id : Z) (dst : string) (node : TorNode)
    (sc : float * float * float) :
  corr_flow_id (correlation_data cfg id dst node sc) = id.
Proof. now destruct sc as [[t b] p]. Qed.

Lemma kept_rows_flow_id (cfg : Config) (id : Z) (flow : Flow) (nodes : list TorNode) :
  Forall (fun c => corr_flow_id c = id) (kept_rows cfg id flow nodes).
Proof.
  unfold kept_rows. apply Forall_forall. intros c Hc.
  apply in_map_iff in Hc as (node & <- & _). apply correlation_data_flow_id.
Qed.

Lemma flow_rows_flow_id (cfg : Config) (s : Store) (id : Z) :
  Forall (fun c => corr_flow_id c = id) (flow_rows cfg s id).
Proof.
  unfold flow_rows. destruct (select_flow id s) as [flow|]; [|constructor].
  destruct (select_exit (dst_ip flow) s); [|constructor].
  destruct (timestamp flow); [|constructor].
  apply kept_rows_flow_id.
Qed.

Lemma kept_rows_cons (cfg : Config) (id : Z) (flow : Flow) (node : TorNode)
    (nodes : list TorNode) :
  kept_rows cfg id flow (node :: nodes) =
  let sc := scores (timestamp flow) (byte_count flow) (flow_fingerprint flow) node in
  if above_threshold cfg sc
  then correlation_data cfg id (dst_ip flow) node sc :: kept_rows cfg id flow nodes
  else kept_rows cfg id flow nodes.
Proof.
  unfold kept_rows. cbn [filter]. cbv zeta.
  now destruct (above_threshold cfg _).
Qed.

(** ** A datastore that does not fail *)

Lemma transaction_ok {A : Type} (f : Store -> A * Store) (s : Store) :
  transaction f {| store := s; faults := [] |} =
  (Some (fst (f s)), {| store := snd (f s); faults := [] |}).
Proof. unfold transaction. cbn. now destruct (f s). Qed.

Lemma guard_loop_ok (cfg : Config) (id : Z) (flow : Flow) (nodes : list TorNode) :
  forall (acc : list Correlation) (s : Store),
  guard_loop cfg id (timestamp flow) (byte_count flow) (flow_fingerprint flow)
    (dst_ip flow) nodes acc {| store := s; faults := [] |} =
  (Some (acc ++ kept_rows cfg id flow nodes),
   {| store := add_rows (kept_rows cfg id flow nodes) s; faults := [] |}).
Proof.
  induction nodes as [|node nodes IH]; intros acc s.
  - cbn. now rewrite app_nil_r, add_rows_nil.
  - rewrite kept_rows_cons. cbn [guard_loop]. cbv zeta.
    destruct (above_threshold cfg _) eqn:E.
    + unfold bind, insert_correlation. rewrite transaction_ok. cbn [fst snd].
      rewrite IH. rewrite <- app_assoc. cbn [app].
      change (insert_row ?c s) with (add_rows [c] s).
      now rewrite add_rows_app.
    + apply IH.
Qed.

Lemma correlate_ok (cfg : Config) (id : Z) (s : Store) :
  correlate_flow_to_guards cfg id {| store := s; faults := [] |} =
  (Some (firstn (MAX_CANDIDATE_NODES cfg) (sort_desc (flow_rows cfg s id))),
   {| store := add_rows (flow_rows cfg s id) s; faults := [] |}).
Proof.
  unfold correlate_flow_to_guards, try_except, correlate_body, bind, query, flow_rows.
  rewrite transaction_ok. cbn [fst snd].
  destruct (select_flow id s) as [flow|].
  2:{ cbn. now rewrite firstn_nil, add_rows_nil. }
  rewrite transaction_ok. cbn [fst snd].
  destruct (select_exit (dst_ip flow) s) as [exit_node|].
  2:{ cbn. now rewrite firstn_nil, add_rows_nil. }
  destruct (timestamp flow) as [ts|] eqn:Ets.
  2:{ cbn. now rewrite firstn_nil, add_rows_nil. }
  cbn [ret]. unfold get_guard_nodes, query. rewrite transaction_ok. cbn [fst snd].
  rewrite <- Ets. rewrite guard_loop_ok. reflexivity.
Qed.

(** The rows of a whole batch over the flows [ids]. *)
Lemma batch_loop_ok (cfg : Config) (s0 : Store) (ids : list Z) :
  forall (total : nat) (rows : list Correlation),
  batch_loop cfg ids total {| store := add_rows rows s0; faults := [] |} =
  (Some (total + list_sum (map (fun id =>
            List.length (firstn (MAX_CANDIDATE_NODES cfg)
                           (sort_desc (flow_rows cfg s0 id)))) ids)),
   {| store := add_rows (rows ++ flat_map (flow_rows cfg s0) ids) s0; faults := [] |}).
Proof.
  induction ids as [|id ids IH]; intros total rows.
  - cbn. now rewrite Nat.add_0_r, app_nil_r.
  - cbn [batch_loop]. unfold bind. rewrite correlate_ok.
    rewrite flow_rows_add_rows, add_rows_app, IH.
    cbn [map list_sum flat_map fold_right]. rewrite <- app_assoc.
    fold (list_sum (map (fun id0 : Z =>
            List.length (firstn (MAX_CANDIDATE_NODES cfg)
                           (sort_desc (flow_rows cfg s0 id0)))) ids)).
    now rewrite Nat.add_assoc.
Qed.

Lemma correlate_all_ok (cfg : Config) (s : Store) :
  correlate_all_flows cfg {| store := s; faults := [] |} =
  (Some (Totals (List.length (select_uncorrelated s))
           (list_sum (map (fun id =>
              List.length (firstn (MAX_CANDIDATE_NODES cfg)
                             (sort_desc (flow_rows cfg s id)))) (select_uncorrelated s)))),
   {| store := add_rows (flat_map (flow_rows cfg s) (select_uncorrelated s)) s;
      faults := [] |}).
Proof.
  unfold correlate_all_flows, try_except, bind, query.
  rewrite transaction_ok. cbn [fst snd].
  pose proof (batch_loop_ok cfg s (select_uncorrelated s) 0 []) as H.
  rewrite add_rows_nil in H. rewrite H. reflexivity.
Qed.


(** ** The batch pass run again *)

Lemma in_select_uncorrelated (s : Store) (id : Z) :
  In id (select_uncorrelated s) <->
  (exists f, In f (network_flows s) /\ flow_id f = id) /\ has_correlation s id = false.
Proof.
  unfold select_uncorrelated. rewrite in_map_iff. split.
  - intros (f & <- & Hf). apply filter_In in Hf as [Hin Hc].
    apply negb_true_iff in Hc. split; [now exists f|exact Hc].
  - intros [(f & Hin & <-) Hc]. exists f. split; [reflexivity|].
    apply filter_In. split; [exact Hin|]. now apply negb_true_iff.
Qed.

(** A flow still without a row after a batch is a flow the batch gave no
    row. *)
Lemma uncorrelated_after_batch (cfg : Config) (s : Store) (id : Z) :
  In id (select_uncorrelated
           (add_rows (flat_map (flow_rows cfg s) (select_uncorrelated s)) s)) ->
  flow_rows cfg s id = [].
Proof.
  intros H. apply in_select_uncorrelated in H as [Hf Hc].
  rewrite has_correlation_add_rows in Hc. apply orb_false_iff in Hc as [Hc1 Hc2].
  assert (Hin : In id (select_uncorrelated s)).
  { apply in_select_uncorrelated. split; assumption. }
  destruct (flow_rows cfg s id) as [|c rows] eqn:E; [reflexivity|exfalso].
  assert (Hcid : corr_flow_id c = id).
  { pose proof (flow_rows_flow_id cfg s id) as HF. rewrite E in HF.
    now inversion HF. }
  assert (Hex : existsb (fun c0 => Z.eqb (corr_flow_id c0) id)
                  (flat_map (flow_rows cfg s) (select_uncorrelated s)) = true).
  { apply existsb_exists. exists c. split; [|now apply Z.eqb_eq].
    apply in_flat_map. exists id. split; [exact Hin|]. rewrite E. now left. }
  congruence.
Qed.

Lemma flat_map_nil {A B : Type} (f : A -> list B) (l : list A) :
  (forall a, In a l -> f a = []) -> flat_map f l = [].
Proof.
  induction l as [|a l IH]; intros H; [reflexivity|].
  cbn [flat_map]. rewrite (H a (or_introl eq_refl)), IH; [reflexivity|].
  intros b Hb. apply H. now right.
Qed.

Lemma list_sum_zero {A : Type} (f : A -> nat) (l : list A) :
  (forall a, In a l -> f a = 0%nat) -> list_sum (map f l) = 0%nat.
Proof.
  induction l as [|a l IH]; intros H; [reflexivity|].
  cbn [map list_sum fold_right]. rewrite (H a (or_introl eq_refl)).
  apply IH. intros b Hb. apply H. now right.
Qed.

(** ** The sort *)

Lemma insert_desc_perm (c : Correlation) (l : list Correlation) :
  Permutation (insert_desc c l) (c :: l).
Proof.
  induction l as [|d l IH]; [reflexivity|]. cbn [insert_desc].
  destruct (PrimFloat.ltb (confidence_score c) (confidence_score d)).
  - rewrite IH. apply perm_swap.
  - reflexivity.
Qed.

Lemma sort_desc_perm (l : list Correlation) : Permutation (sort_desc l) l.
Proof.
  induction l as [|c l IH]; [reflexivity|].
  unfold sort_desc in *. cbn [fold_right]. rewrite insert_desc_perm.
  now constructor.
Qed.




Lemma firstn_incl {A : Type} (n : nat) (l : list A) (x : A) :
  In x (firstn n l) -> In x l.
Proof.
  revert n. induction l as [|a l IH]; intros [|n] H; cbn in *; try contradiction.
  destruct H as [->|H]; [now left|right; now apply (IH n)].
Qed.





(** ** A datastore that may fail *)

Lemma transaction_any {A : Type} (f : Store -> A * Store) (w : World) :
  (fst (transaction f w) = None /\ store (snd (transaction f w)) = store w) \/
  (fst (transaction f w) = Some (fst (f (store w))) /\
   store (snd (transaction f w)) = snd (f (store w))).
Proof.
  unfold transaction. destruct (faults w) as [|[|] rest]; destruct (f (store w));
    cbn; auto.
Qed.

Lemma query_any {A : Type} (q : Store -> A) (w : World) :
  store (snd (query q w)) = store w /\
  (fst (query q w) = None \/ fst (query q w) = Some (q (store w))).
Proof.
  unfold query. destruct (transaction_any (fun s => (q s, s)) w) as [[H1 H2]|[H1 H2]];
    cbn [fst snd] in *; auto.
Qed.

(** The loop inserts a prefix of the kept rows: all of them when it ends,
    fewer when an insertion fails. *)
Lemma guard_loop_any (cfg : Config) (id : Z) (flow : Flow) (nodes : list TorNode) :
  forall (acc : list Correlation) (w : World),
  exists pre suf,
    kept_rows cfg id flow nodes = pre ++ suf /\
    store (snd (guard_loop cfg id (timestamp flow) (byte_count flow)
                  (flow_fingerprint flow) (dst_ip flow) nodes acc w))
      = add_rows pre (store w) /\
    ((fst (guard_loop cfg id (timestamp flow) (byte_count flow)
             (flow_fingerprint flow) (dst_ip flow) nodes acc w)
        = Some (acc ++ kept_rows cfg id flow nodes) /\ suf = []) \/
     (fst (guard_loop cfg id (timestamp flow) (byte_count flow)
             (flow_fingerprint flow) (dst_ip flow) nodes acc w) = None /\ suf <> [])).
Proof.
  induction nodes as [|node nodes IH]; intros acc w.
  - exists [], []. cbn. rewrite add_rows_nil, app_nil_r. auto.
  - rewrite kept_rows_cons. cbn [guard_loop]. cbv zeta.
    destruct (above_threshold cfg _) eqn:E; [|apply IH].
    set (c := correlation_data cfg id (dst_ip flow) node _).
    unfold bind, insert_correlation.
    destruct (transaction_any (fun s => (tt, insert_row c s)) w) as [[H1 H2]|[H1 H2]];
      destruct (transaction (fun s => (tt, insert_row c s)) w) as [[u|] w1];
      cbn [fst snd] in *; try discriminate.
    + exists [], (c :: kept_rows cfg id flow nodes). cbn [app fst snd].
      rewrite add_rows_nil. split; [reflexivity|]. split; [exact H2|].
      right. split; [reflexivity|discriminate].
    + destruct (IH (acc ++ [c]) w1) as (pre & suf & Hk & Hs & Hr).
      exists (c :: pre), suf. split; [now rewrite Hk|]. split.
      * rewrite Hs, H2. change (insert_row c (store w)) with (add_rows [c] (store w)).
        now rewrite add_rows_app.
      * rewrite <- app_assoc in Hr. exact Hr.
Qed.

(** The [try] block inserts a prefix of the rows of the flow; it returns
    the ranked rows when all of them are in, and raises otherwise. *)
Lemma correlate_body_any (cfg : Config) (id : Z) (w : World) :
  exists pre suf,
    flow_rows cfg (store w) id = pre ++ suf /\
    store (snd (correlate_body cfg id w)) = add_rows pre (store w) /\
    ((fst (correlate_body cfg id w)
        = Some (firstn (MAX_CANDIDATE_NODES cfg) (sort_desc (flow_rows cfg (store w) id)))
      /\ suf = []) \/
     fst (correlate_body cfg id w) = None).
Proof.
  assert (Hnone : forall w1, store w1 = store w ->
            exists pre suf,
              flow_rows cfg (store w) id = pre ++ suf /\
              store w1 = add_rows pre (store w) /\
              (((None : option (list Correlation))
                  = Some (firstn (MAX_CANDIDATE_NODES cfg)
                            (sort_desc (flow_rows cfg (store w) id)))
                /\ suf = []) \/
               (None : option (list Correlation)) = None)).
  { intros w1 Hs. exists [], (flow_rows cfg (store w) id).
    rewrite add_rows_nil. auto. }
  assert (Hempty : forall w1, store w1 = store w -> flow_rows cfg (store w) id = [] ->
            exists pre suf,
              flow_rows cfg (store w) id = pre ++ suf /\
              store w1 = add_rows pre (store w) /\
              ((Some ([] : list Correlation)
                  = Some (firstn (MAX_CANDIDATE_NODES cfg)
                            (sort_desc (flow_rows cfg (store w) id)))
                /\ suf = []) \/
               Some ([] : list Correlation) = None)).
  { intros w1 Hs Hf. exists [], []. rewrite Hf. unfold sort_desc.
    cbn [app fold_right]. rewrite firstn_nil, add_rows_nil. auto. }
  unfold correlate_body, bind.
  destruct (query_any (select_flow id) w) as [S1 [Q1|Q1]];
    destruct (query (select_flow id) w) as [o1 w1]; cbn [fst snd] in S1, Q1; subst o1;
    cbv beta iota.
  { cbn [fst snd]. now apply Hnone. }
  destruct (select_flow id (store w)) as [flow|] eqn:Ef.
  2:{ cbn [ret fst snd]. apply Hempty; [exact S1|]. unfold flow_rows. now rewrite Ef. }
  destruct (query_any (select_exit (dst_ip flow)) w1) as [S2 [Q2|Q2]];
    destruct (query (select_exit (dst_ip flow)) w1) as [o2 w2]; cbn [fst snd] in S2, Q2;
    subst o2; rewrite S1 in *; cbv beta iota.
  { cbn [fst snd]. now apply Hnone. }
  destruct (select_exit (dst_ip flow) (store w)) as [exit_node|] eqn:Ee.
  2:{ cbn [ret fst snd]. apply Hempty; [exact S2|]. unfold flow_rows.
      now rewrite Ef, Ee. }
  destruct (timestamp flow) as [ts|] eqn:Ets.
  2:{ cbn [raise fst snd]. now apply Hnone. }
  cbn [ret]. cbv beta iota. unfold get_guard_nodes.
  destruct (query_any (select_guards (Some 100%nat)) w2) as [S3 [Q3|Q3]];
    destruct (query (select_guards (Some 100%nat)) w2) as [o3 w3]; cbn [fst snd] in S3, Q3;
    subst o3; rewrite S2 in *; cbv beta iota.
  { cbn [fst snd]. now apply Hnone. }
  assert (Hrows : flow_rows cfg (store w) id
                  = kept_rows cfg id flow (select_guards (Some 100%nat) (store w))).
  { unfold flow_rows. now rewrite Ef, Ee, Ets. }
  rewrite Hrows. rewrite <- Ets.
  destruct (guard_loop_any cfg id flow (select_guards (Some 100%nat) (store w)) [] w3)
    as (pre & suf & Hk & Hs & Hr).
  destruct (guard_loop cfg id (timestamp flow) (byte_count flow) (flow_fingerprint flow)
              (dst_ip flow) (select_guards (Some 100%nat) (store w)) [] w3)
    as [o4 w4]. cbn [fst snd] in Hs, Hr. rewrite S3 in Hs.
  exists pre, suf. split; [exact Hk|].
  destruct Hr as [[-> ->]|[-> Hsuf]]; cbn [ret fst snd app]; auto.
Qed.

(** The per-flow pass never raises: a failure gives the empty list. *)
Lemma correlate_any (cfg : Config) (id : Z) (w : World) :
  exists r pre suf,
    fst (correlate_flow_to_guards cfg id w) = Some r /\
    snd (correlate_flow_to_guards cfg id w) = snd (correlate_body cfg id w) /\
    flow_rows cfg (store w) id = pre ++ suf /\
    store (snd (correlate_flow_to_guards cfg id w)) = add_rows pre (store w) /\
    ((r = firstn (MAX_CANDIDATE_NODES cfg) (sort_desc (flow_rows cfg (store w) id)) /\
      suf = []) \/
     (r = [] /\ fst (correlate_body cfg id w) = None)).
Proof.
  destruct (correlate_body_any cfg id w) as (pre & suf & Hk & Hs & Hr).
  unfold correlate_flow_to_guards, try_except.
  destruct (correlate_body cfg id w) as [[r|] w']; cbn [fst snd] in *.
  - exists r, pre, suf. repeat (split; [try reflexivity; assumption|]).
    destruct Hr as [[Hr ->]|Hr]; [|discriminate]. left. split; [congruence|reflexivity].
  - exists [], pre, suf. repeat (split; [try reflexivity; assumption|]).
    right. split; reflexivity.
Qed.

(** ** What is returned and what is left in the table *)

Lemma new_rows_add_rows (rows : list Correlation) (s : Store) :
  new_rows s (add_rows rows s) = rows.
Proof.
  unfold new_rows, add_rows. cbn [correlation_results].
  rewrite skipn_app, skipn_all, Nat.sub_diag. reflexivity.
Qed.

Lemma returned_ok (cfg : Config) (id : Z) (s : Store) :
  returned cfg id (reliable s)
  = firstn (MAX_CANDIDATE_NODES cfg) (sort_desc (flow_rows cfg s id)).
Proof. unfold returned, reliable. now rewrite correlate_ok. Qed.

Lemma persisted_ok (cfg : Config) (id : Z) (s : Store) :
  persisted cfg id (reliable s) = flow_rows cfg s id.
Proof.
  unfold persisted, reliable. rewrite correlate_ok. cbn [snd store].
  apply new_rows_add_rows.
Qed.

(** With or without failures, the rows left in the table are a prefix of
    the rows of the flow, and the rows returned are among them. *)
Lemma persisted_prefix (cfg : Config) (id : Z) (w : World) :
  exists suf, flow_rows cfg (store w) id = persisted cfg id w ++ suf.
Proof.
  destruct (correlate_any cfg id w) as (r & pre & suf & _ & _ & Hk & Hs & _).
  exists suf. unfold persisted. now rewrite Hs, new_rows_add_rows.
Qed.

Lemma persisted_incl (cfg : Config) (id : Z) (w : World) (c : Correlation) :
  In c (persisted cfg id w) -> In c (flow_rows cfg (store w) id).
Proof.
  intros H. destruct (persisted_prefix cfg id w) as [suf ->].
  apply in_or_app. now left.
Qed.

Lemma returned_incl (cfg : Config) (id : Z) (w : World) (c : Correlation) :
  In c (returned cfg id w) -> In c (flow_rows cfg (store w) id).
Proof.
  unfold returned.
  destruct (correlate_any cfg id w) as (r & pre & suf & -> & _ & _ & _ & Hr).
  destruct Hr as [[-> _]|[-> _]]; [|intros []].
  intros H. apply firstn_incl in H.
  eapply Permutation_in; [apply sort_desc_perm|exact H].
Qed.

Lemma select_guards_incl (limit : option nat) (s : Store) (node : TorNode) :
  In node (select_guards limit s) ->
  In node (tor_nodes s) /\ is_guard node = true /\ is_running node = true.
Proof.
  unfold select_guards. intros H.
  assert (Hf : In node (filter (fun n => is_guard n && is_running n) (tor_nodes s))).
  { destruct limit as [[|n]|]; try exact H. now apply firstn_incl in H. }
  apply filter_In in Hf. destruct Hf as [Hi Hb].
  apply andb_true_iff in Hb. tauto.
Qed.

(** A row of the flow is the record built from the scores of one of the
    guards, whose unrounded confidence is at or above the threshold. *)
Lemma in_kept_rows (cfg : Config) (id : Z) (flow : Flow) (nodes : list TorNode)
    (c : Correlation) :
  In c (kept_rows cfg id flow nodes) <->
  exists node,
    In node nodes /\
    above_threshold cfg
      (scores (timestamp flow) (byte_count flow) (flow_fingerprint flow) node) = true /\
    c = correlation_data cfg id (dst_ip flow) node
          (scores (timestamp flow) (byte_count flow) (flow_fingerprint flow) node).
Proof.
  unfold kept_rows. rewrite in_map_iff. split.
  - intros (node & <- & H). apply filter_In in H. exists node. tauto.
  - intros (node & Hi & Ha & ->). exists node. split; [reflexivity|].
    apply filter_In. tauto.
Qed.

Lemma in_flow_rows (cfg : Config) (s : Store) (id : Z) (c : Correlation) :
  In c (flow_rows cfg s id) ->
  exists flow node,
    select_flow id s = Some flow /\
    In node (select_guards (Some 100%nat) s) /\
    above_threshold cfg
      (scores (timestamp flow) (byte_count flow) (flow_fingerprint flow) node) = true /\
    c = correlation_data cfg id (dst_ip flow) node
          (scores (timestamp flow) (byte_count flow) (flow_fingerprint flow) node).
Proof.
  unfold flow_rows. destruct (select_flow id s) as [flow|]; [|intros []].
  destruct (select_exit (dst_ip flow) s); [|intros []].
  destruct (timestamp flow); [|intros []].
  intros H. apply in_kept_rows in H.
  destruct H as (node & H). exists flow, node. tauto.
Qed.

(** The exit gate, in the words of the query. *)
Lemma select_exit_none (addr : string) (s : Store) :
  (forall n, In n (tor_nodes s) -> ip_address n = addr -> is_exit n = false) ->
  select_exit addr s = None.
Proof.
  intros H. unfold select_exit.
  destruct (find _ (tor_nodes s)) as [n|] eqn:E; [|reflexivity].
  apply find_some in E. destruct E as [Hi Hb].
  apply andb_true_iff in Hb. destruct Hb as [Ha He].
  apply String.eqb_eq in Ha. rewrite (H n Hi Ha) in He. discriminate.
Qed.

Lemma flow_rows_no_exit (cfg : Config) (s : Store) (id : Z) (flow : Flow) :
  select_flow id s = Some flow -> select_exit (dst_ip flow) s = None ->
  flow_rows cfg s id = [].
Proof. intros Hf He. unfold flow_rows. now rewrite Hf, He. Qed.

(** The batch loop never raises. *)
Lemma batch_loop_total (cfg : Config) (ids : list Z) :
  forall (total : nat) (w : World), exists n, fst (batch_loop cfg ids total w) = Some n.
Proof.
  induction ids as [|id ids IH]; intros total w; cbn [batch_loop].
  - exists total. reflexivity.
  - unfold bind.
    destruct (correlate_any cfg id w) as (r & pre & suf & Hr & _).
    destruct (correlate_flow_to_guards cfg id w) as [o w1]. cbn [fst] in Hr. subst o.
    apply IH.
Qed.

(** The batch pass reports an error exactly when its own query fails. *)
Lemma correlate_all_any (cfg : Config) (w : World) :
  exists res,
    fst (correlate_all_flows cfg w) = Some res /\
    (res = BatchError <-> exists rest, faults w = true :: rest).
Proof.
  unfold correlate_all_flows, try_except, bind, query, transaction.
  destruct (faults w) as [|[|] rest].
  - destruct (batch_loop_total cfg (select_uncorrelated (store w)) 0
                {| store := store w; faults := [] |}) as [n Hn].
    destruct (batch_loop _ _ _ _) as [o w1]. cbn [fst] in Hn. subst o.
    eexists. split; [reflexivity|]. split; [discriminate|]. intros [rest' H]. discriminate.
  - exists BatchError. split; [reflexivity|]. split; [|reflexivity].
    intros _. now exists rest.
  - destruct (batch_loop_total cfg (select_uncorrelated (store w)) 0
                {| store := store w; faults := rest |}) as [n Hn].
    destruct (batch_loop _ _ _ _) as [o w1]. cbn [fst] in Hn. subst o.
    eexists. split; [reflexivity|]. split; [discriminate|]. intros [rest' H]. discriminate.
Qed.

End Pass.

(* ===================================================================== *)
(** * The statements of the specification *)
(* ===================================================================== *)

Import Binary64 Rounding Scores Db Engine Pass.
Local Open Scope float_scope.

(** ** The fingerprint is always produced

    [int(delta)] raises on a [delta] that is not finite, which takes
    timestamps far out of the range of a capture. *)








(** The claim C3 keeps the temporal score within [0.1, 1.0] and continuous
    at 3600 seconds, and gives 0.5454 at 1800 seconds: but at exactly 3600
    seconds the score is 0.0, one microsecond later it is above 0.95, and
    the score at 1800 seconds rounds to 0.5455. *)
Lemma C3_temporal_score_counterexample :
  calculate_temporal_score (Some 3600000000%Z) (Some 0%Z) = 0 /\
  (0.1 <=? calculate_temporal_score (Some 3600000000%Z) (Some 0%Z)) = false /\
  calculate_temporal_score (Some 3600000001%Z) (Some 0%Z) = 0.9583333333217593 /\
  Py.round (calculate_temporal_score (Some 1800000000%Z) (Some 0%Z)) 4 = 0.5455.
Proof. vm_compute. repeat split; reflexivity. Qed.

(** C3, amended.  With both timestamps present (in microseconds), the
    temporal score is 1.0 at a difference of 0 and of 300 seconds, in
    either order; at 1800 seconds it is 0.5454545454545454, which rounds
    to 0.5455; at the 300 second boundary the two formulas meet (the
    decay formula gives 1.0 there, and 0.9999999996969697 one microsecond
    later); for all inputs the score is within [0.0, 1.0]; and for a
    difference above 3600 seconds it is at least 0.1. *)
Theorem C3_temporal_score :
  (forall t : Z, calculate_temporal_score (Some t) (Some t) = 1) /\
  (forall t : Z,
     calculate_temporal_score (Some (t + 300000000)%Z) (Some t) = 1 /\
     calculate_temporal_score (Some t) (Some (t + 300000000)%Z) = 1) /\
  (forall t : Z,
     calculate_temporal_score (Some (t + 1800000000)%Z) (Some t) = 0.5454545454545454 /\
     Py.round (calculate_temporal_score (Some (t + 1800000000)%Z) (Some t)) 4 = 0.5455) /\
  (1 - (300 - 300) / 3300 = 1 /\
   forall t : Z,
     calculate_temporal_score (Some (t + 300000001)%Z) (Some t) = 0.9999999996969697) /\
  (forall flow_timestamp node_last_seen,
     (0 <=? calculate_temporal_score flow_timestamp node_last_seen) = true /\
     (calculate_temporal_score flow_timestamp node_last_seen <=? 1) = true) /\
  (forall (t l : Z) (d : float),
     total_seconds (t - l) = Some d -> (3600 <? abs d) = true ->
     (0.1 <=? calculate_temporal_score (Some t) (Some l)) = true).
Proof.
  assert (shift : forall t k : Z, (t + k - t = k)%Z) by (intros; lia).
  assert (back : forall t k : Z, (t - (t + k) = - k)%Z) by (intros; lia).
  split.
  { intros t. unfold calculate_temporal_score. rewrite Z.sub_diag. reflexivity. }
  split.
  { intros t. unfold calculate_temporal_score. rewrite shift, back.
    split; vm_compute; reflexivity. }
  split.
  { intros t. unfold calculate_temporal_score. rewrite shift.
    split; vm_compute; reflexivity. }
  split.
  { split; [reflexivity|]. intros t. unfold calculate_temporal_score.
    rewrite shift. vm_compute. reflexivity. }
  split; [exact calculate_temporal_score_range|].
  intros t l d Hd H. unfold calculate_temporal_score. rewrite Hd.
  now apply temporal_decay_floor.
Qed.

(** Two hours apart, and more than a day apart. *)
Lemma C3_temporal_score_witness :
  total_seconds (7200000000 - 0) = Some 7200 /\
  (0.1 <=? calculate_temporal_score (Some 7200000000%Z) (Some 0%Z)) = true /\
  calculate_temporal_score (Some 7200000000%Z) (Some 0%Z) = 0.9166666666666666 /\
  total_seconds (0 - 90000000000) = Some (-90000) /\
  (0.1 <=? calculate_temporal_score (Some 0%Z) (Some 90000000000%Z)) = true /\
  calculate_temporal_score (Some 0%Z) (Some 90000000000%Z) = 0.1.
Proof.
  destruct C3_temporal_score as (_ & _ & _ & _ & _ & H).
  split; [vm_compute; reflexivity|].
  split; [apply (H 7200000000%Z 0%Z 7200); vm_compute; reflexivity|].
  split; [vm_compute; reflexivity|].
  split; [vm_compute; reflexivity|].
  split; [apply (H 0%Z 90000000000%Z (-90000)); vm_compute; reflexivity|].
  vm_compute. reflexivity.
Defined.




(** The claim C5 gives 0.5 for a utilization of 0.9, but on 9216 bytes
    over 10 KB/s, a utilization of 0.9, the score is
    0.5000000000000001. *)
Lemma C5_bandwidth_score_counterexample :
  Py.truediv 9216 (10 * 1024) = Some 0.9 /\
  calculate_bandwidth_score (Some 9216%Z) (Some 10%Z) = 0.5000000000000001 /\
  (calculate_bandwidth_score (Some 9216%Z) (Some 10%Z) =? 0.5) = false.
Proof. vm_compute. repeat split; reflexivity. Qed.

(** C5, amended.  A node bandwidth of 0 gives the score 0.5 whatever the
    byte count.  Otherwise the utilization u is the byte count over the
    bandwidth in bytes, a division that succeeds for every byte count
    within 2^1023, and the score is 1.0 for 0.1 <= u <= 0.8, u / 0.1 for
    u < 0.1 and max(0.2, 1.0 - (u - 0.8) / 0.2) for u > 0.8, all in
    binary64: u = 0.05 gives 0.5, u = 0.5 gives 1.0, and u = 0.9 gives
    0.5000000000000001, recorded as 0.5 once rounded to 4 places. *)
Theorem C5_bandwidth_score :
  (forall flow_byte_count, calculate_bandwidth_score flow_byte_count (Some 0%Z) = 0.5) /\
  (forall bytes kb : Z,
     kb <> 0%Z -> (Z.abs bytes <= 2 ^ 1023)%Z ->
     exists u,
       Py.truediv bytes (kb * 1024) = Some u /\
       let score := calculate_bandwidth_score (Some bytes) (Some kb) in
       ((0.1 <=? u) = true -> (u <=? 0.8) = true -> score = 1) /\
       ((u <? 0.1) = true -> score = u / 0.1) /\
       ((0.8 <? u) = true -> score = Py.max 0.2 (1 - (u - 0.8) / 0.2))) /\
  (Py.truediv 512 (10 * 1024) = Some 0.05 /\
   calculate_bandwidth_score (Some 512%Z) (Some 10%Z) = 0.5) /\
  (Py.truediv 5120 (10 * 1024) = Some 0.5 /\
   calculate_bandwidth_score (Some 5120%Z) (Some 10%Z) = 1) /\
  (Py.truediv 9216 (10 * 1024) = Some 0.9 /\
   calculate_bandwidth_score (Some 9216%Z) (Some 10%Z) = 0.5000000000000001 /\
   Py.round (calculate_bandwidth_score (Some 9216%Z) (Some 10%Z)) 4 = 0.5).
Proof.
  split; [intros bc; reflexivity|].
  split; [|vm_compute; repeat split; reflexivity].
  intros bytes kb Hkb Hb.
  destruct (truediv_some bytes (kb * 1024)) as [u Hu]; [lia|exact Hb|].
  exists u. split; [exact Hu|]. cbv zeta.
  unfold calculate_bandwidth_score.
  destruct (Z.eqb_spec (kb * 1024) 0) as [E|_]; [lia|].
  rewrite Hu. unfold bandwidth_of_utilization.
  split; [|split].
  - intros H1 H2. now rewrite H1, H2.
  - intros H. rewrite (ltb_not_leb _ _ H), H. reflexivity.
  - intros H. rewrite (ltb_not_leb _ _ H), andb_false_r.
    destruct (u <? 0.1) eqn:E; [|reflexivity].
    apply ltb_leb in E.
    assert (H08 : (0.1 <=? 0.8) = true) by reflexivity.
    pose proof (leb_trans u 0.1 0.8 E H08) as Hc.
    rewrite (ltb_not_leb _ _ H) in Hc. discriminate.
Qed.

(** 30000 bytes over 10 KB/s: a utilization above 0.8, and the floor of
    0.2. *)
Lemma C5_bandwidth_score_witness :
  exists u,
    Py.truediv 30000 (10 * 1024) = Some u /\
    (0.8 <? u) = true /\
    calculate_bandwidth_score (Some 30000%Z) (Some 10%Z)
    = Py.max 0.2 (1 - (u - 0.8) / 0.2) /\
    calculate_bandwidth_score (Some 30000%Z) (Some 10%Z) = 0.2.
Proof.
  destruct (proj1 (proj2 C5_bandwidth_score) 30000%Z 10%Z) as (u & Hu & _ & _ & H);
    [discriminate|vm_compute; discriminate|].
  exists u. split; [exact Hu|].
  assert (E : u = 2.9296875).
  { vm_compute in Hu. now injection Hu as <-. }
  assert (Hlt : (0.8 <? u) = true) by (rewrite E; reflexivity).
  split; [exact Hlt|]. split; [exact (H Hlt)|]. vm_compute. reflexivity.
Defined.



(** C7. When no node of the directory with the destination address of the
    flow is an exit, [correlate_flow_to_guards] returns the empty list and
    leaves [correlation_results] as it was, whatever the guards would have
    scored and whether or not the datastore fails; when the two lookups
    succeed it returns right after them, with no further statement run. *)
Theorem C7_exit_gate (cfg : Config) (id : Z) (w : World) (flow : Flow) :
  select_flow id (store w) = Some flow ->
  (forall n, In n (tor_nodes (store w)) -> ip_address n = dst_ip flow ->
             is_exit n = false) ->
  returned cfg id w = [] /\
  persisted cfg id w = [] /\
  store (snd (correlate_flow_to_guards cfg id w)) = store w /\
  (forall rest, faults w = false :: false :: rest ->
     correlate_flow_to_guards cfg id w
     = (Some [], {| store := store w; faults := rest |})).
Proof.
  intros Hf Hx. apply select_exit_none in Hx.
  pose proof (flow_rows_no_exit cfg (store w) id flow Hf Hx) as Hrows.
  assert (Hp : persisted cfg id w = []).
  { destruct (persisted_prefix cfg id w) as [suf Hs]. rewrite Hrows in Hs.
    symmetry in Hs. now apply app_eq_nil in Hs. }
  split.
  { destruct (returned cfg id w) as [|c r] eqn:E; [reflexivity|].
    assert (Hin : In c (flow_rows cfg (store w) id)).
    { apply returned_incl. rewrite E. now left. }
    rewrite Hrows in Hin. destruct Hin. }
  split; [exact Hp|]. split.
  { destruct (correlate_any cfg id w) as (r & pre & suf & _ & _ & Hk & Hs & _).
    rewrite Hrows in Hk. symmetry in Hk. apply app_eq_nil in Hk.
    destruct Hk as [-> _]. now rewrite Hs, add_rows_nil. }
  intros rest Hfaults. destruct w as [s f]. cbn [store faults] in *. subst f.
  unfold correlate_flow_to_guards, try_except, correlate_body, bind, query, transaction.
  cbn [faults store]. rewrite Hf. cbn [faults store dst_ip]. rewrite Hx. reflexivity.
Qed.

(** Flow 2 of the example datastore goes to an address that is not in the
    directory; the third statement would fail, and is never run. *)
Lemma C7_exit_gate_witness :
  let w := {| store := Examples.example_store; faults := [false; false; true] |} in
  select_flow 2 (store w) = Some (Examples.flow 2 "192.0.2.99") /\
  returned default_config 2 w = [] /\
  persisted default_config 2 w = [] /\
  correlate_flow_to_guards default_config 2 w
  = (Some [], {| store := Examples.example_store; faults := [true] |}).
Proof.
  intros w.
  assert (Hx : forall n, In n (tor_nodes (store w)) ->
                 ip_address n = dst_ip (Examples.flow 2 "192.0.2.99") ->
                 is_exit n = false).
  { intros n Hin Hip. cbn in Hin.
    repeat (destruct Hin as [<-|Hin]; [first [reflexivity|discriminate Hip]|]).
    destruct Hin. }
  destruct (C7_exit_gate default_config 2%Z w (Examples.flow 2 "192.0.2.99")
              eq_refl Hx) as (H1 & H2 & _ & H4).
  split; [reflexivity|]. split; [exact H1|]. split; [exact H2|].
  apply H4. reflexivity.
Defined.

Lemma has_correlation_false (s : Store) (id : Z) :
  has_correlation s id = false <->
  forall c, In c (correlation_results s) -> corr_flow_id c <> id.
Proof.
  unfold has_correlation. split.
  - intros H c Hin E.
    assert (Ht : existsb (fun c => (corr_flow_id c =? id)%Z) (correlation_results s) = true).
    { apply existsb_exists. exists c. split; [exact Hin|]. now apply Z.eqb_eq. }
    rewrite H in Ht. discriminate.
  - intros H. destruct (existsb _ (correlation_results s)) eqn:E; [|reflexivity].
    apply existsb_exists in E. destruct E as (c & Hin & Hc).
    apply Z.eqb_eq in Hc. now apply H in Hin.
Qed.

(** C8. The batch pass selects the identifiers of exactly the flows that
    no row of [correlation_results] refers to, so a flow with a
    correlation record is not selected, and on a datastore that does not
    fail every row it inserts is for a selected flow.  Run a second time
    right after, it reports zero correlations and leaves the datastore as
    the first run left it. *)
Theorem C8_batch_idempotent (cfg : Config) (s : Store) :
  (forall id,
     In id (select_uncorrelated s) <->
     (exists f, In f (network_flows s) /\ flow_id f = id) /\
     (forall c, In c (correlation_results s) -> corr_flow_id c <> id)) /\
  (forall id c, In c (correlation_results s) -> corr_flow_id c = id ->
                ~ In id (select_uncorrelated s)) /\
  let first := correlate_all_flows cfg (reliable s) in
  let second := correlate_all_flows cfg (snd first) in
  (exists total,
     fst first = Some (Totals (List.length (select_uncorrelated s)) total)) /\
  (forall c, In c (new_rows s (store (snd first))) ->
             In (corr_flow_id c) (select_uncorrelated s)) /\
  (exists flows, fst second = Some (Totals flows 0)) /\
  new_rows (store (snd first)) (store (snd second)) = [] /\
  snd second = snd first.
Proof.
  assert (Hsel : forall id,
     In id (select_uncorrelated s) <->
     (exists f, In f (network_flows s) /\ flow_id f = id) /\
     (forall c, In c (correlation_results s) -> corr_flow_id c <> id)).
  { intros id. rewrite in_select_uncorrelated, has_correlation_false. reflexivity. }
  split; [exact Hsel|]. split.
  { intros id c Hin Hid Hs. apply Hsel in Hs. destruct Hs as [_ Hs].
    exact (Hs c Hin Hid). }
  cbv zeta. unfold reliable. rewrite correlate_all_ok. cbn [fst snd].
  set (rows := flat_map (flow_rows cfg s) (select_uncorrelated s)).
  rewrite correlate_all_ok. cbn [fst snd store].
  assert (Hnil : forall id, In id (select_uncorrelated (add_rows rows s)) ->
                            flow_rows cfg (add_rows rows s) id = []).
  { intros id Hin. rewrite flow_rows_add_rows.
    now apply (uncorrelated_after_batch cfg s id). }
  split; [eexists; reflexivity|]. split.
  { intros c Hc. rewrite new_rows_add_rows in Hc. unfold rows in Hc.
    apply in_flat_map in Hc. destruct Hc as (id & Hid & Hc).
    pose proof (flow_rows_flow_id cfg s id) as Hall.
    rewrite Forall_forall in Hall. now rewrite (Hall c Hc). }
  rewrite (flat_map_nil _ _ Hnil), add_rows_nil.
  split.
  { eexists. f_equal. f_equal. apply list_sum_zero. intros id Hin.
    rewrite (Hnil id Hin). unfold sort_desc. cbn [fold_right].
    now rewrite firstn_nil. }
  split; [|reflexivity].
  unfold new_rows. now rewrite skipn_all.
Qed.

(** On the example datastore the first run inserts the eleven rows of
    flow 1 and reports the ten it got back; the second run only looks at
    flow 2 again. *)
Lemma C8_batch_idempotent_witness :
  let first := correlate_all_flows default_config (reliable Examples.example_store) in
  let second := correlate_all_flows default_config (snd first) in
  fst first = Some (Totals 2 10) /\
  List.length (new_rows Examples.example_store (store (snd first))) = 11%nat /\
  fst second = Some (Totals 1 0) /\
  new_rows (store (snd first)) (store (snd second)) = [] /\
  snd second = snd first.
Proof.
  intros first second.
  destruct (C8_batch_idempotent default_config Examples.example_store)
    as (_ & _ & _ & _ & _ & Hnew & Hsame).
  split; [vm_compute; reflexivity|]. split; [vm_compute; reflexivity|].
  split; [vm_compute; reflexivity|]. split; [exact Hnew|exact Hsame].
Defined.

(** The claim C9 has a datastore failure surfaced to the caller and the
    writes of the flow rolled back: but when the second insert for flow 1
    of the example datastore fails, the per-flow pass returns the empty
    list as it does for a flow with no candidate, and the row inserted
    first stays in the table; the batch pass reports two flows processed
    and no error. *)
Lemma C9_failure_handling_counterexample :
  fst (correlate_flow_to_guards default_config 1 Examples.failing_second_insert)
  = Some [] /\
  map candidate_node_fingerprint
    (persisted default_config 1 Examples.failing_second_insert) = ["G10"%string] /\
  fst (correlate_all_flows default_config Examples.failing_batch)
  = Some (Totals 2 0) /\
  map candidate_node_fingerprint
    (new_rows Examples.example_store
       (store (snd (correlate_all_flows default_config Examples.failing_batch))))
  = ["G10"%string].
Proof. vm_compute. repeat split; reflexivity. Qed.

(** C9, amended.  [correlate_flow_to_guards] never raises: when a
    statement fails inside it (or the flow has no timestamp), it returns
    the empty list.  Each statement is a transaction of its own, so only
    the failing one is rolled back: the rows inserted before it, a prefix
    of the rows of the flow, stay in [correlation_results].  When nothing
    fails all the rows of the flow are in the table and the ranked ones
    are returned.  The batch pass reports an error exactly when its own
    query for the flows to process fails. *)
Theorem C9_failure_handling (cfg : Config) (id : Z) (w : World) :
  fst (correlate_flow_to_guards cfg id w) = Some (returned cfg id w) /\
  (exists rest, flow_rows cfg (store w) id = persisted cfg id w ++ rest) /\
  store (snd (correlate_flow_to_guards cfg id w))
  = add_rows (persisted cfg id w) (store w) /\
  (fst (correlate_body cfg id w) = None -> returned cfg id w = []) /\
  (fst (correlate_body cfg id w) <> None ->
   persisted cfg id w = flow_rows cfg (store w) id /\
   returned cfg id w
   = firstn (MAX_CANDIDATE_NODES cfg) (sort_desc (flow_rows cfg (store w) id))) /\
  (exists res,
     fst (correlate_all_flows cfg w) = Some res /\
     (res = BatchError <-> exists rest, faults w = true :: rest)).
Proof.
  destruct (correlate_body_any cfg id w) as (pre & suf & Hk & Hs & Hr).
  assert (Hp : persisted cfg id w = pre).
  { unfold persisted, correlate_flow_to_guards, try_except.
    destruct (correlate_body cfg id w) as [[r|] w']; cbn [fst snd] in *;
      rewrite Hs; apply new_rows_add_rows. }
  assert (Hst : store (snd (correlate_flow_to_guards cfg id w)) = add_rows pre (store w)).
  { unfold correlate_flow_to_guards, try_except.
    destruct (correlate_body cfg id w) as [[r|] w']; exact Hs. }
  rewrite Hp.
  split.
  { unfold returned, correlate_flow_to_guards, try_except.
    destruct (correlate_body cfg id w) as [[r|] w']; reflexivity. }
  split; [now exists suf|]. split; [exact Hst|].
  split.
  { intros Hnone. unfold returned, correlate_flow_to_guards, try_except.
    destruct (correlate_body cfg id w) as [[r|] w']; [discriminate|reflexivity]. }
  split; [|apply correlate_all_any].
  intros Hsome. destruct Hr as [[Hr ->]|Hr]; [|contradiction].
  rewrite app_nil_r in Hk. split; [now symmetry|].
  unfold returned, correlate_flow_to_guards, try_except.
  destruct (correlate_body cfg id w) as [[r|] w']; cbn [fst] in *; congruence.
Qed.

(** The failure of the second insert for flow 1 of the example datastore,
    and the same datastore without failure. *)
Lemma C9_failure_handling_witness :
  let w := Examples.failing_second_insert in
  let ok := reliable Examples.example_store in
  fst (correlate_body default_config 1 w) = None /\
  returned default_config 1 w = [] /\
  List.length (persisted default_config 1 w) = 1%nat /\
  fst (correlate_body default_config 1 ok) <> None /\
  persisted default_config 1 ok = flow_rows default_config (store ok) 1.
Proof.
  intros w ok.
  assert (Hw : fst (correlate_body default_config 1 w) = None)
    by (vm_compute; reflexivity).
  assert (Hok : fst (correlate_body default_config 1 ok) <> None)
    by (vm_compute; discriminate).
  destruct (C9_failure_handling default_config 1%Z w) as (_ & _ & _ & H1 & _).
  destruct (C9_failure_handling default_config 1%Z ok) as (_ & _ & _ & _ & H2 & _).
  split; [exact Hw|]. split; [exact (H1 Hw)|].
  split; [vm_compute; reflexivity|]. split; [exact Hok|exact (proj1 (H2 Hok))].
Defined.

(** C10. The engine passes the empty list of historical fingerprints to
    [calculate_pattern_score], which then gives 0.5 for every candidate;
    so every row left in [correlation_results] records the pattern score
    0.5 and the confidence round(0.5 * temporal + 0.3 * bandwidth + 0.1, 4)
    (the weight of the pattern score, 0.5 * 0.2, is the float 0.1), which
    is at most 0.9. *)
Theorem C10_production_pattern_score :
  (forall flow_fingerprint, calculate_pattern_score flow_fingerprint [] = 0.5) /\
  (forall (cfg : Config) (id : Z) (w : World) (c : Correlation),
     In c (persisted cfg id w) ->
     exists flow node,
       select_flow id (store w) = Some flow /\
       In node (tor_nodes (store w)) /\
       let temporal := calculate_temporal_score (timestamp flow) (last_seen node) in
       let bandwidth := calculate_bandwidth_score (byte_count flow) (bandwidth_kb node) in
       pattern_score c = 0.5 /\
       confidence_score c = Py.round (temporal * 0.5 + bandwidth * 0.3 + 0.1) 4 /\
       (confidence_score c <=? 0.9) = true).
Proof.
  split; [exact calculate_pattern_score_no_history|].
  intros cfg id w c H. apply persisted_incl, in_flow_rows in H.
  destruct H as (flow & node & Hf & Hn & _ & ->).
  exists flow, node. split; [exact Hf|].
  split; [now apply select_guards_incl in Hn|].
  cbv zeta. unfold correlation_data, scores.
  cbn [confidence_score pattern_score].
  rewrite calculate_pattern_score_no_history.
  split; [vm_compute; reflexivity|]. split; [reflexivity|].
  apply rounded_confidence_le.
  - apply calculate_temporal_score_range.
  - apply calculate_bandwidth_score_le.
Qed.

(** The row of the stalest guard of the example datastore, the first one
    to be inserted for flow 1. *)
Lemma C10_production_pattern_score_witness :
  let w := reliable Examples.example_store in
  let c := hd (correlation_data default_config 0 "" Examples.exit_node (0, 0, 0))
              (persisted default_config 1 w) in
  In c (persisted default_config 1 w) /\
  candidate_node_fingerprint c = "G10"%string /\
  confidence_score c = 0.4455 /\
  exists flow node,
    select_flow 1 (store w) = Some flow /\
    In node (tor_nodes (store w)) /\
    let temporal := calculate_temporal_score (timestamp flow) (last_seen node) in
    let bandwidth := calculate_bandwidth_score (byte_count flow) (bandwidth_kb node) in
    pattern_score c = 0.5 /\
    confidence_score c = Py.round (temporal * 0.5 + bandwidth * 0.3 + 0.1) 4 /\
    (confidence_score c <=? 0.9) = true.
Proof.
  intros w c.
  assert (H : In c (persisted default_config 1 w)).
  { vm_compute. left. reflexivity. }
  split; [exact H|]. split; [vm_compute; reflexivity|].
  split; [vm_compute; reflexivity|].
  exact (proj2 C10_production_pattern_score default_config 1%Z w c H).
Defined.

(* ===================================================================== *)
(** * Further properties of the correlation passes *)
(* ===================================================================== *)

(** A flow without rows: nothing is returned and nothing is written. *)
Lemma no_rows_no_effect (cfg : Config) (id : Z) (w : World) :
  flow_rows cfg (store w) id = [] ->
  returned cfg id w = [] /\
  persisted cfg id w = [] /\
  store (snd (correlate_flow_to_guards cfg id w)) = store w.
Proof.
  intros Hrows.
  destruct (correlate_any cfg id w) as (r & pre & suf & Hr & _ & Hk & Hs & Hc).
  rewrite Hrows in Hk. symmetry in Hk. apply app_eq_nil in Hk. destruct Hk as [-> ->].
  rewrite add_rows_nil in Hs.
  split.
  { unfold returned. rewrite Hr. rewrite Hrows in Hc.
    destruct Hc as [[-> _]|[-> _]]; [|reflexivity].
    unfold sort_desc. cbn [fold_right]. apply firstn_nil. }
  split; [|exact Hs].
  unfold persisted. rewrite Hs. unfold new_rows. now rewrite skipn_all.
Qed.

Lemma select_flow_none (id : Z) (s : Store) :
  (forall f, In f (network_flows s) -> flow_id f <> id) -> select_flow id s = None.
Proof.
  intros H. unfold select_flow.
  destruct (find _ (network_flows s)) as [f|] eqn:E; [|reflexivity].
  apply find_some in E. destruct E as [Hin Heq]. apply Z.eqb_eq in Heq.
  now apply H in Hin.
Qed.

Lemma select_flow_some (id : Z) (s : Store) (flow : Flow) :
  select_flow id s = Some flow -> In flow (network_flows s) /\ flow_id flow = id.
Proof.
  unfold select_flow. intros E. apply find_some in E.
  destruct E as [Hin Heq]. now apply Z.eqb_eq in Heq.
Qed.

Lemma kept_rows_length (cfg : Config) (id : Z) (flow : Flow) (nodes : list TorNode) :
  (List.length (kept_rows cfg id flow nodes) <= List.length nodes)%nat.
Proof. unfold kept_rows. rewrite length_map. apply filter_length_le. Qed.

Lemma select_guards_length (n : nat) (s : Store) :
  (List.length (select_guards (Some (S n)) s) <= S n)%nat.
Proof. unfold select_guards. rewrite length_firstn. lia. Qed.

Lemma flow_rows_length (cfg : Config) (s : Store) (id : Z) :
  (List.length (flow_rows cfg s id) <= 100)%nat.
Proof.
  unfold flow_rows. destruct (select_flow id s) as [flow|]; [|cbn; lia].
  destruct (select_exit (dst_ip flow) s); [|cbn; lia].
  destruct (timestamp flow); [|cbn; lia].
  etransitivity; [apply kept_rows_length|apply select_guards_length].
Qed.

Lemma returned_length (cfg : Config) (id : Z) (w : World) :
  (List.length (returned cfg id w) <= MAX_CANDIDATE_NODES cfg)%nat /\
  (List.length (returned cfg id w) <= List.length (persisted cfg id w))%nat.
Proof.
  destruct (correlate_any cfg id w) as (r & pre & suf & Hr & _ & Hk & Hs & Hc).
  unfold returned, persisted. rewrite Hr, Hs, new_rows_add_rows.
  destruct Hc as [[-> ->]|[-> _]]; [|cbn; lia].
  rewrite app_nil_r in Hk. rewrite Hk, length_firstn.
  rewrite (Permutation_length (sort_desc_perm pre)). lia.
Qed.

(** The batch loop under any failures: it never raises, it only appends
    rows of the flows it is given, and it counts no more rows than it
    appends. *)
Lemma batch_loop_any (cfg : Config) (ids : list Z) :
  forall (total : nat) (w : World),
  exists n rows,
    fst (batch_loop cfg ids total w) = Some n /\
    store (snd (batch_loop cfg ids total w)) = add_rows rows (store w) /\
    Forall (fun c => In (corr_flow_id c) ids) rows /\
    (total <= n)%nat /\
    (n <= total + MAX_CANDIDATE_NODES cfg * List.length ids)%nat /\
    (n <= total + List.length rows)%nat.
Proof.
  induction ids as [|id ids IH]; intros total w; cbn [batch_loop].
  - exists total, []. cbn. rewrite add_rows_nil. repeat split; try lia. constructor.
  - unfold bind.
    pose proof (returned_length cfg id w) as [Hl1 Hl2].
    pose proof (persisted_prefix cfg id w) as [suf Hpre].
    pose proof (flow_rows_flow_id cfg (store w) id) as Hid.
    destruct (correlate_any cfg id w) as (r & pre & suf' & Hr & _ & _ & Hs & _).
    unfold returned in Hl1, Hl2. unfold persisted in Hl2, Hpre.
    rewrite Hr in Hl1, Hl2. rewrite Hs, new_rows_add_rows in Hl2, Hpre.
    destruct (correlate_flow_to_guards cfg id w) as [o w1]. cbn [fst snd] in *. subst o.
    destruct (IH (total + List.length r)%nat w1) as (n & rows & Hn & Hst & Hall & H1 & H2 & H3).
    exists n, (pre ++ rows). split; [exact Hn|]. split.
    { rewrite Hst, Hs. apply add_rows_app. }
    split.
    { apply Forall_app. split.
      - rewrite Hpre in Hid. apply Forall_app in Hid. destruct Hid as [Hid _].
        eapply Forall_impl; [|exact Hid]. intros c ->. now left.
      - eapply Forall_impl; [|exact Hall]. intros c Hc. now right. }
    rewrite length_app. cbn [List.length]. repeat split; nia.
Qed.

(** The per-flow pass only ever appends to [correlation_results]: under
    any failures it leaves [network_flows] and [tor_nodes] as they were,
    keeps every row that was in [correlation_results], and adds at most
    100 rows, of which it returns at most [MAX_CANDIDATE_NODES]. *)
Theorem pass_appends_only (cfg : Config) (id : Z) (w : World) :
  let after := store (snd (correlate_flow_to_guards cfg id w)) in
  network_flows after = network_flows (store w) /\
  tor_nodes after = tor_nodes (store w) /\
  correlation_results after = correlation_results (store w) ++ persisted cfg id w /\
  (List.length (persisted cfg id w) <= 100)%nat /\
  (List.length (returned cfg id w) <= MAX_CANDIDATE_NODES cfg)%nat /\
  (List.length (returned cfg id w) <= List.length (persisted cfg id w))%nat.
Proof.
  cbv zeta.
  destruct (correlate_any cfg id w) as (r & pre & suf & _ & _ & Hk & Hs & _).
  assert (Hp : persisted cfg id w = pre).
  { unfold persisted. now rewrite Hs, new_rows_add_rows. }
  rewrite Hs, Hp. split; [reflexivity|]. split; [reflexivity|]. split; [reflexivity|].
  split.
  { pose proof (flow_rows_length cfg (store w) id) as H. rewrite Hk, length_app in H. lia. }
  rewrite <- Hp. apply returned_length.
Qed.

(** The batch pass under any failures: it only appends to
    [correlation_results], every row it appends is for a flow it
    selected, and the totals it reports name the number of selected flows
    and a number of correlations that is at most [MAX_CANDIDATE_NODES]
    per flow and at most the number of rows appended. *)
Theorem batch_appends_only (cfg : Config) (w : World) :
  let out := correlate_all_flows cfg w in
  exists rows,
    network_flows (store (snd out)) = network_flows (store w) /\
    tor_nodes (store (snd out)) = tor_nodes (store w) /\
    correlation_results (store (snd out)) = correlation_results (store w) ++ rows /\
    (forall c, In c rows -> In (corr_flow_id c) (select_uncorrelated (store w))) /\
    (forall flows total,
       fst out = Some (Totals flows total) ->
       flows = List.length (select_uncorrelated (store w)) /\
       (total <= MAX_CANDIDATE_NODES cfg * flows)%nat /\
       (total <= List.length rows)%nat).
Proof.
  cbv zeta. unfold correlate_all_flows, try_except, bind.
  destruct (query_any select_uncorrelated w) as [Hs [Hq|Hq]];
    destruct (query select_uncorrelated w) as [o w1]; cbn [fst snd] in Hs, Hq; subst o.
  - exists []. cbn [fst snd]. rewrite Hs, app_nil_r.
    repeat split; try (intros c []); discriminate.
  - destruct (batch_loop_any cfg (select_uncorrelated (store w)) 0 w1)
      as (n & rows & Hn & Hst & Hall & _ & H2 & H3).
    destruct (batch_loop cfg (select_uncorrelated (store w)) 0 w1) as [o w2].
    cbn [fst snd] in Hn, Hst. subst o. cbn [ret fst snd].
    exists rows. rewrite Hst, Hs. split; [reflexivity|]. split; [reflexivity|].
    split; [reflexivity|]. split.
    { intros c Hc. rewrite Forall_forall in Hall. now apply Hall. }
    intros flows total E. injection E as <- <-. cbn [Nat.add] in H2, H3.
    split; [reflexivity|]. split; [lia|exact H3].
Qed.

(** A flow identifier that is not in [network_flows]: the pass returns the
    empty list and writes nothing, under any failures. *)
Theorem unknown_flow_yields_nothing (cfg : Config) (id : Z) (w : World) :
  (forall f, In f (network_flows (store w)) -> flow_id f <> id) ->
  returned cfg id w = [] /\
  persisted cfg id w = [] /\
  store (snd (correlate_flow_to_guards cfg id w)) = store w.
Proof.
  intros H. apply no_rows_no_effect. unfold flow_rows.
  now rewrite (select_flow_none id (store w) H).
Qed.

Lemma unknown_flow_yields_nothing_witness :
  let w := reliable Examples.example_store in
  returned default_config 7 w = [] /\
  persisted default_config 7 w = [] /\
  store (snd (correlate_flow_to_guards default_config 7 w)) = store w.
Proof.
  intros w. apply (unknown_flow_yields_nothing default_config 7%Z w).
  intros f Hin. cbn in Hin. destruct Hin as [<-|[<-|[]]]; discriminate.
Defined.

(** A flow whose [timestamp] is NULL gets no row, whatever its destination
    and whatever the guards would score: computing the time window raises,
    and the pass returns the empty list. *)
Theorem undated_flow_yields_nothing (cfg : Config) (id : Z) (w : World) (flow : Flow) :
  select_flow id (store w) = Some flow ->
  timestamp flow = None ->
  returned cfg id w = [] /\
  persisted cfg id w = [] /\
  store (snd (correlate_flow_to_guards cfg id w)) = store w.
Proof.
  intros Hf Ht. apply no_rows_no_effect. unfold flow_rows. rewrite Hf, Ht.
  now destruct (select_exit (dst_ip flow) (store w)).
Qed.

(** The undated flow goes to the exit node, and the body of the pass
    raises after the two lookups. *)
Lemma undated_flow_yields_nothing_witness :
  let w := reliable Cases.undated_store in
  select_exit (dst_ip Cases.undated_flow) (store w) = Some Examples.exit_node /\
  fst (correlate_body default_config 3 w) = None /\
  returned default_config 3 w = [] /\
  persisted default_config 3 w = [] /\
  store (snd (correlate_flow_to_guards default_config 3 w)) = store w.
Proof.
  intros w. split; [reflexivity|]. split; [reflexivity|].
  apply (undated_flow_yields_nothing default_config 3%Z w Cases.undated_flow);
    reflexivity.
Defined.

Lemma in_flow_rows_gate (cfg : Config) (s : Store) (id : Z) (c : Correlation) :
  In c (flow_rows cfg s id) ->
  exists flow exit_node,
    select_flow id s = Some flow /\
    select_exit (dst_ip flow) s = Some exit_node /\
    timestamp flow <> None.
Proof.
  unfold flow_rows. destruct (select_flow id s) as [flow|]; [|intros []].
  destruct (select_exit (dst_ip flow) s) as [e|] eqn:Ee; [|intros []].
  destruct (timestamp flow) eqn:Et; [|intros []].
  intros _. exists flow, e. repeat split; [exact Ee|]. rewrite Et. discriminate.
Qed.

Lemma select_exit_some (addr : string) (s : Store) (n : TorNode) :
  select_exit addr s = Some n ->
  In n (tor_nodes s) /\ ip_address n = addr /\ is_exit n = true.
Proof.
  unfold select_exit. intros E. apply find_some in E. destruct E as [Hin Hb].
  apply andb_true_iff in Hb. destruct Hb as [Ha He].
  apply String.eqb_eq in Ha. auto.
Qed.

(** Every row the per-flow pass returns or writes, under any failures,
    refers to rows that exist: its [flow_id] is the identifier asked for,
    of a flow in [network_flows] that has a timestamp and whose
    destination is the address of an exit node of [tor_nodes]; its
    candidate is a node of [tor_nodes] that is a running guard; and its
    evidence names that node, the destination of the flow and the
    configured time window. *)
Theorem rows_refer_to_existing_rows (cfg : Config) (id : Z) (w : World)
    (c : Correlation) :
  In c (returned cfg id w) \/ In c (persisted cfg id w) ->
  corr_flow_id c = id /\
  exists flow exit_node node,
    In flow (network_flows (store w)) /\ flow_id flow = id /\
    timestamp flow <> None /\
    In exit_node (tor_nodes (store w)) /\
    ip_address exit_node = dst_ip flow /\ is_exit exit_node = true /\
    In node (tor_nodes (store w)) /\
    is_guard node = true /\ is_running node = true /\
    candidate_node_fingerprint c = fingerprint node /\
    node_nickname (evidence c) = nickname node /\
    node_ip (evidence c) = ip_address node /\
    node_country (evidence c) = country_code node /\
    exit_node_used (evidence c) = dst_ip flow /\
    time_window_seconds (evidence c) = TIME_WINDOW_SECONDS cfg.
Proof.
  intros H.
  assert (Hin : In c (flow_rows cfg (store w) id)).
  { destruct H as [H|H]; [now apply returned_incl|now apply persisted_incl]. }
  destruct (in_flow_rows_gate _ _ _ _ Hin) as (flow & e & Hf & He & Ht).
  destruct (in_flow_rows _ _ _ _ Hin) as (flow' & node & Hf' & Hn & _ & ->).
  rewrite Hf in Hf'. injection Hf' as <-.
  apply select_flow_some in Hf. destruct Hf as [Hfin Hfid].
  apply select_exit_some in He. destruct He as (Hein & Heip & Hex).
  apply select_guards_incl in Hn. destruct Hn as (Hnin & Hg & Hr).
  split; [apply correlation_data_flow_id|].
  exists flow, e, node. unfold correlation_data, scores.
  cbn [candidate_node_fingerprint evidence node_nickname node_ip node_country
       exit_node_used time_window_seconds].
  repeat split; assumption.
Qed.

(** The first row written for flow 1 of the example datastore. *)
Lemma rows_refer_to_existing_rows_witness :
  let w := reliable Examples.example_store in
  let c := hd (correlation_data default_config 0 "" Examples.exit_node (0, 0, 0))
              (persisted default_config 1 w) in
  In c (persisted default_config 1 w) /\
  corr_flow_id c = 1%Z /\
  candidate_node_fingerprint c = "G10"%string /\
  exit_node_used (evidence c) = "198.51.100.7"%string.
Proof.
  intros w c.
  assert (H : In c (persisted default_config 1 w)) by (vm_compute; left; reflexivity).
  destruct (rows_refer_to_existing_rows default_config 1%Z w c (or_intror H)) as [Hid _].
  split; [exact H|]. split; [exact Hid|]. split; vm_compute; reflexivity.
Defined.

(** The rows of a flow do not depend on [correlation_results].  So on a
    datastore that does not fail, a pass for flow [b] run after a pass for
    flow [a] returns and writes what it would have without it, the table
    ends with the rows of [a] followed by those of [b], and running the
    pass twice for the same flow writes its rows twice: the pass does not
    look for rows it has already written. *)
Theorem passes_do_not_interact (cfg : Config) (a b : Z) (s : Store) :
  let first := snd (correlate_flow_to_guards cfg a (reliable s)) in
  returned cfg b first = returned cfg b (reliable s) /\
  persisted cfg b first = persisted cfg b (reliable s) /\
  correlation_results (store (snd (correlate_flow_to_guards cfg b first)))
  = correlation_results s ++ persisted cfg a (reliable s) ++ persisted cfg b (reliable s) /\
  correlation_results (store (snd (correlate_flow_to_guards cfg a first)))
  = correlation_results s ++ persisted cfg a (reliable s) ++ persisted cfg a (reliable s).
Proof.
  assert (Hst : forall x t,
            snd (correlate_flow_to_guards cfg x (reliable t))
            = reliable (add_rows (flow_rows cfg t x) t)).
  { intros x t. unfold reliable. now rewrite correlate_ok. }
  cbv zeta. rewrite (Hst a s).
  rewrite !returned_ok, !persisted_ok, !flow_rows_add_rows.
  split; [reflexivity|]. split; [reflexivity|].
  rewrite (Hst b), (Hst a). cbn [reliable store].
  rewrite !flow_rows_add_rows, !add_rows_app. cbn [add_rows correlation_results].
  split; reflexivity.
Qed.

(* ===================================================================== *)
(** * Further properties of the flow fingerprint *)
(* ===================================================================== *)

Lemma window_firstn (packets : list Ingestion.Packet) :
  Ingestion.window (firstn 20 packets) = Ingestion.window packets.
Proof. unfold Ingestion.window. now rewrite firstn_firstn. Qed.

(** Packets after the twentieth are never read: a group and its first 20
    packets have the same fingerprint. *)
Theorem fingerprint_reads_20_packets (packets : list Ingestion.Packet) :
  Ingestion.calculate_flow_fingerprint packets
  = Ingestion.calculate_flow_fingerprint (firstn 20 packets).
Proof.
  destruct packets as [|p ps]; [reflexivity|].
  rewrite (fingerprint_refines (p :: ps)) by discriminate.
  rewrite (fingerprint_refines (firstn 20 (p :: ps))) by discriminate.
  unfold Ingestion.window_times, Ingestion.window_sizes.
  now rewrite window_firstn.
Qed.

Lemma successive_ext {A B C : Type} (g : A -> A -> C) (f : C -> B) (h : A -> A -> B)
    (l : list A) :
  (forall a b, h a b = f (g a b)) ->
  Ingestion.successive h l = map f (Ingestion.successive g l).
Proof.
  intros H. induction l as [|a [|b tl] IH]; try reflexivity.
  change (Ingestion.successive h (a :: b :: tl))
    with (h a b :: Ingestion.successive h (b :: tl)).
  change (Ingestion.successive g (a :: b :: tl))
    with (g a b :: Ingestion.successive g (b :: tl)).
  cbn [map]. now rewrite IH, H.
Qed.

(** The fingerprint reads the timestamps only through the gaps between
    successive packets: two groups whose first 20 packets have the same
    lengths and the same gaps (in microseconds) have the same fingerprint,
    whatever the time of their first packet. *)
Theorem fingerprint_reads_gaps_only (p q : list Ingestion.Packet) :
  map Ingestion.pkt_len (firstn 20 p) = map Ingestion.pkt_len (firstn 20 q) ->
  Ingestion.successive (fun a b => (Ingestion.pkt_time b - Ingestion.pkt_time a)%Z)
    (firstn 20 p)
  = Ingestion.successive (fun a b => (Ingestion.pkt_time b - Ingestion.pkt_time a)%Z)
      (firstn 20 q) ->
  Ingestion.calculate_flow_fingerprint p = Ingestion.calculate_flow_fingerprint q.
Proof.
  intros Hlen Hgap.
  assert (Hsizes : Ingestion.window_sizes p = Ingestion.window_sizes q).
  { unfold Ingestion.window_sizes, Ingestion.window.
    rewrite <- (map_map Ingestion.pkt_len Z.of_nat (firstn 20 p)).
    rewrite <- (map_map Ingestion.pkt_len Z.of_nat (firstn 20 q)).
    now rewrite Hlen. }
  assert (Htimes : Ingestion.window_times p = Ingestion.window_times q).
  { unfold Ingestion.window_times, Ingestion.window.
    rewrite (successive_ext
               (fun a b => (Ingestion.pkt_time b - Ingestion.pkt_time a)%Z)
               (fun d => Py.int_of_float (Py.float_of_decimal d 6 * 1000))
               Ingestion.interarrival (firstn 20 p)) by reflexivity.
    rewrite (successive_ext
               (fun a b => (Ingestion.pkt_time b - Ingestion.pkt_time a)%Z)
               (fun d => Py.int_of_float (Py.float_of_decimal d 6 * 1000))
               Ingestion.interarrival (firstn 20 q)) by reflexivity.
    now rewrite Hgap. }
  destruct p as [|p0 p'], q as [|q0 q']; try reflexivity; try discriminate.
  rewrite !fingerprint_refines by discriminate. now rewrite Hsizes, Htimes.
Qed.

(** The group of the witness of C1, and the same packets captured an hour
    later. *)
Lemma fingerprint_reads_gaps_only_witness :
  Ingestion.calculate_flow_fingerprint
    [ {| Ingestion.pkt_len := 60; Ingestion.pkt_time := 1700000000000000 |};
      {| Ingestion.pkt_len := 1500; Ingestion.pkt_time := 1700000000012345 |};
      {| Ingestion.pkt_len := 52; Ingestion.pkt_time := 1700000000012999 |} ]
  = Ingestion.calculate_flow_fingerprint
      [ {| Ingestion.pkt_len := 60; Ingestion.pkt_time := 1700003600000000 |};
        {| Ingestion.pkt_len := 1500; Ingestion.pkt_time := 1700003600012345 |};
        {| Ingestion.pkt_len := 52; Ingestion.pkt_time := 1700003600012999 |} ].
Proof. apply fingerprint_reads_gaps_only; reflexivity. Defined.

Lemma be_bytes_range (n : nat) (x : Z) :
  Forall (fun b => (0 <= b < 256)%Z) (Sha256.be_bytes n x).
Proof.
  induction n as [|n IH]; cbn [Sha256.be_bytes]; constructor; [|exact IH].
  change 255%Z with (Z.ones 8). rewrite Z.land_ones by lia.
  apply Z.mod_pos_bound. lia.
Qed.

Lemma digest_range (msg : list Z) :
  Forall (fun b => (0 <= b < 256)%Z) (Sha256.digest msg).
Proof.
  unfold Sha256.digest.
  destruct (fold_left _ _ _) as [[[[[[[a b] c] d] e] f] g] h].
  cbn [flat_map]. repeat (apply Forall_app; split; [apply be_bytes_range|]).
  constructor.
Qed.

Lemma hex_digit_alphabet (d : Z) :
  (0 <= d < 16)%Z ->
  In (Sha256.hex_digit d) (list_ascii_of_string "0123456789abcdef").
Proof.
  intros H.
  assert (E : (d = 0 \/ d = 1 \/ d = 2 \/ d = 3 \/ d = 4 \/ d = 5 \/ d = 6 \/ d = 7 \/
               d = 8 \/ d = 9 \/ d = 10 \/ d = 11 \/ d = 12 \/ d = 13 \/ d = 14 \/
               d = 15)%Z) by lia.
  repeat (destruct E as [->|E]; [cbn; tauto|]). subst d. cbn. tauto.
Qed.

Lemma hex_alphabet (bs : list Z) :
  Forall (fun b => (0 <= b < 256)%Z) bs ->
  Forall (fun c => In c (list_ascii_of_string "0123456789abcdef"))
         (list_ascii_of_string (Sha256.hex bs)).
Proof.
  induction 1 as [|b bs Hb _ IH]; [constructor|].
  cbn [Sha256.hex list_ascii_of_string].
  constructor; [|constructor; [|exact IH]]; apply hex_digit_alphabet.
  - rewrite Z.shiftr_div_pow2 by lia. change (2 ^ 4)%Z with 16%Z.
    split; [apply Z.div_pos; lia|apply Z.div_lt_upper_bound; lia].
  - change 15%Z with (Z.ones 4). rewrite Z.land_ones by lia.
    apply Z.mod_pos_bound. lia.
Qed.

Lemma str_take_alphabet (P : ascii -> Prop) (n : nat) (s : string) :
  Forall P (list_ascii_of_string s) ->
  Forall P (list_ascii_of_string (Py.str_take n s)).
Proof.
  revert s. induction n as [|n IH]; intros s H; [constructor|].
  destruct s as [|c s]; [constructor|]. cbn [Py.str_take list_ascii_of_string] in *.
  inversion H; subst. constructor; [assumption|now apply IH].
Qed.

(** A fingerprint is made of the characters [0-9a-f] only, and of 32 of
    them unless the group is empty. *)
Theorem fingerprint_is_lowercase_hex (packets : list Ingestion.Packet) (fp : string) :
  Ingestion.calculate_flow_fingerprint packets = Some fp ->
  Forall (fun c => In c (list_ascii_of_string "0123456789abcdef"))
         (list_ascii_of_string fp) /\
  (packets = [] -> fp = EmptyString) /\
  (packets <> [] -> String.length fp = 32%nat).
Proof.
  intros H. destruct packets as [|p ps].
  - injection H as <-. split; [constructor|]. split; [reflexivity|]. now intros [].
  - rewrite fingerprint_refines in H by discriminate.
    destruct (Ingestion.window_times (p :: ps)) as [times|]; [|discriminate].
    injection H as <-. split; [|split; [discriminate|intros _; apply hash32_length]].
    unfold Ingestion.hash32. apply str_take_alphabet.
    unfold Sha256.hexdigest. apply hex_alphabet, digest_range.
Qed.

Lemma fingerprint_is_lowercase_hex_witness :
  Forall (fun c => In c (list_ascii_of_string "0123456789abcdef"))
         (list_ascii_of_string "a519978db77c911132db9b2cc7485115") /\
  String.length "a519978db77c911132db9b2cc7485115" = 32%nat.
Proof.
  destruct (fingerprint_is_lowercase_hex
              [ {| Ingestion.pkt_len := 60; Ingestion.pkt_time := 1700000000000000 |} ]
              "a519978db77c911132db9b2cc7485115") as (H1 & _ & H2).
  - vm_compute. reflexivity.
  - split; [exact H1|]. apply H2. discriminate.
Defined.

(* ===================================================================== *)
(** * Further properties of the scores and of the ranking *)
(* ===================================================================== *)

Lemma eqb_B2R (a b : float) :
  (a =? b) = true -> number a = true /\ number b = true /\ B2R a = B2R b.
Proof.
  rewrite eqb_spec. unfold SFeqb, number, B2R. intros H.
  destruct (Prim2SF a) as [sa|sa| |sa ma ea] eqn:Ea;
    destruct (Prim2SF b) as [sb|sb| |sb mb eb] eqn:Eb;
    try discriminate; (split; [reflexivity|split; [reflexivity|]]).
  all: pose proof (Prim2SF_valid a) as Va; pose proof (Prim2SF_valid b) as Vb;
    rewrite Ea in Va; rewrite Eb in Vb.
  all: match goal with
       | |- ord ?x = ord ?y =>
         destruct (SFcompare_ord x y Va Vb eq_refl eq_refl) as [c [Hc Hh]]
       end.
  all: rewrite Hc in H; destruct c; try discriminate; exact Hh.
Qed.

Lemma ltb_excludes_eqb (a b v : float) :
  (a <? b) = true -> (a =? v) = true -> (b =? v) = false.
Proof.
  intros Hlt Ha. destruct (b =? v) eqn:Hb; [|reflexivity].
  apply ltb_B2R in Hlt. apply eqb_B2R in Ha. apply eqb_B2R in Hb.
  destruct Hlt as (_ & _ & Hlt). destruct Ha as (_ & _ & Ha). destruct Hb as (_ & _ & Hb).
  lra.
Qed.

Lemma insert_desc_ties (v : float) (c : Correlation) (l : list Correlation) :
  filter (fun d => confidence_score d =? v) (insert_desc c l)
  = filter (fun d => confidence_score d =? v) (c :: l).
Proof.
  induction l as [|d l IH]; [reflexivity|].
  cbn [insert_desc]. destruct (confidence_score c <? confidence_score d) eqn:E;
    [|reflexivity].
  cbn [filter] in *. rewrite IH.
  destruct (confidence_score c =? v) eqn:Ec; [|reflexivity].
  now rewrite (ltb_excludes_eqb _ _ _ E Ec).
Qed.

Lemma sort_desc_ties (v : float) (l : list Correlation) :
  filter (fun d => confidence_score d =? v) (sort_desc l)
  = filter (fun d => confidence_score d =? v) l.
Proof.
  induction l as [|c l IH]; [reflexivity|].
  change (sort_desc (c :: l)) with (insert_desc c (sort_desc l)).
  rewrite insert_desc_ties. cbn [filter]. now rewrite IH.
Qed.

(** The ranking breaks ties by candidate order.  On a datastore that does
    not fail, the returned rows of any one confidence are the first rows
    of that confidence that were written, in the order they were written
    (the order of the guards in the table). *)
Theorem ranking_keeps_order_of_ties (cfg : Config) (id : Z) (s : Store) (v : float) :
  exists rest,
    filter (fun c => confidence_score c =? v) (persisted cfg id (reliable s))
    = filter (fun c => confidence_score c =? v) (returned cfg id (reliable s)) ++ rest.
Proof.
  rewrite persisted_ok, returned_ok.
  set (rows := flow_rows cfg s id).
  exists (filter (fun c => confidence_score c =? v)
                 (skipn (MAX_CANDIDATE_NODES cfg) (sort_desc rows))).
  rewrite <- filter_app, firstn_skipn. symmetry. apply sort_desc_ties.
Qed.

(** The other half of [half_even_scaled_bounds]: a value above [N - 1/2]
    rounds to [N] at least. *)
Lemma half_even_scaled_ge (M e N : Z) :
  (0 <= M)%Z ->
  (IZR N - / 2 < IZR M * bpow e)%R -> (N <= Py.round_half_even_scaled M e)%Z.
Proof.
  intros HM. unfold Py.round_half_even_scaled.
  assert (Hint : forall k : Z, (IZR N - / 2 < IZR k)%R -> (N <= k)%Z).
  { intros k Hk. assert (H : (IZR N < IZR (k + 1))%R) by (rewrite plus_IZR; lra).
    apply lt_IZR in H. lia. }
  destruct e as [|p|p].
  - rewrite Z.shiftl_0_r. unfold bpow. cbn [powerRZ]. rewrite Rmult_1_r. apply Hint.
  - rewrite Z.shiftl_mul_pow2 by lia.
    rewrite (bpow_IZR (Z.pos p)), <- mult_IZR by lia. apply Hint.
  - change (Z.pow_pos 2 p) with (2 ^ Z.pos p)%Z.
    assert (Hd : (0 < 2 ^ Z.pos p)%Z) by (apply Z.pow_pos_nonneg; lia).
    set (d := (2 ^ Z.pos p)%Z) in *.
    pose proof (Z.div_mod M d ltac:(lia)) as Hdm.
    pose proof (Z.mod_pos_bound M d Hd) as Hr.
    set (q := (M / d)%Z) in *. set (r := (M mod d)%Z) in *.
    assert (Hb : bpow (Z.neg p) = (/ IZR d)%R).
    { replace (Z.neg p) with (- Z.pos p)%Z by lia. unfold bpow.
      rewrite powerRZ_neg'. fold (bpow (Z.pos p)). now rewrite bpow_IZR by lia. }
    rewrite Hb.
    assert (HD : (0 < IZR d)%R) by (apply IZR_lt; lia).
    assert (HM' : (IZR M = IZR d * IZR q + IZR r)%R).
    { rewrite <- mult_IZR, <- plus_IZR. now f_equal. }
    assert (Hv : (IZR M * / IZR d = IZR q + IZR r * / IZR d)%R).
    { rewrite HM'. field. lra. }
    rewrite Hv.
    assert (Hr1 : (IZR r * / IZR d < 1)%R).
    { apply (Rmult_lt_reg_r (IZR d)); [exact HD|].
      rewrite Rmult_assoc, Rinv_l, Rmult_1_r, Rmult_1_l by lra. apply IZR_lt. lia. }
    assert (Hlow : (2 * r <= d)%Z -> (IZR r * / IZR d <= / 2)%R).
    { intros H. apply IZR_le in H. rewrite mult_IZR in H.
      apply (Rmult_le_reg_r (IZR d)); [exact HD|].
      rewrite Rmult_assoc, Rinv_l by lra. lra. }
    assert (Hq : (IZR N - / 2 < IZR q + IZR r * / IZR d)%R ->
                 (IZR r * / IZR d <= / 2)%R -> (N <= q)%Z).
    { intros H1 H2. assert (H : (IZR N < IZR (q + 1))%R) by (rewrite plus_IZR; lra).
      apply lt_IZR in H. lia. }
    assert (Hq1 : (IZR N - / 2 < IZR q + IZR r * / IZR d)%R -> (N <= q + 1)%Z).
    { intros H1. assert (H : (IZR N < IZR (q + 2))%R) by (rewrite plus_IZR; lra).
      apply lt_IZR in H. lia. }
    intros H. destruct (Z.compare_spec (2 * r) d) as [E|E|E].
    + destruct (Z.even q); [apply Hq; [exact H|apply Hlow; lia]|now apply Hq1].
    + apply Hq; [exact H|apply Hlow; lia].
    + now apply Hq1.
Qed.

(** A float at least [c > 0] rounds to at least [N / 10^nd] when
    [c * 10^nd] is above [N - 1/2]. *)
Lemma round_ge (x c lo : float) (nd : nat) (N : Z) :
  (c <=? x) = true -> finite c = true -> finite lo = true ->
  (0 < B2R c)%R ->
  (IZR N - / 2 < B2R c * IZR (10 ^ Z.of_nat nd))%R ->
  (B2R lo <= IZR N / IZR (10 ^ Z.of_nat nd))%R ->
  (lo <=? Py.round x nd) = true.
Proof.
  intros Hx Fc Flo Hc0 Hc HN.
  pose proof (pow10_pos nd) as Hp. apply IZR_lt in Hp.
  apply leb_B2R in Hx. destruct Hx as (_ & Nx & Lx).
  unfold Py.round. unfold number, B2R in Nx, Lx. fold (B2R c) in Lx.
  rewrite leb_spec.
  destruct (Prim2SF x) as [s|s| |s m e] eqn:E; try discriminate.
  - cbn [ord F2R] in Lx. lra.
  - destruct s; cbn [ord] in Lx; [pose proof (bpow_gt_0 1024); lra|].
    rewrite E. apply SFleb_ord; [apply Prim2SF_valid|reflexivity|].
    split; [now apply finite_number|]. split; [reflexivity|].
    cbn [ord]. fold (B2R lo).
    pose proof (finite_range (Prim2SF lo) (Prim2SF_valid lo) Flo) as Hr.
    rewrite <- (B2R_finite lo Flo) in Hr. lra.
  - cbn [ord F2R] in Lx.
    assert (s = false) as ->.
    { destruct s; [|reflexivity]. cbn [cond_Zopp] in Lx.
      pose proof (bpow_gt_0 e) as Hb.
      assert (IZR (- Z.pos m) < 0)%R by (apply IZR_lt; lia). nra. }
    cbn [cond_Zopp] in Lx.
    destruct (round_finite_spec false m e nd) as [HR HP]. cbv zeta in HR, HP.
    rewrite HP. destruct HR as [_ HR].
    apply (HR (Prim2SF lo) (Prim2SF_valid lo) Flo).
    rewrite <- (B2R_finite lo Flo).
    set (n := Py.round_half_even_scaled (Z.pos m * 10 ^ Z.of_nat nd) e) in *.
    set (p := IZR (10 ^ Z.of_nat nd)) in *.
    assert (Hn : (N <= n)%Z).
    { apply half_even_scaled_ge; [lia|]. rewrite mult_IZR. fold p.
      replace (IZR (Z.pos m) * p * bpow e)%R with (IZR (Z.pos m) * bpow e * p)%R by ring.
      nra. }
    apply IZR_le in Hn.
    apply Rle_trans with (IZR N / p)%R; [exact HN|].
    unfold Rdiv. apply Rmult_le_compat_r; [|exact Hn].
    apply Rlt_le, Rinv_0_lt_compat, Hp.
Qed.

(** Under the default configuration every confidence that is returned or
    written lies between the threshold 0.3 and 0.9, under any failures:
    rounding to 4 places does not take a confidence that passed the
    threshold below it. *)
Theorem recorded_confidence_range (id : Z) (w : World) (c : Correlation) :
  In c (returned default_config id w) \/ In c (persisted default_config id w) ->
  (0.3 <=? confidence_score c) = true /\ (confidence_score c <=? 0.9) = true.
Proof.
  intros H.
  assert (Hin : In c (flow_rows default_config (store w) id)).
  { destruct H as [H|H]; [now apply returned_incl|now apply persisted_incl]. }
  apply in_flow_rows in Hin. destruct Hin as (flow & node & _ & _ & Ha & ->).
  unfold correlation_data, scores in *. cbn [confidence_score].
  unfold above_threshold in Ha. cbn [MIN_CONFIDENCE_THRESHOLD default_config] in Ha.
  rewrite calculate_pattern_score_no_history in *.
  split.
  - float_const 0.3.
    apply (round_ge _ 0.3 0.3 4 3000 Ha); try assumption;
      change (10 ^ Z.of_nat 4)%Z with 10000%Z; flra.
  - apply rounded_confidence_le.
    + apply calculate_temporal_score_range.
    + apply calculate_bandwidth_score_le.
Qed.

(** The best and the last row returned for flow 1 of the example
    datastore. *)
Lemma recorded_confidence_range_witness :
  let w := reliable Examples.example_store in
  let c := hd (correlation_data default_config 0 "" Examples.exit_node (0, 0, 0))
              (returned default_config 1 w) in
  In c (returned default_config 1 w) /\
  confidence_score c = 0.9 /\
  (0.3 <=? confidence_score c) = true /\ (confidence_score c <=? 0.9) = true.
Proof.
  intros w c.
  assert (H : In c (returned default_config 1 w)) by (vm_compute; left; reflexivity).
  split; [exact H|]. split; [vm_compute; reflexivity|].
  exact (recorded_confidence_range 1%Z w c (or_introl H)).
Defined.

Lemma quotient_opp (n b : Z) :
  n <> 0%Z -> b <> 0%Z ->
  SF64div (Py.SF_of_Z (- n)) (Py.SF_of_Z b)
  = SFopp (SF64div (Py.SF_of_Z n) (Py.SF_of_Z b)).
Proof.
  intros Hn Hb. unfold SF64div, SFdiv.
  destruct n as [|p|p]; [contradiction| |]; destruct b as [|q|q]; try contradiction;
    cbn [Z.opp Py.SF_of_Z];
    destruct (SFdiv_core_binary prec emax _ _ _ _) as [[mz ez] lz]; cbn [xorb];
    rewrite round_aux_opp; try reflexivity; now rewrite SFopp_involutive.
Qed.

Lemma abs_opp (r : spec_float) :
  valid_binary r = true -> abs (SF2Prim (SFopp r)) = abs (SF2Prim r).
Proof.
  intros V. apply Prim2SF_inj. rewrite !abs_spec.
  rewrite !Prim2SF_SF2Prim by (try rewrite valid_opp; exact V).
  now destruct r.
Qed.

Lemma total_seconds_opp (n : Z) :
  match total_seconds (- n) with Some d => temporal_decay (abs d) | None => 0 end
  = match total_seconds n with Some d => temporal_decay (abs d) | None => 0 end.
Proof.
  destruct (Z.eq_dec n 0) as [->|Hn]; [reflexivity|].
  unfold total_seconds, Py.truediv.
  rewrite (quotient_opp n 1000000 Hn) by discriminate.
  destruct (quotient_Rnd n 1000000) as [[V _] _]; [discriminate|].
  destruct (SF64div (Py.SF_of_Z n) (Py.SF_of_Z 1000000)) as [s|s| |s m e] eqn:E;
    cbn [SFopp]; try reflexivity.
  - now rewrite <- (abs_opp (S754_zero s)).
  - now rewrite <- (abs_opp (S754_finite s m e) V).
Qed.

(** The temporal score depends on the two timestamps only through the
    absolute value of their difference: swapping them gives the same
    score. *)
Theorem temporal_score_is_symmetric (flow_timestamp node_last_seen : option Z) :
  calculate_temporal_score flow_timestamp node_last_seen
  = calculate_temporal_score node_last_seen flow_timestamp.
Proof.
  destruct flow_timestamp as [t|], node_last_seen as [l|]; try reflexivity.
  unfold calculate_temporal_score.
  replace (l - t)%Z with (- (t - l))%Z by lia.
  symmetry. apply total_seconds_opp.
Qed.

(** For a non-negative byte count and a positive node bandwidth the
    bandwidth score lies between 0.0 and 1.0. *)
Theorem bandwidth_score_range (bytes kb : Z) :
  (0 <= bytes)%Z -> (0 < kb)%Z ->
  (0 <=? calculate_bandwidth_score (Some bytes) (Some kb)) = true /\
  (calculate_bandwidth_score (Some bytes) (Some kb) <=? 1) = true.
Proof.
  intros Hb Hk. split; [|apply calculate_bandwidth_score_le].
  unfold calculate_bandwidth_score.
  destruct (Z.eqb_spec (kb * 1024) 0) as [E|_]; [lia|].
  destruct (Py.truediv bytes (kb * 1024)) as [u|] eqn:Eu; [|reflexivity].
  apply truediv_spec in Eu. destruct Eu as (_ & Fu & HR).
  float_const 0. float_const 0.1.
  assert (Hq : (0 <= IZR bytes / IZR (kb * 1024))%R).
  { apply Rmult_le_pos; [apply IZR_le; lia|].
    apply Rlt_le, Rinv_0_lt_compat, IZR_lt. lia. }
  assert (Hu : (0 <=? u) = true) by (apply (Rnd_geb _ u 0 HR); [assumption|flra]).
  apply leb_B2R in Hu. destruct Hu as (_ & _ & Hu).
  unfold bandwidth_of_utilization.
  destruct ((0.1 <=? u) && (u <=? 0.8)); [reflexivity|].
  destruct (u <? 0.1).
  - apply (Rnd_geb (B2R u / B2R 0.1)%R).
    + apply div_Rnd; [exact Fu|assumption|flra].
    + assumption.
    + assert (0 <= B2R u / B2R 0.1)%R; [|flra].
      apply Rmult_le_pos; [flra|]. apply Rlt_le, Rinv_0_lt_compat. flra.
  - unfold Py.max. destruct (0.2 <? 1 - (u - 0.8) / 0.2) eqn:E; [|reflexivity].
    apply ltb_leb in E.
    assert (H02 : (0 <=? 0.2) = true) by reflexivity.
    exact (leb_trans 0 0.2 _ H02 E).
Qed.

Lemma bandwidth_score_range_witness :
  (0 <=? calculate_bandwidth_score (Some 9216%Z) (Some 10%Z)) = true /\
  (calculate_bandwidth_score (Some 9216%Z) (Some 10%Z) <=? 1) = true.
Proof. apply (bandwidth_score_range 9216 10); lia. Defined.

(** * The fingerprint text determines the sizes and the times *)

Module Serial.

Import Text.

Lemma join_cons (sep s : string) (rest : list string) :
  Py.join sep (s :: rest) = (s ++ join_rest sep rest)%string.
Proof.
  revert s; induction rest as [|x rest IH]; intros s.
  - cbn. induction s as [|a s IHs]; cbn; [reflexivity | now rewrite <- IHs].
  - change (Py.join sep (s :: x :: rest))
      with (s ++ sep ++ Py.join sep (x :: rest))%string.
    now rewrite IH.
Qed.

Lemma append_assoc3 (a b c : string) :
  ((a ++ b) ++ c = a ++ (b ++ c))%string.
Proof. induction a as [|x a IH]; cbn; [reflexivity | now rewrite IH]. Qed.

Lemma append_empty_r (a : string) : (a ++ "" = a)%string.
Proof. induction a as [|x a IH]; cbn; [reflexivity | now rewrite IH]. Qed.

Lemma uint_digits_plain (d : Decimal.uint) :
  plain (NilEmpty.string_of_uint d).
Proof.
  unfold plain; induction d; cbn; split; try tauto;
    intros [H|H]; try discriminate H; tauto.
Qed.

Lemma str_of_int_plain (z : Z) : plain (Py.str_of_int z).
Proof.
  unfold Py.str_of_int, NilZero.string_of_int, NilZero.string_of_uint.
  destruct (Z.to_int z) as [d|d]; destruct d;
    try apply uint_digits_plain;
    unfold plain; cbn; split; intros H;
    repeat (destruct H as [H|H]; try discriminate H);
    try tauto;
    try (apply (proj1 (uint_digits_plain _)) in H; tauto);
    try (apply (proj2 (uint_digits_plain _)) in H; tauto).
Qed.

Lemma str_of_int_nonempty (z : Z) : Py.str_of_int z <> EmptyString.
Proof.
  unfold Py.str_of_int, NilZero.string_of_int, NilZero.string_of_uint.
  destruct (Z.to_int z) as [d|d]; destruct d; cbn; discriminate.
Qed.

Lemma to_int_proper (z : Z) :
  Z.to_int z <> Decimal.Pos Decimal.Nil /\ Z.to_int z <> Decimal.Neg Decimal.Nil.
Proof.
  destruct z as [|p|p]; cbn; split; try discriminate;
    intros [= H]; exact (DecimalPos.Unsigned.to_uint_nonnil p H).
Qed.

Lemma str_of_int_inj (a b : Z) : Py.str_of_int a = Py.str_of_int b -> a = b.
Proof.
  unfold Py.str_of_int; intros H.
  apply DecimalZ.to_int_inj.
  assert (E : Some (Z.to_int a) = Some (Z.to_int b)).
  { rewrite <- (NilZero.isi (Z.to_int a)), <- (NilZero.isi (Z.to_int b));
      try apply to_int_proper.
    now rewrite H. }
  now injection E.
Qed.

(** A plain string is read back from any text that continues at a
    separator. *)
Lemma plain_prefix_unique (s1 s2 r1 r2 : string) :
  plain s1 -> plain s2 -> at_separator r1 -> at_separator r2 ->
  (s1 ++ r1 = s2 ++ r2)%string -> s1 = s2 /\ r1 = r2.
Proof.
  revert s2; induction s1 as [|a s1 IH]; intros [|b s2] P1 P2 A1 A2 E; cbn in E.
  - now split.
  - exfalso. subst r1. destruct P2 as [Pc Ps]. cbn in A1, Pc, Ps.
    destruct A1 as [->| ->]; tauto.
  - exfalso. subst r2. destruct P1 as [Pc Ps]. cbn in A2, Pc, Ps.
    destruct A2 as [->| ->]; tauto.
  - injection E as -> E.
    destruct (IH s2) as [-> ->]; trivial.
    + destruct P1 as [Pc Ps]; cbn in Pc, Ps; split; tauto.
    + destruct P2 as [Pc Ps]; cbn in Pc, Ps; split; tauto.
    + now split.
Qed.

Lemma join_rest_at_separator (l : list string) (r : string) :
  at_separator r -> at_separator (join_rest "," l ++ r).
Proof. destruct l; cbn; [trivial | now left]. Qed.

Lemma join_rest_unique (l1 l2 : list string) (r1 r2 : string) :
  Forall plain l1 -> Forall plain l2 ->
  r1 = EmptyString \/ (exists r, r1 = String ";" r) ->
  r2 = EmptyString \/ (exists r, r2 = String ";" r) ->
  (join_rest "," l1 ++ r1 = join_rest "," l2 ++ r2)%string ->
  l1 = l2 /\ r1 = r2.
Proof.
  intros F1; revert l2; induction F1 as [|s1 l1 P1 F1 IH];
    intros l2 F2 R1 R2 E; destruct F2 as [|s2 l2 P2 F2]; cbn in E.
  - now split.
  - exfalso. destruct R1 as [->|[r ->]]; discriminate E.
  - exfalso. destruct R2 as [->|[r ->]]; discriminate E.
  - injection E as E. rewrite !append_assoc3 in E.
    assert (A : forall r, r = EmptyString \/ (exists r', r = String ";" r') ->
                          at_separator r).
    { intros r [->|[r' ->]]; cbn; auto. }
    apply plain_prefix_unique in E; trivial;
      try (apply join_rest_at_separator; auto).
    destruct E as [-> E]. destruct (IH l2 F2 R1 R2 E) as [-> ->]. now split.
Qed.

Lemma join_unique (l1 l2 : list string) (r1 r2 : string) :
  Forall plain l1 -> Forall plain l2 ->
  Forall (fun s => s <> EmptyString) l1 ->
  Forall (fun s => s <> EmptyString) l2 ->
  r1 = EmptyString \/ (exists r, r1 = String ";" r) ->
  r2 = EmptyString \/ (exists r, r2 = String ";" r) ->
  (Py.join "," l1 ++ r1 = Py.join "," l2 ++ r2)%string ->
  l1 = l2 /\ r1 = r2.
Proof.
  intros F1 F2 N1 N2 R1 R2 E.
  assert (A : forall r, r = EmptyString \/ (exists r', r = String ";" r') ->
                        at_separator r).
  { intros r [->|[r' ->]]; cbn; auto. }
  assert (Hfirst : forall s l r r',
             plain s -> s <> EmptyString ->
             r = EmptyString \/ (exists x, r = String ";" x) ->
             (r = Py.join "," (s :: l) ++ r')%string -> False).
  { intros s l r r' [Pc Ps] Ns Hr Hs. rewrite join_cons in Hs.
    destruct s as [|a s]; [now apply Ns|]. cbn in Hs, Pc, Ps.
    destruct Hr as [->|[x ->]]; [discriminate Hs|].
    injection Hs as <- _. tauto. }
  destruct l1 as [|s1 l1], l2 as [|s2 l2].
  - now split.
  - exfalso.
    change (Py.join "," [] ++ r1)%string with r1 in E.
    exact (Hfirst s2 l2 r1 r2 (Forall_inv F2) (Forall_inv N2) R1 E).
  - exfalso.
    change (Py.join "," [] ++ r2)%string with r2 in E. symmetry in E.
    exact (Hfirst s1 l1 r2 r1 (Forall_inv F1) (Forall_inv N1) R2 E).
  - rewrite !join_cons, !append_assoc3 in E.
    apply plain_prefix_unique in E;
      try (apply join_rest_at_separator; auto);
      try (now apply (Forall_inv F1)); try (now apply (Forall_inv F2)).
    destruct E as [-> E].
    destruct (join_rest_unique l1 l2 r1 r2) as [-> ->]; trivial;
      try (now apply (Forall_inv_tail F1)); try (now apply (Forall_inv_tail F2)).
    now split.
Qed.

Lemma fingerprint_str_inj (s1 t1 s2 t2 : list Z) :
  Ingestion.fingerprint_str s1 t1 = Ingestion.fingerprint_str s2 t2 ->
  s1 = s2 /\ t1 = t2.
Proof.
  unfold Ingestion.fingerprint_str. intros E.
  cbn [append] in E. injection E as E.
  assert (P : forall l, Forall plain (map Py.str_of_int l)).
  { intros l. apply Forall_forall. intros s Hs. apply in_map_iff in Hs.
    destruct Hs as [z [<- _]]. apply str_of_int_plain. }
  assert (N : forall l, Forall (fun s => s <> EmptyString) (map Py.str_of_int l)).
  { intros l. apply Forall_forall. intros s Hs. apply in_map_iff in Hs.
    destruct Hs as [z [<- _]]. apply str_of_int_nonempty. }
  assert (I : forall l1 l2, map Py.str_of_int l1 = map Py.str_of_int l2 -> l1 = l2).
  { induction l1 as [|a l1 IH]; intros [|b l2] H; try discriminate H; trivial.
    cbn in H. injection H as Hab H. apply str_of_int_inj in Hab.
    now rewrite Hab, (IH l2 H). }
  apply join_unique in E; trivial; try (right; eexists; reflexivity).
  destruct E as [Es Et]. injection Et as Et.
  rewrite <- (append_empty_r (Py.join "," (map Py.str_of_int t1))) in Et.
  rewrite <- (append_empty_r (Py.join "," (map Py.str_of_int t2))) in Et.
  apply join_unique in Et; trivial; try (now left).
  destruct Et as [Et _]. split; now apply I.
Qed.

(** The text that is hashed names its packet sizes and inter-arrival
    times without ambiguity: two windows that differ in a size or in a
    time are never serialised to the same text. *)
Theorem fingerprint_text_is_unambiguous (s1 t1 s2 t2 : list Z) :
  s1 <> s2 \/ t1 <> t2 ->
  Ingestion.fingerprint_str s1 t1 <> Ingestion.fingerprint_str s2 t2.
Proof.
  intros H E. apply fingerprint_str_inj in E. destruct E; tauto.
Qed.

Lemma fingerprint_text_is_unambiguous_witness :
  Ingestion.fingerprint_str [1; 23]%Z [4]%Z
  <> Ingestion.fingerprint_str [12; 3]%Z [4]%Z.
Proof.
  apply fingerprint_text_is_unambiguous. left. discriminate.
Defined.

End Serial.

(* ===================================================================== *)
(** * The node directory *)
(* ===================================================================== *)


Lemma insert_tor_node_present (d old : Directory.NodeRow) (t : list Directory.NodeRow) :
  Directory.lookup (Directory.fingerprint d) t = Some old ->
  Directory.lookup (Directory.fingerprint d) (Directory.insert_tor_node d t)
  = Some (Directory.do_update old d) /\
  map Directory.fingerprint (Directory.insert_tor_node d t)
  = map Directory.fingerprint t.
Proof.
  unfold Directory.lookup. induction t as [|r t IH]; [discriminate|].
  cbn [find Directory.insert_tor_node].
  destruct (String.eqb (Directory.fingerprint r) (Directory.fingerprint d)) eqn:E.
  - intros H. injection H as <-. cbn [find map Directory.do_update Directory.fingerprint].
    rewrite E. split; reflexivity.
  - intros H. cbn [find map]. rewrite E. destruct (IH H) as [H1 H2].
    split; [exact H1|now rewrite H2].
Qed.






(** Inserting a node whose fingerprint is already in the table refreshes
    its nickname, last_seen, flags, bandwidth and running state, and
    nothing else: the row keeps its address, ports, country, consensus
    weight, first_seen, and its [is_guard] and [is_exit] columns, whatever
    the new data say.  A relay that gains the Guard flag after it was
    first inserted has the flag in [flags] and still [is_guard = FALSE]. *)
Theorem reinserted_node_keeps_its_role (d old : Directory.NodeRow)
    (t : list Directory.NodeRow) :
  Directory.lookup (Directory.fingerprint d) t = Some old ->
  exists row,
    Directory.lookup (Directory.fingerprint d) (Directory.insert_tor_node d t) = Some row /\
    Directory.is_guard row = Directory.is_guard old /\
    Directory.is_exit row = Directory.is_exit old /\
    Directory.ip_address row = Directory.ip_address old /\
    Directory.or_port row = Directory.or_port old /\
    Directory.dir_port row = Directory.dir_port old /\
    Directory.country_code row = Directory.country_code old /\
    Directory.consensus_weight row = Directory.consensus_weight old /\
    Directory.first_seen row = Directory.first_seen old /\
    Directory.nickname row = Directory.nickname d /\
    Directory.last_seen row = Directory.last_seen d /\
    Directory.flags row = Directory.flags d /\
    Directory.bandwidth_kb row = Directory.bandwidth_kb d /\
    Directory.is_running row = Directory.is_running d.
Proof.
  intros H. exists (Directory.do_update old d).
  split; [apply (insert_tor_node_present d old t H)|].
  repeat split.
Qed.

(** The relay of the example is a guard when it is seen again, and the
    table does not say so. *)
Lemma reinserted_node_keeps_its_role_witness :
  exists row,
    Directory.lookup (Directory.fingerprint Directory.seen_again)
      (Directory.insert_tor_node Directory.seen_again
         (Directory.insert_tor_node Directory.seen_first [])) = Some row /\
    In "Guard"%string (Directory.flags row) /\
    Directory.is_guard row = false /\
    Directory.country_code row = None /\
    Directory.consensus_weight row = Some 0%Z.
Proof.
  destruct (reinserted_node_keeps_its_role Directory.seen_again Directory.seen_first
              (Directory.insert_tor_node Directory.seen_first []) eq_refl)
    as (row & Hl & Hg & _ & _ & _ & _ & Hc & Hw & _ & _ & _ & Hf & _).
  exists row. split; [exact Hl|]. rewrite Hf, Hg, Hc, Hw.
  split; [now left|]. repeat split.
Defined.

(** Inserting the same data twice is the same as inserting it once. *)
Theorem insert_tor_node_twice (d : Directory.NodeRow) (t : list Directory.NodeRow) :
  Directory.insert_tor_node d (Directory.insert_tor_node d t)
  = Directory.insert_tor_node d t.
Proof.
  induction t as [|r t IH].
  - cbn [Directory.insert_tor_node]. rewrite String.eqb_refl. now destruct d.
  - cbn [Directory.insert_tor_node].
    destruct (String.eqb (Directory.fingerprint r) (Directory.fingerprint d)) eqn:E.
    + cbn [Directory.insert_tor_node Directory.do_update Directory.fingerprint].
      rewrite E. reflexivity.
    + cbn [Directory.insert_tor_node]. rewrite E. now rewrite IH.
Qed.

(* ===================================================================== *)
(** * Flow extraction *)
(* ===================================================================== *)

Module Grouping.

Import Capture.

Lemma key_eqb_eq (a b : FlowKey) : key_eqb a b = true <-> a = b.
Proof.
  destruct a as [[[[s1 d1] sp1] dp1] p1], b as [[[[s2 d2] sp2] dp2] p2].
  unfold key_eqb. rewrite !andb_true_iff, !String.eqb_eq, !Z.eqb_eq.
  split; [intros [[[[-> ->] ->] ->] ->]; reflexivity|].
  intros H. injection H as -> -> -> -> ->. auto.
Qed.

Lemma key_eqb_refl (a : FlowKey) : key_eqb a a = true.
Proof. now apply key_eqb_eq. Qed.

Lemma key_eqb_neq (a b : FlowKey) : a <> b -> key_eqb a b = false.
Proof.
  intros H. destruct (key_eqb a b) eqn:E; [|reflexivity].
  apply key_eqb_eq in E. contradiction.
Qed.

Lemma key_dec (a b : FlowKey) : a = b \/ a <> b.
Proof.
  destruct (key_eqb a b) eqn:E; [left; now apply key_eqb_eq|right].
  intros ->. rewrite key_eqb_refl in E. discriminate.
Qed.

Lemma mem_in (k : FlowKey) (ks : list FlowKey) :
  existsb (fun k' => key_eqb k' k) ks = true <-> In k ks.
Proof.
  rewrite existsb_exists. split.
  - intros (k' & Hin & E). apply key_eqb_eq in E. now subst.
  - intros H. exists k. split; [exact H|apply key_eqb_refl].
Qed.

Lemma contains_keys (k : FlowKey) (flows : Flows) :
  contains k flows = existsb (fun k' => key_eqb k' k) (map fst flows).
Proof.
  unfold contains. induction flows as [|e flows IH]; [reflexivity|].
  cbn [existsb map]. now rewrite IH.
Qed.

(** ** The dictionary *)

Lemma modify_keys (k : FlowKey) (f : FlowData -> FlowData) (flows : Flows) :
  map fst (modify k f flows) = map fst flows.
Proof.
  induction flows as [|[k' d] flows IH]; [reflexivity|].
  cbn [modify]. destruct (key_eqb k' k); cbn [map fst]; [reflexivity|now rewrite IH].
Qed.

Lemma get_modify_same (k : FlowKey) (f : FlowData -> FlowData) (flows : Flows) :
  get k (modify k f flows) = option_map f (get k flows).
Proof.
  unfold get. induction flows as [|[k' d] flows IH]; [reflexivity|].
  cbn [modify find fst]. destruct (key_eqb k' k) eqn:E; cbn [find fst]; rewrite E.
  - reflexivity.
  - exact IH.
Qed.

Lemma get_modify_other (k k0 : FlowKey) (f : FlowData -> FlowData) (flows : Flows) :
  k <> k0 -> get k (modify k0 f flows) = get k flows.
Proof.
  intros Hne. unfold get. induction flows as [|[k' d] flows IH]; [reflexivity|].
  cbn [modify find fst]. destruct (key_eqb k' k0) eqn:E0; cbn [find fst].
  - apply key_eqb_eq in E0. subst k'. now rewrite (key_eqb_neq k0 k) by congruence.
  - destruct (key_eqb k' k); [reflexivity|exact IH].
Qed.

Lemma get_app_absent (k : FlowKey) (flows more : Flows) :
  ~ In k (map fst flows) -> get k (flows ++ more) = get k more.
Proof.
  unfold get. induction flows as [|[k' d] flows IH]; intros H; [reflexivity|].
  cbn [app find fst]. cbn [map fst In] in H.
  rewrite (key_eqb_neq k' k) by tauto. apply IH. tauto.
Qed.

Lemma get_app_present (k : FlowKey) (flows more : Flows) :
  In k (map fst flows) -> get k (flows ++ more) = get k flows.
Proof.
  unfold get. induction flows as [|[k' d] flows IH]; intros H; [destruct H|].
  cbn [app find fst]. destruct (key_eqb k' k) eqn:E; [reflexivity|].
  apply IH. cbn [map fst In] in H. destruct H as [->|H]; [|exact H].
  rewrite key_eqb_refl in E. discriminate.
Qed.

Lemma get_in (k : FlowKey) (d : FlowData) (flows : Flows) :
  NoDup (map fst flows) -> In (k, d) flows -> get k flows = Some d.
Proof.
  unfold get. induction flows as [|[k' d'] flows IH]; intros Hnd Hin; [destruct Hin|].
  cbn [map fst] in Hnd. inversion Hnd as [|? ? Hk Hnd']; subst.
  cbn [find fst]. destruct Hin as [E|Hin].
  - injection E as -> ->. now rewrite key_eqb_refl.
  - rewrite key_eqb_neq; [now apply IH|].
    intros ->. apply Hk. apply in_map_iff. now exists (k, d).
Qed.

Lemma get_some_in (k : FlowKey) (d : FlowData) (flows : Flows) :
  get k flows = Some d -> In (k, d) flows.
Proof.
  unfold get. destruct (find _ flows) as [[k' d']|] eqn:E; [|discriminate].
  intros H. injection H as <-. apply find_some in E. destruct E as [Hin Hk].
  apply key_eqb_eq in Hk. cbn [fst] in Hk. now subst.
Qed.

(** ** Keys *)

Lemma keys_snoc (capture : list Frame) (pkt : Frame) :
  keys (capture ++ [pkt])
  = (keys capture ++ match key_of pkt with Some (k, _) => [k] | None => [] end)%list.
Proof. unfold keys. rewrite flat_map_app. cbn [flat_map]. now rewrite app_nil_r. Qed.

Lemma first_occurrences_snoc (ks : list FlowKey) (k : FlowKey) :
  first_occurrences (ks ++ [k])
  = if existsb (fun k' => key_eqb k' k) (first_occurrences ks)
    then first_occurrences ks else (first_occurrences ks ++ [k])%list.
Proof. unfold first_occurrences. now rewrite fold_left_app. Qed.

Lemma first_occurrences_spec (ks : list FlowKey) :
  NoDup (first_occurrences ks) /\ forall k, In k (first_occurrences ks) <-> In k ks.
Proof.
  induction ks as [|k ks [IHn IHi]] using rev_ind.
  - split; [constructor|reflexivity].
  - rewrite first_occurrences_snoc.
    destruct (existsb _ (first_occurrences ks)) eqn:E.
    + apply mem_in in E. split; [exact IHn|]. intros k'. rewrite in_app_iff, IHi.
      cbn [In]. split; [tauto|]. intros [H|[<-|[]]]; [exact H|now apply IHi].
    + split.
      * apply NoDup_app; [exact IHn|repeat constructor; intros []|].
        intros k' Hin [<-|[]]. apply mem_in in Hin. congruence.
      * intros k'. rewrite !in_app_iff, IHi. reflexivity.
Qed.

Lemma in_keys (k : FlowKey) (capture : list Frame) :
  In k (keys capture) <-> exists pkt, In pkt capture /\ in_flow k pkt = true.
Proof.
  unfold keys, in_flow. rewrite in_flat_map. split.
  - intros (pkt & Hin & Hk). exists pkt. split; [exact Hin|].
    destruct (key_of pkt) as [[k' fl]|]; [|destruct Hk].
    destruct Hk as [->|[]]. apply key_eqb_refl.
  - intros (pkt & Hin & Hk). exists pkt. split; [exact Hin|].
    destruct (key_of pkt) as [[k' fl]|]; [|discriminate].
    apply key_eqb_eq in Hk. now left.
Qed.

Lemma filter_nil_not_in (k : FlowKey) (capture : list Frame) :
  ~ In k (keys capture) -> filter (in_flow k) capture = [].
Proof.
  intros H. induction capture as [|pkt capture IH]; [reflexivity|].
  cbn [filter]. destruct (in_flow k pkt) eqn:E.
  - exfalso. apply H. apply in_keys. exists pkt. split; [now left|exact E].
  - apply IH. intros Hin. apply H. apply in_keys in Hin.
    destruct Hin as (q & Hq & Eq). apply in_keys. exists q. split; [now right|exact Eq].
Qed.

Lemma filter_cons_in (k : FlowKey) (capture : list Frame) :
  In k (keys capture) -> filter (in_flow k) capture <> [].
Proof.
  intros H E. apply in_keys in H. destruct H as (pkt & Hin & Hk).
  assert (Hf : In pkt (filter (in_flow k) capture)) by (apply filter_In; auto).
  rewrite E in Hf. destruct Hf.
Qed.

(** ** One more packet *)

Lemma bytes_snoc (mine : list Frame) (pkt : Frame) :
  fold_right (fun p n => (len p + n)%Z) 0%Z (mine ++ [pkt])
  = (fold_right (fun p n => (len p + n)%Z) 0%Z mine + len pkt)%Z.
Proof. induction mine as [|p mine IH]; cbn [app fold_right]; [|rewrite IH]; lia. Qed.

Lemma flow_of_other (k : FlowKey) (capture : list Frame) (pkt : Frame) :
  in_flow k pkt = false -> flow_of k (capture ++ [pkt]) = flow_of k capture.
Proof.
  intros H. unfold flow_of. rewrite filter_app. cbn [filter]. rewrite H.
  now rewrite app_nil_r.
Qed.

Lemma flow_of_more (k : FlowKey) (flags : string) (capture : list Frame) (pkt : Frame) :
  key_of pkt = Some (k, flags) -> In k (keys capture) ->
  flow_of k (capture ++ [pkt])
  = {| packets := (packets (flow_of k capture) ++ [pkt])%list;
       start_time := start_time (flow_of k capture);
       end_time := float_time pkt;
       byte_count := (byte_count (flow_of k capture) + len pkt)%Z;
       tcp_flags := tcp_flags (flow_of k capture) |}.
Proof.
  intros Hk Hin. apply filter_cons_in in Hin.
  assert (Hp : in_flow k pkt = true) by (unfold in_flow; rewrite Hk; apply key_eqb_refl).
  unfold flow_of. cbn [packets start_time byte_count tcp_flags].
  rewrite filter_app. cbn [filter]. rewrite Hp.
  destruct (filter (in_flow k) capture) as [|m mine]; [contradiction|].
  rewrite rev_app_distr, bytes_snoc. reflexivity.
Qed.

Lemma flow_of_new (k : FlowKey) (flags : string) (capture : list Frame) (pkt : Frame) :
  key_of pkt = Some (k, flags) -> ~ In k (keys capture) ->
  flow_of k (capture ++ [pkt])
  = {| packets := [pkt];
       start_time := float_time pkt;
       end_time := float_time pkt;
       byte_count := (0 + len pkt)%Z;
       tcp_flags := flags |}.
Proof.
  intros Hk Hin.
  assert (Hp : in_flow k pkt = true) by (unfold in_flow; rewrite Hk; apply key_eqb_refl).
  unfold flow_of. rewrite filter_app, (filter_nil_not_in k capture Hin).
  cbn [filter app rev fold_right]. rewrite Hp, Hk.
  cbn [app rev fold_right]. f_equal. lia.
Qed.

(** The loop keeps the dictionary in step with the capture read so far:
    its keys are the distinct flow keys in order of first occurrence, and
    under each key is the flow of that key. *)
Lemma group_flows_invariant (capture : list Frame) :
  map fst (group_flows capture) = first_occurrences (keys capture) /\
  forall k, In k (keys capture) -> get k (group_flows capture) = Some (flow_of k capture).
Proof.
  induction capture as [|pkt capture [IHk IHg]] using rev_ind.
  - split; [reflexivity|intros k []].
  - unfold group_flows in *. rewrite fold_left_app. cbn [fold_left].
    set (flows := fold_left add_packet capture []) in *.
    rewrite keys_snoc. unfold add_packet.
    destruct (key_of pkt) as [[k0 flags]|] eqn:Ek.
    2:{ rewrite app_nil_r. split; [exact IHk|]. intros k Hin.
        rewrite flow_of_other; [now apply IHg|]. unfold in_flow. now rewrite Ek. }
    cbv zeta. rewrite first_occurrences_snoc, contains_keys, IHk.
    destruct (first_occurrences_spec (keys capture)) as [_ Hfo].
    split.
    { rewrite !modify_keys.
      destruct (existsb _ (first_occurrences (keys capture))); [exact IHk|].
      rewrite map_app, IHk. reflexivity. }
    intros k Hin. apply in_app_iff in Hin.
    destruct (key_dec k k0) as [->|Hne].
    + rewrite !get_modify_same.
      destruct (existsb _ (first_occurrences (keys capture))) eqn:E.
      * apply mem_in, Hfo in E. rewrite (IHg k0 E). cbn [option_map].
        cbn [packets start_time end_time byte_count tcp_flags].
        now rewrite (flow_of_more k0 flags capture pkt Ek E).
      * assert (Hno : ~ In k0 (keys capture)).
        { intros H. apply Hfo, mem_in in H. congruence. }
        rewrite get_app_absent by (rewrite IHk; intros H; now apply Hfo in H).
        unfold get. cbn [find fst]. rewrite key_eqb_refl. cbn [option_map snd].
        cbn [packets start_time end_time byte_count tcp_flags app].
        now rewrite (flow_of_new k0 flags capture pkt Ek Hno).
    + assert (Hk : In k (keys capture)).
      { destruct Hin as [H|[H|[]]]; [exact H|congruence]. }
      rewrite !get_modify_other by exact Hne.
      rewrite flow_of_other
        by (unfold in_flow; rewrite Ek; apply key_eqb_neq; congruence).
      destruct (existsb _ (first_occurrences (keys capture))); [now apply IHg|].
      rewrite get_app_present by (rewrite IHk; now apply Hfo).
      now apply IHg.
Qed.

Lemma flows_closed_form (D : FlowKey -> FlowData) (flows : Flows) :
  NoDup (map fst flows) ->
  (forall k, In k (map fst flows) -> get k flows = Some (D k)) ->
  flows = map (fun k => (k, D k)) (map fst flows).
Proof.
  induction flows as [|[k d] flows IH]; intros Hnd Hget; [reflexivity|].
  cbn [map fst] in *. inversion Hnd as [|? ? Hk Hnd']; subst.
  f_equal.
  - f_equal. specialize (Hget k (or_introl eq_refl)). unfold get in Hget.
    cbn [find fst] in Hget. rewrite key_eqb_refl in Hget. now injection Hget.
  - apply IH; [exact Hnd'|]. intros k' Hin.
    specialize (Hget k' (or_intror Hin)). unfold get in *.
    cbn [find fst] in Hget. rewrite key_eqb_neq in Hget; [exact Hget|].
    intros ->. contradiction.
Qed.

Lemma group_flows_closed_form (capture : list Frame) :
  group_flows capture
  = map (fun k => (k, flow_of k capture)) (first_occurrences (keys capture)).
Proof.
  destruct (group_flows_invariant capture) as [Hk Hg].
  destruct (first_occurrences_spec (keys capture)) as [Hnd Hfo].
  rewrite <- Hk. apply flows_closed_form.
  - rewrite Hk. exact Hnd.
  - intros k Hin. rewrite Hk in Hin. apply Hg. now apply Hfo.
Qed.

(** [extract_flows] partitions the packets that have an IP layer by their
    5-tuple.  The flows come in the order in which their first packets
    were captured, one for each distinct 5-tuple; each flow holds exactly
    the packets of its 5-tuple, in capture order and at least one, with
    the times of the first and the last of them as start and end, the sum
    of their lengths as byte count and the flags of the first; and a
    packet without IP layer is in no flow. *)
Theorem flows_partition_the_capture (capture : list Frame) :
  let flows := group_flows capture in
  map fst flows = first_occurrences (keys capture) /\
  NoDup (map fst flows) /\
  (forall k d, In (k, d) flows ->
     d = flow_of k capture /\
     packets d = filter (in_flow k) capture /\
     packets d <> []) /\
  (forall pkt k flags,
     In pkt capture -> key_of pkt = Some (k, flags) ->
     exists d, In (k, d) flows /\ In pkt (packets d)) /\
  (forall pkt,
     In pkt capture -> ip pkt = None ->
     forall k d, In (k, d) flows -> ~ In pkt (packets d)).
Proof.
  cbv zeta.
  destruct (group_flows_invariant capture) as [Hk Hg].
  destruct (first_occurrences_spec (keys capture)) as [Hnd Hfo].
  assert (Hnd' : NoDup (map fst (group_flows capture))) by (rewrite Hk; exact Hnd).
  assert (Hin : forall k d, In (k, d) (group_flows capture) ->
                  In k (keys capture) /\ d = flow_of k capture).
  { intros k d H.
    assert (Hkk : In k (keys capture)).
    { apply Hfo. rewrite <- Hk. apply in_map_iff. now exists (k, d). }
    split; [exact Hkk|].
    pose proof (get_in k d _ Hnd' H) as G. rewrite (Hg k Hkk) in G. now injection G. }
  split; [exact Hk|]. split; [exact Hnd'|]. split.
  { intros k d H. destruct (Hin k d H) as [Hkk ->].
    split; [reflexivity|]. split; [reflexivity|].
    cbn [flow_of packets]. now apply filter_cons_in. }
  split.
  { intros pkt k flags Hp Hkey.
    assert (Hf : in_flow k pkt = true)
      by (unfold in_flow; rewrite Hkey; apply key_eqb_refl).
    assert (Hkk : In k (keys capture)) by (apply in_keys; now exists pkt).
    exists (flow_of k capture). split.
    - apply get_some_in. now apply Hg.
    - cbn [flow_of packets]. apply filter_In. auto. }
  intros pkt Hp Hip k d H. destruct (Hin k d H) as [_ ->].
  cbn [flow_of packets]. rewrite filter_In. intros [_ Hf].
  unfold in_flow, key_of in Hf. rewrite Hip in Hf. discriminate.
Qed.

(** The capture of the example has three flows: the two directions of the
    TCP exchange and the DNS query; the ARP frame is in none. *)
Lemma flows_partition_the_capture_witness :
  map fst (group_flows example_capture)
  = [ ("10.0.0.5", "198.51.100.7", 50000, 443, "TCP")%string%Z;
      ("198.51.100.7", "10.0.0.5", 443, 50000, "TCP")%string%Z;
      ("10.0.0.5", "10.0.0.1", 53001, 53, "UDP")%string%Z ] /\
  exists d,
    In (("10.0.0.5", "198.51.100.7", 50000, 443, "TCP")%string%Z, d)
       (group_flows example_capture) /\
    List.length (packets d) = 3%nat /\
    byte_count d = 723%Z /\
    tcp_flags d = "S"%string.
Proof.
  destruct (flows_partition_the_capture example_capture) as (Hk & _ & Hd & _).
  split; [rewrite Hk; vm_compute; reflexivity|].
  exists (flow_of ("10.0.0.5", "198.51.100.7", 50000, 443, "TCP")%string%Z
            example_capture).
  assert (Hin : In (("10.0.0.5", "198.51.100.7", 50000, 443, "TCP")%string%Z,
                    flow_of ("10.0.0.5", "198.51.100.7", 50000, 443, "TCP")%string%Z
                      example_capture)
                   (group_flows example_capture)).
  { rewrite group_flows_closed_form. vm_compute. left. reflexivity. }
  destruct (Hd _ _ Hin) as (_ & Hp & _).
  split; [exact Hin|]. split; [rewrite Hp; vm_compute; reflexivity|].
  split; vm_compute; reflexivity.
Defined.

(** ** Nothing is lost and nothing is counted twice *)

Lemma zsum_add (f g : FlowKey -> Z) (ks : list FlowKey) :
  fold_right Z.add 0%Z (map (fun k => (f k + g k)%Z) ks)
  = (fold_right Z.add 0%Z (map f ks) + fold_right Z.add 0%Z (map g ks))%Z.
Proof. induction ks as [|k ks IH]; cbn [map fold_right]; [|rewrite IH]; lia. Qed.

Lemma zsum_zero (f : FlowKey -> Z) (ks : list FlowKey) :
  (forall k, In k ks -> f k = 0%Z) -> fold_right Z.add 0%Z (map f ks) = 0%Z.
Proof.
  induction ks as [|k ks IH]; intros H; [reflexivity|].
  cbn [map fold_right]. rewrite (H k (or_introl eq_refl)), IH; [reflexivity|].
  intros k' Hk. apply H. now right.
Qed.

Lemma zsum_indicator (k0 : FlowKey) (w : Z) (ks : list FlowKey) :
  NoDup ks -> In k0 ks ->
  fold_right Z.add 0%Z (map (fun k => if key_eqb k0 k then w else 0%Z) ks) = w.
Proof.
  induction ks as [|k ks IH]; intros Hnd Hin; [destruct Hin|].
  inversion Hnd as [|? ? Hk Hnd']; subst. cbn [map fold_right].
  destruct Hin as [->|Hin].
  - rewrite key_eqb_refl, zsum_zero; [lia|].
    intros k Hk'. rewrite key_eqb_neq; [reflexivity|]. intros ->. contradiction.
  - rewrite key_eqb_neq by (intros ->; contradiction). now rewrite IH.
Qed.

Lemma key_of_has_ip (pkt : Frame) :
  has_ip pkt = match key_of pkt with Some _ => true | None => false end.
Proof.
  unfold has_ip, key_of. destruct (ip pkt) as [[src dst]|]; [|reflexivity].
  now destruct (transport pkt).
Qed.

Lemma sum_over_flows (w : Frame -> Z) (ks : list FlowKey) (capture : list Frame) :
  NoDup ks -> (forall k, In k (keys capture) -> In k ks) ->
  fold_right Z.add 0%Z
    (map (fun k => fold_right Z.add 0%Z (map w (filter (in_flow k) capture))) ks)
  = fold_right Z.add 0%Z (map w (filter has_ip capture)).
Proof.
  intros Hnd. induction capture as [|pkt capture IH]; intros Hall.
  - cbn [filter map fold_right]. now apply zsum_zero.
  - assert (Hrest : forall k, In k (keys capture) -> In k ks).
    { intros k Hk. apply Hall. apply in_keys in Hk. destruct Hk as (q & Hq & E).
      apply in_keys. exists q. split; [now right|exact E]. }
    specialize (IH Hrest).
    rewrite (map_ext _
               (fun k => ((if in_flow k pkt then w pkt else 0)
                          + fold_right Z.add 0 (map w (filter (in_flow k) capture)))%Z)).
    2:{ intros k. cbn [filter]. destruct (in_flow k pkt); reflexivity. }
    rewrite zsum_add, IH. cbn [filter]. rewrite key_of_has_ip.
    unfold in_flow. destruct (key_of pkt) as [[k0 fl]|] eqn:Ek.
    + rewrite zsum_indicator; [reflexivity|exact Hnd|].
      apply Hall. apply in_keys. exists pkt. split; [now left|].
      unfold in_flow. rewrite Ek. apply key_eqb_refl.
    + rewrite zsum_zero by reflexivity. reflexivity.
Qed.

Lemma bytes_as_sum (mine : list Frame) :
  fold_right (fun p n => (len p + n)%Z) 0%Z mine = fold_right Z.add 0%Z (map len mine).
Proof. induction mine as [|p mine IH]; cbn [map fold_right]; [|rewrite IH]; reflexivity. Qed.

Lemma length_as_sum (mine : list Frame) :
  Z.of_nat (List.length mine) = fold_right Z.add 0%Z (map (fun _ => 1%Z) mine).
Proof. induction mine as [|p mine IH]; cbn [List.length map fold_right]; lia. Qed.

(** [extract_flows] loses no packet and counts none twice: over all the
    flows, the packet counts add up to the number of packets with an IP
    layer, and the byte counts to the sum of the lengths of these
    packets. *)
Theorem extraction_conserves_packets (capture : list Frame) :
  let flows := group_flows capture in
  let with_ip := filter has_ip capture in
  fold_right Z.add 0%Z (map (fun item => Z.of_nat (List.length (packets (snd item)))) flows)
  = Z.of_nat (List.length with_ip) /\
  fold_right Z.add 0%Z (map (fun item => byte_count (snd item)) flows)
  = fold_right Z.add 0%Z (map len with_ip).
Proof.
  cbv zeta. rewrite group_flows_closed_form, !map_map. cbn [snd].
  destruct (first_occurrences_spec (keys capture)) as [Hnd Hfo].
  assert (Hall : forall k, In k (keys capture) -> In k (first_occurrences (keys capture)))
    by (intros k; apply Hfo).
  split.
  - rewrite length_as_sum. rewrite <- (sum_over_flows _ _ capture Hnd Hall).
    f_equal. apply map_ext. intros k. cbn [flow_of packets]. apply length_as_sum.
  - rewrite <- (sum_over_flows len _ capture Hnd Hall).
    f_equal. apply map_ext. intros k. cbn [flow_of byte_count]. apply bytes_as_sum.
Qed.


(** ** The records *)



Lemma head_in {A : Type} (l : list A) (a : A) (rest : list A) :
  l = a :: rest -> In a l.
Proof. intros ->. now left. Qed.





End Grouping.

(* ===================================================================== *)
(** * The queries of the reports *)
(* ===================================================================== *)

Module Reporting.

Import Report.



(** The order of the joined rows is the order of their correlations. *)
Lemma insert_joined_correlations (row : Joined) (l : list Joined) :
  map correlation_of (insert_joined row l)
  = insert_desc (correlation_of row) (map correlation_of l).
Proof.
  induction l as [|d l IH]; [reflexivity|]. cbn [insert_joined map insert_desc].
  destruct (PrimFloat.ltb _ _); cbn [map]; [now rewrite IH|reflexivity].
Qed.

Lemma order_by_confidence_correlations (l : list Joined) :
  map correlation_of (order_by_confidence l) = sort_desc (map correlation_of l).
Proof.
  induction l as [|row l IH]; [reflexivity|].
  unfold order_by_confidence, sort_desc in *. cbn [fold_right map].
  now rewrite insert_joined_correlations, IH.
Qed.






(** ** The report after a pass *)

Lemma flat_map_single {A B : Type} (p : A -> bool) (F : A -> list B) (l : list A) (x : A) :
  NoDup l -> In x l -> p x = true ->
  (forall y, In y l -> p y = true -> y = x) ->
  flat_map (fun y => if p y then F y else []) l = F x.
Proof.
  induction l as [|y l IH]; intros Hnd Hin Hx Huniq; [destruct Hin|].
  inversion Hnd as [|? ? Hy Hnd']; subst. cbn [flat_map].
  destruct (p y) eqn:Ey.
  - assert (y = x) as -> by (apply Huniq; [now left|exact Ey]).
    rewrite (flat_map_nil (fun z => if p z then F z else []) l); [apply app_nil_r|].
    intros z Hz. cbv beta. destruct (p z) eqn:Ez; [|reflexivity].
    assert (z = x) as -> by (apply Huniq; [now right|exact Ez]). contradiction.
  - destruct Hin as [->|Hin]; [congruence|].
    apply IH; auto. intros z Hz. apply Huniq. now right.
Qed.

Lemma NoDup_map_inj {A K : Type} (key : A -> K) (l : list A) (x y : A) :
  NoDup (map key l) -> In x l -> In y l -> key x = key y -> x = y.
Proof.
  induction l as [|a l IH]; intros Hnd Hx Hy E; [destruct Hx|].
  cbn [map] in Hnd. inversion Hnd as [|? ? Ha Hnd']; subst.
  destruct Hx as [->|Hx], Hy as [->|Hy]; [reflexivity| | |now apply IH].
  - exfalso. apply Ha. rewrite E. now apply in_map.
  - exfalso. apply Ha. rewrite <- E. now apply in_map.
Qed.

Lemma NoDup_of_map {A K : Type} (key : A -> K) (l : list A) :
  NoDup (map key l) -> NoDup l.
Proof.
  induction l as [|a l IH]; intros H; [constructor|].
  cbn [map] in H. inversion H as [|? ? Ha Hnd]; subst.
  constructor; [|now apply IH]. intros Hin. apply Ha. now apply in_map.
Qed.

(** With unique keys, a correlation whose flow and node are in the tables
    is in one row of the join. *)
Lemma join_of_referenced (s : Store) :
  NoDup (map flow_id (network_flows s)) ->
  NoDup (map fingerprint (tor_nodes s)) ->
  Forall (fun cr =>
            (exists nf, In nf (network_flows s) /\ flow_id nf = corr_flow_id cr) /\
            (exists tn, In tn (tor_nodes s) /\
                        fingerprint tn = candidate_node_fingerprint cr))
         (correlation_results s) ->
  map correlation_of (join s) = correlation_results s.
Proof.
  intros Hf Hn. unfold join.
  induction (correlation_results s) as [|cr crs IH]; intros Hall; [reflexivity|].
  inversion Hall as [|? ? [[nf [Hnf Enf]] [tn [Htn Etn]]] Hall']; subst.
  change (cr :: crs) with ([cr] ++ crs)%list at 1.
  rewrite flat_map_app, map_app.
  change (cr :: crs) with ([cr] ++ crs)%list.
  f_equal; [clear IH|exact (IH Hall')].
  change (flat_map ?f [cr]) with (f cr ++ [])%list.
  cbv beta. rewrite app_nil_r.
  rewrite (flat_map_single (fun nf' => Z.eqb (corr_flow_id cr) (flow_id nf')) _ _ nf).
  - rewrite (flat_map_single
               (fun tn' => String.eqb (candidate_node_fingerprint cr) (fingerprint tn'))
               (fun tn' => [(cr, nf, tn')]) _ tn).
    + reflexivity.
    + now apply NoDup_of_map in Hn.
    + exact Htn.
    + rewrite Etn. apply String.eqb_refl.
    + intros y Hy Ey. apply String.eqb_eq in Ey.
      apply (NoDup_map_inj fingerprint _ y tn Hn Hy Htn). congruence.
  - now apply NoDup_of_map in Hf.
  - exact Hnf.
  - rewrite Enf. apply Z.eqb_refl.
  - intros y Hy Ey. apply Z.eqb_eq in Ey.
    apply (NoDup_map_inj flow_id _ y nf Hf Hy Hnf). congruence.
Qed.

(** After a pass on a datastore that does not fail, with unique flow
    identifiers and node fingerprints and no earlier correlation, every
    row written is in exactly one row of the join, and the confidences
    that [get_top_correlations] gives for [limit = MAX_CANDIDATE_NODES]
    are the confidences of the rows the pass returned, in the same
    order. *)
Theorem report_shows_what_the_pass_returned (cfg : Config) (id : Z) (s : Store) :
  correlation_results s = [] ->
  NoDup (map flow_id (network_flows s)) ->
  NoDup (map fingerprint (tor_nodes s)) ->
  let after := store (snd (correlate_flow_to_guards cfg id (reliable s))) in
  map correlation_of (join after) = persisted cfg id (reliable s) /\
  map (fun row => confidence_score (correlation_of row))
      (top_correlations (MAX_CANDIDATE_NODES cfg) after)
  = map confidence_score (returned cfg id (reliable s)).
Proof.
  intros Hempty Hf Hn. cbv zeta.
  rewrite persisted_ok, returned_ok. unfold reliable. rewrite correlate_ok.
  cbn [snd store].
  set (rows := flow_rows cfg s id).
  assert (Hjoin : map correlation_of (join (add_rows rows s)) = rows).
  { rewrite (join_of_referenced (add_rows rows s)); cbn [add_rows network_flows tor_nodes
                                                          correlation_results];
      [now rewrite Hempty|exact Hf|exact Hn|].
    rewrite Hempty. cbn [app]. apply Forall_forall. intros c Hc.
    pose proof (proj1 (Forall_forall _ _) (flow_rows_flow_id cfg s id) c Hc) as Hid.
    apply in_flow_rows in Hc. destruct Hc as (flow & node & Hflow & Hnode & _ & ->).
    apply select_flow_some in Hflow. destruct Hflow as [Hin Hfid].
    apply select_guards_incl in Hnode. destruct Hnode as [Hnin _].
    split.
    - exists flow. split; [exact Hin|]. now rewrite Hid.
    - exists node. split; [exact Hnin|]. unfold correlation_data, scores. reflexivity. }
  split; [exact Hjoin|].
  unfold top_correlations.
  rewrite <- (map_map correlation_of confidence_score).
  now rewrite <- firstn_map, order_by_confidence_correlations, Hjoin.
Qed.

(** Flow 1 of the example datastore: eleven rows in the join, and the ten
    confidences returned at the top of the report. *)
Lemma report_shows_what_the_pass_returned_witness :
  let s := Examples.example_store in
  let after := store (snd (correlate_flow_to_guards default_config 1 (reliable s))) in
  List.length (join after) = 11%nat /\
  map (fun row => confidence_score (correlation_of row)) (top_correlations 10 after)
  = map confidence_score (returned default_config 1 (reliable s)).
Proof.
  intros s after.
  destruct (report_shows_what_the_pass_returned default_config 1%Z s) as [_ H].
  - reflexivity.
  - vm_compute. repeat constructor; intros H; repeat (destruct H as [H|H]; [discriminate|]);
      destruct H.
  - vm_compute. repeat constructor; intros H; repeat (destruct H as [H|H]; [discriminate|]);
      destruct H.
  - split; [vm_compute; reflexivity|exact H].
Defined.

(** ** Flows by time range *)

Lemma insert_flow_by_time_perm (f : Flow) (l : list Flow) :
  Permutation (insert_flow_by_time f l) (f :: l).
Proof.
  induction l as [|g l IH]; [reflexivity|]. cbn [insert_flow_by_time].
  destruct (timestamp f) as [t|]; [|reflexivity].
  destruct (timestamp g) as [u|]; [|reflexivity].
  destruct (Z.ltb u t); [|reflexivity].
  rewrite IH. apply perm_swap.
Qed.

Lemma insert_flow_by_time_sorted (f : Flow) (l : list Flow) :
  timestamp f <> None ->
  Forall (fun x => timestamp x <> None) l ->
  StronglySorted
    (fun x y => forall t u, timestamp x = Some t -> timestamp y = Some u -> (t <= u)%Z) l ->
  StronglySorted
    (fun x y => forall t u, timestamp x = Some t -> timestamp y = Some u -> (t <= u)%Z)
    (insert_flow_by_time f l).
Proof.
  set (R := fun x y : Flow =>
              forall t u, timestamp x = Some t -> timestamp y = Some u -> (t <= u)%Z).
  intros Hf Hd Hs. induction Hs as [|g l Hs IH Hg]; cbn [insert_flow_by_time].
  - constructor; constructor.
  - inversion Hd as [|? ? Hgd Hd']; subst.
    assert (Htrans : forall x, R g x -> forall t u,
                       timestamp f = Some t -> timestamp g = Some u -> (t <= u)%Z ->
                       R f x).
    { intros x Hgx t u Ef Eg Hle t' u' H1 H2. rewrite Ef in H1. injection H1 as <-.
      specialize (Hgx u u' Eg H2). lia. }
    destruct (timestamp f) as [t|] eqn:Ef; [|contradiction].
    destruct (timestamp g) as [u|] eqn:Eg; [|contradiction].
    destruct (Z.ltb_spec u t) as [Hlt|Hge].
    + constructor; [now apply IH|].
      eapply Permutation_Forall; [apply Permutation_sym, insert_flow_by_time_perm|].
      constructor; [|exact Hg].
      intros t' u' H1 H2. rewrite Eg in H1. rewrite Ef in H2.
      injection H1 as <-. injection H2 as <-. lia.
    + constructor; [now constructor|]. constructor.
      * intros t' u' H1 H2. rewrite Ef in H1. rewrite Eg in H2.
        injection H1 as <-. injection H2 as <-. exact Hge.
      * apply Forall_forall. intros x Hx. rewrite Forall_forall in Hg.
        exact (Htrans x (Hg x Hx) t u eq_refl eq_refl Hge).
Qed.

Lemma fold_insert_flow_by_time (l : list Flow) :
  Forall (fun x => timestamp x <> None) l ->
  Permutation (fold_right insert_flow_by_time [] l) l /\
  StronglySorted
    (fun x y => forall t u, timestamp x = Some t -> timestamp y = Some u -> (t <= u)%Z)
    (fold_right insert_flow_by_time [] l).
Proof.
  induction l as [|f l IH]; intros H; [split; [reflexivity|constructor]|].
  inversion H as [|? ? Hf Hl]; subst. destruct (IH Hl) as [Hp Hs].
  cbn [fold_right]. split.
  - rewrite insert_flow_by_time_perm. now constructor.
  - apply insert_flow_by_time_sorted; [exact Hf| |exact Hs].
    eapply Permutation_Forall; [apply Permutation_sym, Hp|exact Hl].
Qed.

(** [get_flows_by_timerange] gives exactly the flows whose timestamp is
    between the two bounds, both included, each once if it is once in the
    table, by ascending timestamp; a flow without timestamp is never
    given, and nothing is when the upper bound is below the lower one.
    The query changes nothing. *)
Theorem flows_by_timerange_are_in_range (start_time end_time : Z) (w : World) :
  let found := flows_by_timerange start_time end_time (store w) in
  store (snd (get_flows_by_timerange start_time end_time w)) = store w /\
  (fst (get_flows_by_timerange start_time end_time w) = None \/
   fst (get_flows_by_timerange start_time end_time w) = Some found) /\
  (forall f,
     In f found <->
     In f (network_flows (store w)) /\
     exists t, timestamp f = Some t /\ (start_time <= t <= end_time)%Z) /\
  (NoDup (network_flows (store w)) -> NoDup found) /\
  StronglySorted
    (fun x y => forall t u, timestamp x = Some t -> timestamp y = Some u -> (t <= u)%Z)
    found /\
  ((end_time < start_time)%Z -> found = []).
Proof.
  cbv zeta. unfold get_flows_by_timerange.
  destruct (query_any (flows_by_timerange start_time end_time) w) as [Hs Hq].
  split; [exact Hs|]. split; [exact Hq|].
  unfold flows_by_timerange.
  set (in_range := fun f : Flow =>
                     match timestamp f with
                     | Some t => (start_time <=? t)%Z && (t <=? end_time)%Z
                     | None => false
                     end).
  assert (Hdated : Forall (fun x => timestamp x <> None)
                          (filter in_range (network_flows (store w)))).
  { apply Forall_forall. intros f Hf. apply filter_In in Hf. destruct Hf as [_ Hf].
    unfold in_range in Hf. destruct (timestamp f); [discriminate|discriminate]. }
  destruct (fold_insert_flow_by_time _ Hdated) as [Hp Hsorted].
  assert (Hrange : forall f, in_range f = true <->
                     exists t, timestamp f = Some t /\ (start_time <= t <= end_time)%Z).
  { intros f. unfold in_range. destruct (timestamp f) as [t|].
    - rewrite andb_true_iff, !Z.leb_le. split.
      + intros H. exists t. split; [reflexivity|lia].
      + intros (t' & E & H). injection E as <-. lia.
    - split; [discriminate|]. intros (t' & E & _). discriminate. }
  split.
  { intros f. rewrite <- Hrange, <- filter_In. split; intros H.
    - eapply Permutation_in; [exact Hp|exact H].
    - eapply Permutation_in; [apply Permutation_sym, Hp|exact H]. }
  split.
  { intros Hnd. eapply Permutation_NoDup; [apply Permutation_sym, Hp|].
    now apply NoDup_filter. }
  split; [exact Hsorted|].
  intros Hlt.
  assert (E : filter in_range (network_flows (store w)) = []).
  { clear Hdated Hp Hsorted.
    destruct (filter in_range (network_flows (store w))) as [|f l] eqn:E;
      [reflexivity|exfalso].
    assert (Hf : In f (filter in_range (network_flows (store w))))
      by (rewrite E; now left).
    apply filter_In in Hf. destruct Hf as [_ Hf].
    apply Hrange in Hf. destruct Hf as (t & _ & H). lia. }
  now rewrite E.
Qed.

(** The two flows of the example datastore were captured at the same
    second. *)
Lemma flows_by_timerange_are_in_range_witness :
  let w := reliable Examples.example_store in
  map flow_id (flows_by_timerange 1700000000000000 1700000000000000 (store w))
  = [1; 2]%Z /\
  NoDup (flows_by_timerange 1700000000000000 1700000000000000 (store w)) /\
  flows_by_timerange 1700000000000001 1700000000000000 (store w) = [].
Proof.
  intros w. split; [vm_compute; reflexivity|]. split.
  - apply (flows_by_timerange_are_in_range 1700000000000000 1700000000000000 w).
    vm_compute. repeat constructor; intros H;
      repeat (destruct H as [H|H]; [discriminate|]); destruct H.
  - apply (flows_by_timerange_are_in_range 1700000000000001 1700000000000000 w). lia.
Defined.

End Reporting.
